(** * indexd: the block indexing engine of [src/blockchain.js]

    A shallow embedding of [Blockchain.prototype.*] (connect, the second-order
    fee derivation, disconnect and the queries) over an ordered key-value
    store, followed by the properties of the engine.

    Conventions of the embedding.
    - JavaScript numbers that the engine handles (heights, output indices,
      satoshi values, virtual sizes, fee rates) are integers well inside the
      exactly-representable range of a double; they are modelled as [Z].
    - Node-style callbacks [callback(err, result)] are modelled by the
      [Completion] type; an exception that escapes a callback is [uncaught].
    - A mutation is a pure function from the store before the call to a
      [Run]: how the call ended, the store after it, the notifications it
      emitted.
    - The store ([this.db]), the remote node ([this.rpc], [rpcUtil]) and the
      index schema ([types]) are collaborators whose source is not part of
      [src/]; their contracts are modelled below and marked as such. What the
      node answers and which store request fails during a call is the [Env]
      of the call.

    Layout: data model, store and scans, collaborators, the engine function
    by function, the vocabulary of the statements, sample data; then the
    properties, grouped by the function they are about. *)

From Stdlib Require Import ZArith Lia.
From Stdlib.Strings Require Import Byte Ascii.
From stdpp Require Import base numbers sorting pretty strings gmap list.

Local Open Scope Z_scope.

(** ** Data model: what [rpcUtil.block] hands to the engine *)

Definition Error := string.
Definition Buffer := list byte.

Module Input.
Record t := mk { coinbase : bool; prevTxId : string; vout : Z }.
End Input.

Module Output.
Record t := mk { scId : string; value : Z; vout : Z }.
End Output.

Module Tx.
Record t := mk {
  txId : string;
  txBuffer : Buffer;
  ins : list Input.t;
  outs : list Output.t;
  vsize : Z }.
End Tx.

Module Block.
Record t := mk {
  height : Z;
  transactions : list Tx.t;
  size : Z;
  previousblockhash : string }.
End Block.

(** ** Rows of the indices *)

Module Tip.
Record t := mk { blockId : string; height : Z }.
End Tip.

Module Spent.
Record t := mk { txId : string; vin : Z }.
End Spent.

(** The object returned by [box]; a field is [None] when the JavaScript
    value is [undefined] (an array read past the end). *)
Module Box.
Record t := mk { q1 : option Z; median : option Z; q3 : option Z }.
End Box.

Module Fee.
Record t := mk { fees : Box.t; size : Z }.
End Fee.

(** The value [txosByScriptId] stores per output. *)
Module Txo.
Record t := mk { txId : string; vout : Z; scId : string; height : Z }.
End Txo.

Definition ScKey : Type := string * Z * string * Z.

(** ** The index schema ([types]) and atomic batches *)

(** Modelled from the spec: [types] is not under [src/]; section 3 of the
    specification gives the key fields of every index, in their sort order.
    A constructor of [types.key] is an index together with a key of it. *)
Module types.
Inductive key :=
| tip
| txIndex (txId : string)
| txoIndex (txId : string) (vout : Z)
| spentIndex (txId : string) (vout : Z)
| scIndex (scId : string) (height : Z) (txId : string) (vout : Z)
| feeIndex (height : Z).
End types.

(** An index together with a key and the value stored under it. *)
Module rows.
Inductive row :=
| tip (v : Tip.t)
| txIndex (txId : string) (height : Z)
| txoIndex (txId : string) (vout : Z) (value : Z)
| spentIndex (txId : string) (vout : Z) (v : Spent.t)
| scIndex (scId : string) (height : Z) (txId : string) (vout : Z)
| feeIndex (height : Z) (v : Fee.t).
End rows.

(** One call on [this.db.atomic()]: [atomic.put(type, key, value)] or
    [atomic.del(type, key)]. *)
Inductive Op :=
| put (r : rows.row)
| del (k : types.key).

#[global] Instance Tip_eq_dec : EqDecision Tip.t.
Proof. solve_decision. Defined.
#[global] Instance Spent_eq_dec : EqDecision Spent.t.
Proof. solve_decision. Defined.
#[global] Instance Box_eq_dec : EqDecision Box.t.
Proof. solve_decision. Defined.
#[global] Instance Fee_eq_dec : EqDecision Fee.t.
Proof. solve_decision. Defined.
#[global] Instance key_eq_dec : EqDecision types.key.
Proof. solve_decision. Defined.
#[global] Instance row_eq_dec : EqDecision rows.row.
Proof. solve_decision. Defined.
#[global] Instance Op_eq_dec : EqDecision Op.
Proof. solve_decision. Defined.

(** ** The ordered key-value store *)

(** Modelled from the spec: the store behind [this.db] is not under [src/].
    Sections 3 and 6 of the specification describe it as one ordered mapping
    per index with point reads, ordered range scans and atomic batches. *)
Module Db.
Record t := mk {
  tip : option Tip.t;
  txIndex : gmap string Z;
  txoIndex : gmap (string * Z) Z;
  spentIndex : gmap (string * Z) Spent.t;
  scIndex : gset ScKey;
  feeIndex : gmap Z Fee.t }.

Definition empty : t := mk None ∅ ∅ ∅ ∅ ∅.

Definition apply (db : t) (o : Op) : t :=
  match o with
  | put (rows.tip v) =>
      mk (Some v) (txIndex db) (txoIndex db) (spentIndex db) (scIndex db) (feeIndex db)
  | put (rows.txIndex txId height) =>
      mk (tip db) (<[txId := height]> (txIndex db)) (txoIndex db) (spentIndex db)
         (scIndex db) (feeIndex db)
  | put (rows.txoIndex txId vout value) =>
      mk (tip db) (txIndex db) (<[(txId, vout) := value]> (txoIndex db)) (spentIndex db)
         (scIndex db) (feeIndex db)
  | put (rows.spentIndex txId vout v) =>
      mk (tip db) (txIndex db) (txoIndex db) (<[(txId, vout) := v]> (spentIndex db))
         (scIndex db) (feeIndex db)
  | put (rows.scIndex scId height txId vout) =>
      mk (tip db) (txIndex db) (txoIndex db) (spentIndex db)
         ({[ (scId, height, txId, vout) ]} ∪ scIndex db) (feeIndex db)
  | put (rows.feeIndex height v) =>
      mk (tip db) (txIndex db) (txoIndex db) (spentIndex db) (scIndex db)
         (<[height := v]> (feeIndex db))
  | del types.tip =>
      mk None (txIndex db) (txoIndex db) (spentIndex db) (scIndex db) (feeIndex db)
  | del (types.txIndex txId) =>
      mk (tip db) (delete txId (txIndex db)) (txoIndex db) (spentIndex db)
         (scIndex db) (feeIndex db)
  | del (types.txoIndex txId vout) =>
      mk (tip db) (txIndex db) (delete (txId, vout) (txoIndex db)) (spentIndex db)
         (scIndex db) (feeIndex db)
  | del (types.spentIndex txId vout) =>
      mk (tip db) (txIndex db) (txoIndex db) (delete (txId, vout) (spentIndex db))
         (scIndex db) (feeIndex db)
  | del (types.scIndex scId height txId vout) =>
      mk (tip db) (txIndex db) (txoIndex db) (spentIndex db)
         (scIndex db ∖ {[ (scId, height, txId, vout) ]}) (feeIndex db)
  | del (types.feeIndex height) =>
      mk (tip db) (txIndex db) (txoIndex db) (spentIndex db) (scIndex db)
         (delete height (feeIndex db))
  end.

(** A committed batch: its operations take effect in the order of the calls,
    all of them or none. *)
Definition commit (db : t) (batch : list Op) : t := foldl apply db batch.
End Db.

(** ** Key order and range scans *)

(** Lexicographic order on pairs: the first components decide, equal first
    components leave the decision to the second ones. *)
Definition lex_le {A B} (RA : relation A) (RB : relation B) : relation (A * B) :=
  λ p q, RA p.1 q.1 ∧ (p.1 = q.1 → RB p.2 q.2).

#[global] Instance lex_le_dec {A B} (RA : relation A) (RB : relation B)
  `{!EqDecision A, !RelDecision RA, !RelDecision RB} : RelDecision (lex_le RA RB).
Proof. intros p q. unfold lex_le. apply _. Defined.

(** Modelled from the spec: the key encoding of [types.scIndex] is not under
    [src/]; by section 6 composite keys sort in declared field order, which
    for ScriptIndex is (scriptId, height, txId, vout). Identifiers are hex
    strings of one length, so their byte order is the order of the strings. *)
Definition sc_le : relation ScKey :=
  lex_le (lex_le (lex_le String.le Z.le) String.le) Z.le.

#[global] Instance sc_le_dec : RelDecision sc_le.
Proof. unfold sc_le. apply _. Defined.

(** The upper end of a scan: [lt] is exclusive, an absent [lt] is no bound. *)
Definition below {K} (le : relation K) (lt : option K) (k : K) : Prop :=
  match lt with
  | Some u => ¬ le u k
  | None => True
  end.

#[global] Instance below_dec {K} (le : relation K) `{!RelDecision le} lt k :
  Decision (below le lt k).
Proof. destruct lt; simpl; apply _. Defined.

(** Modelled from the spec: [Iterate(index, {greaterOrEqual, lessThan, limit})]
    of section 6, the contract behind [this.db.iterator]: the keys between
    the bounds, ascending, at most [limit] of them. *)
Definition scan {K} (le : relation K) `{!RelDecision le}
    (keys : list K) (gte : K) (lt : option K) (limit : option nat) : list K :=
  let hits := filter (λ k, le gte k ∧ below le lt k) (merge_sort le keys) in
  match limit with
  | Some n => take n hits
  | None => hits
  end.

(** ** The collaborators of one call *)

Module Access.
Inductive t :=
| get (k : types.key)
| iterator (gte : types.key) (lt : option types.key) (limit : option nat)
| write (batch : list Op).
End Access.

(** Modelled from the spec: the remote node and the availability of the store
    during one call (sections 6 and 7). [rpc_block] is [rpcUtil.block],
    [rpc_header] is [rpcUtil.header], [rpc_getblockhash] is
    [this.rpc('getblockhash', ...)]; [db_fault] says which store request
    fails (ReadError, WriteError) and [db_delivered] how many entries a
    failing scan hands over before its error. *)
Record Env := mkEnv {
  rpc_block : string → Error + Block.t;
  rpc_header : string → Error + Buffer;
  rpc_getblockhash : Z → Error + string;
  db_fault : Access.t → option Error;
  db_delivered : nat }.

(** A store that serves every request of the call. *)
Definition reliable (env : Env) : Prop := ∀ a, db_fault env a = None.

(** [this.db.get(type, key, cb)]: [cb(err)] or [cb(null, row)], the row being
    [undefined] when the key is absent. *)
Definition db_get {V} (env : Env) (k : types.key) (row : option V) : Error + option V :=
  match db_fault env (Access.get k) with
  | Some err => inl err
  | None => inr row
  end.

Definition get_tip (env : Env) (db : Db.t) : Error + option Tip.t :=
  db_get env types.tip (Db.tip db).

Definition get_txIndex (env : Env) (db : Db.t) (txId : string) : Error + option Z :=
  db_get env (types.txIndex txId) (Db.txIndex db !! txId).

Definition get_txoIndex (env : Env) (db : Db.t) (txId : string) (vout : Z)
    : Error + option Z :=
  db_get env (types.txoIndex txId vout) (Db.txoIndex db !! (txId, vout)).

Definition get_spentIndex (env : Env) (db : Db.t) (txId : string) (vout : Z)
    : Error + option Spent.t :=
  db_get env (types.spentIndex txId vout) (Db.spentIndex db !! (txId, vout)).

(** [this.db.iterator(type, options, onEach, onEnd)]: the entries handed to
    [onEach], in order, and the error handed to [onEnd]. *)
Definition db_iterator {R} (env : Env) (gte : types.key) (lt : option types.key)
    (limit : option nat) (entries : list R) : list R * option Error :=
  match db_fault env (Access.iterator gte lt limit) with
  | Some err => (take (db_delivered env) entries, Some err)
  | None => (entries, None)
  end.

Definition sc_key (k : ScKey) : types.key :=
  let '(scId, height, txId, vout) := k in types.scIndex scId height txId vout.

Definition iterator_scIndex (env : Env) (db : Db.t)
    (gte : ScKey) (lt : option ScKey) (limit : option nat) : list ScKey * option Error :=
  db_iterator env (sc_key gte) (sc_key <$> lt) limit
    (scan sc_le (elements (Db.scIndex db)) gte lt limit).

(** The rows stored under a list of FeeIndex keys. *)
Definition fee_rows (m : gmap Z Fee.t) (keys : list Z) : list (Z * Fee.t) :=
  omap (λ height, pair height <$> m !! height) keys.

Definition iterator_feeIndex (env : Env) (db : Db.t) (gte : Z)
    : list (Z * Fee.t) * option Error :=
  db_iterator env (types.feeIndex gte) None None
    (fee_rows (Db.feeIndex db)
       (scan Z.le (elements (dom (Db.feeIndex db))) gte None None)).

(** [atomic.write(cb)]: all operations of the batch or none. *)
Definition atomic_write (env : Env) (db : Db.t) (batch : list Op) : Error + Db.t :=
  match db_fault env (Access.write batch) with
  | Some err => inl err
  | None => inr (Db.commit db batch)
  end.

(** ** Callbacks, notifications, JavaScript objects *)

(** How a call of the engine ends: [callback(err, result)], either argument
    possibly [undefined], or an exception nobody catches. *)
Inductive Completion (A : Type) :=
| callback (err : option Error) (result : option A)
| uncaught (exn : string).
Arguments callback {A} err result.
Arguments uncaught {A} exn.

(** [this.emitter.emit(name, ...)]. *)
Module Event.
Inductive t :=
| spent (txo : string) (txId : string)
| script (scId : string) (txId : string) (txBuffer : Buffer)
| transaction (txId : string) (txBuffer : Buffer) (blockId : string)
| block (blockId : string) (blockBuffer : Buffer) (height : Z).
End Event.

(** What a mutation leaves behind: the completion, the store and the
    notifications its timers emit. *)
Record Run := mkRun {
  completion : Completion unit;
  db_after : Db.t;
  emitted : list Event.t }.

(** The two things the loops of [connect] and [disconnect] do, in program
    order: queue an operation on the batch, or set a timer that emits. *)
Inductive Effect :=
| atomic (o : Op)
| setTimeout (e : Event.t).

Definition batch_of (effects : list Effect) : list Op :=
  omap (λ f, match f with atomic o => Some o | setTimeout _ => None end) effects.

Definition timers_of (effects : list Effect) : list Event.t :=
  omap (λ f, match f with atomic _ => None | setTimeout e => Some e end) effects.

(** A JavaScript object used as a dictionary whose keys are never array
    indices: [for ... in] enumerates it in order of first insertion, and an
    assignment to an existing key keeps the key's place. *)
Definition JsObject (V : Type) : Type := list (string * V).

Fixpoint obj_set {V} (o : JsObject V) (k : string) (v : V) : JsObject V :=
  match o with
  | [] => [(k, v)]
  | (k', v') :: o' =>
      if decide (k' = k) then (k, v) :: o' else (k', v') :: obj_set o' k v
  end.

Fixpoint obj_get {V} (o : JsObject V) (k : string) : option V :=
  match o with
  | [] => None
  | (k', v') :: o' => if decide (k' = k) then Some v' else obj_get o' k
  end.

(** A run of assignments [o[k] = v], in order. *)
Definition assign {V} (o : JsObject V) (kvs : list (string * V)) : JsObject V :=
  foldl (λ o kv, obj_set o kv.1 kv.2) o kvs.

(** [run-parallel] over an array of tasks: the results in task order, or the
    first error. The tasks here only read, so the schedule is modelled as
    completion in the order of issue; it decides nothing but which of several
    errors is the one surfaced. *)
Fixpoint parallel {A} (tasks : list (Error + A)) : Error + list A :=
  match tasks with
  | [] => inr []
  | inl err :: _ => inl err
  | inr a :: tasks' =>
      match parallel tasks' with
      | inl err => inl err
      | inr results => inr (a :: results)
      end
  end.

(** [run-parallel] over an object of tasks: the results under the same keys. *)
Definition parallel_obj {A} (tasks : JsObject (Error + A)) : Error + JsObject A :=
  match parallel tasks.*2 with
  | inl err => inl err
  | inr results => inr (zip tasks.*1 results)
  end.

(** ** The engine: [src/blockchain.js] *)

(** The template [`${txId}:${vout}`]. *)
Definition txoKey (txId : string) (vout : Z) : string :=
  txId +:+ ":" +:+ pretty vout.

(** *** [Blockchain.prototype.connect] *)

(** The body of [transactions.forEach] in [connect]. *)
Definition connect_tx (blockId : string) (height : Z) (tx : Tx.t) : list Effect :=
  let txId := Tx.txId tx in
  let txBuffer := Tx.txBuffer tx in
  mjoin (imap (λ vin input,
      if Input.coinbase input then [] else
      let prevTxId := Input.prevTxId input in
      let vout := Input.vout input in
      [ atomic (put (rows.spentIndex prevTxId vout (Spent.mk txId (Z.of_nat vin))));
        setTimeout (Event.spent (txoKey prevTxId vout) txId) ]) (Tx.ins tx))
  ++ mjoin ((λ out,
      let scId := Output.scId out in
      let value := Output.value out in
      let vout := Output.vout out in
      [ atomic (put (rows.scIndex scId height txId vout));
        atomic (put (rows.txoIndex txId vout value));
        setTimeout (Event.script scId txId txBuffer) ]) <$> Tx.outs tx)
  ++ [ setTimeout (Event.transaction txId txBuffer blockId);
       atomic (put (rows.txIndex txId height)) ].

(** The timer that fetches the header and emits ['block']; a failing fetch
    emits nothing. *)
Definition header_timer (env : Env) (blockId : string) (height : Z) : list Effect :=
  match rpc_header env blockId with
  | inl _ => []
  | inr blockBuffer => [ setTimeout (Event.block blockId blockBuffer height) ]
  end.

(** *** [box] *)

(** [x | 0] on an integer: reduction to a signed 32-bit value. *)
Definition ToInt32 (z : Z) : Z := (z + 2 ^ 31) `mod` 2 ^ 32 - 2 ^ 31.

(** [data[i]]: [undefined] outside the array. *)
Definition js_index {A} (data : list A) (i : Z) : option A :=
  if decide (0 ≤ i) then data !! Z.to_nat i else None.

(** [(data.length / d) | 0]: the quotient is not negative, so truncating it
    is rounding down. *)
Definition box (data : list Z) : Box.t :=
  if decide (length data = 0%nat) then Box.mk (Some 0) (Some 0) (Some 0) else
  let quarter := ToInt32 (Z.of_nat (length data) / 4) in
  let midpoint := ToInt32 (Z.of_nat (length data) / 2) in
  Box.mk (js_index data quarter) (js_index data midpoint)
         (js_index data (midpoint + quarter)).

(** *** [Blockchain.prototype.connect2ndOrder] *)

(** [acc += x] over a list, from 0. *)
Definition sum_values (values : list Z) : Z := foldl Z.add 0 values.

(** One entry of [subTasks]: the value of the output an input spends. *)
Definition subTask (env : Env) (db : Db.t) (input : Input.t) : Error + Z :=
  let prevTxId := Input.prevTxId input in
  let vout := Input.vout input in
  match get_txoIndex env db prevTxId vout with
  | inl err => inl err
  | inr None => inl ("Missing " +:+ txoKey prevTxId vout)
  | inr (Some value) => inr value
  end.

(** One entry of [tasks]: the fee rate a transaction pushes on [feeRates].
    [Math.floor(fee / vsize)] is the quotient rounded down, which is [Z]'s
    division for the positive [vsize] of a serialised transaction. *)
Definition txTask (env : Env) (db : Db.t) (tx : Tx.t) : Error + Z :=
  let ins := Tx.ins tx in
  let outs := Tx.outs tx in
  let vsize := Tx.vsize tx in
  let subTasks := subTask env db <$> filter (λ input, Input.coinbase input = false) ins in
  let coinbase := bool_decide (Exists (λ input, Input.coinbase input = true) ins) in
  let outAccum := sum_values (Output.value <$> outs) in
  if coinbase then inr 0 else
  match parallel subTasks with
  | inl err => inl err
  | inr values =>
      let inAccum := sum_values values in
      let fee := inAccum - outAccum in
      let feeRate := fee / vsize in
      inr feeRate
  end.

(** [feeRates.sort((a, b) => a - b)]: ascending numeric order. *)
Definition sort (feeRates : list Z) : list Z := merge_sort Z.le feeRates.

(** The value written under [types.feeIndex]: [{ fees: box(feeRates), size }]
    for the sorted sample. *)
Definition feeSummary (feeRates : list Z) : Box.t := box (sort feeRates).

Definition connect2ndOrder (env : Env) (db : Db.t) (blockId : string) (blk : Block.t)
    : Completion unit * Db.t :=
  let height := Block.height blk in
  let transactions := Block.transactions blk in
  let tasks := txTask env db <$> transactions in
  match parallel tasks with
  | inl err => (callback (Some err) None, db)
  | inr feeRates =>
      let batch :=
        [ put (rows.feeIndex height (Fee.mk (feeSummary feeRates) (Block.size blk))) ] in
      match atomic_write env db batch with
      | inl err => (callback (Some err) None, db)
      | inr db' => (callback None None, db')
      end
  end.

(** Everything [connect] does between the fetch of the block and
    [atomic.write]. *)
Definition connect_effects (env : Env) (blockId : string) (blk : Block.t) : list Effect :=
  let height := Block.height blk in
  let transactions := Block.transactions blk in
  mjoin (connect_tx blockId height <$> transactions)
  ++ header_timer env blockId height
  ++ [ atomic (put (rows.tip (Tip.mk blockId height))) ].

(** The [height] parameter is shadowed by the height of the fetched block,
    as in the source: the body never reads it. *)
Definition connect (env : Env) (db : Db.t) (blockId : string) (height : Z) : Run :=
  match rpc_block env blockId with
  | inl err => mkRun (callback (Some err) None) db []
  | inr blk =>
      let effects := connect_effects env blockId blk in
      match atomic_write env db (batch_of effects) with
      | inl err => mkRun (callback (Some err) None) db (timers_of effects)
      | inr db' =>
          let '(done, db'') := connect2ndOrder env db' blockId blk in
          mkRun done db'' (timers_of effects)
      end
  end.

(** *** [Blockchain.prototype.disconnect] *)

(** The body of [transactions.forEach] in [disconnect]; the output loop takes
    [vout] from the position of the output. *)
Definition disconnect_tx (height : Z) (tx : Tx.t) : list Effect :=
  let txId := Tx.txId tx in
  mjoin ((λ input,
      if Input.coinbase input then [] else
      let prevTxId := Input.prevTxId input in
      let vout := Input.vout input in
      [ atomic (del (types.spentIndex prevTxId vout)) ]) <$> Tx.ins tx)
  ++ mjoin (imap (λ vout out,
      let scId := Output.scId out in
      [ atomic (del (types.scIndex scId height txId (Z.of_nat vout)));
        atomic (del (types.txoIndex txId (Z.of_nat vout))) ]) (Tx.outs tx))
  ++ [ atomic (del (types.txIndex txId)) ].

(** Everything [disconnect] does between the fetch of the block and
    [atomic.write]; the tip row takes [height] from the fetched block. *)
Definition disconnect_effects (blk : Block.t) : list Effect :=
  let height := Block.height blk in
  let transactions := Block.transactions blk in
  mjoin (disconnect_tx height <$> transactions)
  ++ [ atomic (put (rows.tip (Tip.mk (Block.previousblockhash blk) height))) ].

Definition disconnect (env : Env) (db : Db.t) (blockId : string) : Run :=
  match rpc_block env blockId with
  | inl err => mkRun (callback (Some err) None) db []
  | inr blk =>
      let effects := disconnect_effects blk in
      match atomic_write env db (batch_of effects) with
      | inl err => mkRun (callback (Some err) None) db (timers_of effects)
      | inr db' => mkRun (callback None None) db' (timers_of effects)
      end
  end.

(** *** Queries *)

(** [callback(err, row)] as [this.db.get] and [this.rpc] call it. *)
Definition of_result {A} (r : Error + option A) : Completion A :=
  match r with
  | inl err => callback (Some err) None
  | inr row => callback None row
  end.

Definition blockIdByTransactionId (env : Env) (db : Db.t) (txId : string)
    : Completion string :=
  match get_txIndex env db txId with
  | inl err => callback (Some err) None
  | inr None => callback None None
  | inr (Some height) =>
      match rpc_getblockhash env height with
      | inl err => callback (Some err) None
      | inr blockId => callback None (Some blockId)
      end
  end.

Module FeeEntry.
Record t := mk { height : Z; fees : Box.t; size : Z }.
End FeeEntry.

(** [result.height] is read without a test: on an absent tip row the read
    throws a TypeError inside the callback of [this.db.get]. *)
Definition fees (env : Env) (db : Db.t) (n : Z) : Completion (list FeeEntry.t) :=
  match get_tip env db with
  | inl err => callback (Some err) None
  | inr None => uncaught "TypeError: Cannot read property 'height' of undefined"
  | inr (Some result) =>
      let maxHeight := Tip.height result in
      let '(visited, err) := iterator_feeIndex env db (maxHeight - n) in
      let fresult :=
        (λ '(height, row), FeeEntry.mk height (Fee.fees row) (Fee.size row)) <$> visited in
      callback err (Some fresult)
  end.

Definition ZERO64 : string :=
  "0000000000000000000000000000000000000000000000000000000000000000".

(** [n] zero digits; [ZERO64] is [zeros 64]. *)
Fixpoint zeros (n : nat) : string :=
  match n with
  | O => ""
  | S n => String "0"%char (zeros n)
  end.

Definition seenScriptId (env : Env) (db : Db.t) (scId : string) : Completion bool :=
  let '(visited, err) :=
    iterator_scIndex env db (scId, 0, ZERO64, 0) (Some (scId, 0xffffffff, ZERO64, 0))
      (Some 1%nat) in
  let result := bool_decide (visited ≠ []) in
  callback err (Some result).

(** [spentFromTxo(txo, callback)] hands [txo] to the store as the key; the
    key type of [types.spentIndex] reads its [txId] and [vout]. *)
Definition spentFromTxo (env : Env) (db : Db.t) (txo : Txo.t) : Error + option Spent.t :=
  get_spentIndex env db (Txo.txId txo) (Txo.vout txo).

Definition tip (env : Env) (db : Db.t) : Completion string :=
  match get_tip env db with
  | inl err => callback (Some err) None
  | inr row => callback None (Tip.blockId <$> row)
  end.

(** In the callback of the scan [txId], [vout] and [height] come from the
    key; [scId] is the argument of the query. *)
Definition txosByScriptId (env : Env) (db : Db.t) (scId : string) (height : Z)
    : Completion (JsObject Txo.t) :=
  let '(visited, err) :=
    iterator_scIndex env db (scId, height, ZERO64, 0)
      (Some (scId, 0xffffffff, ZERO64, 0)) None in
  let resultMap :=
    foldl (λ resultMap '(_, height, txId, vout),
             obj_set resultMap (txoKey txId vout) (Txo.mk txId vout scId height))
          [] visited in
  callback err (Some resultMap).

(** [txIds] is used as a set of transaction ids: only its keys matter, the
    order of enumeration plays no part, so it is a finite map to [true]. *)
Definition transactionIdsByScriptId (env : Env) (db : Db.t) (scId : string) (height : Z)
    : Completion (gmap string bool) :=
  match txosByScriptId env db scId height with
  | uncaught exn => uncaught exn
  | callback (Some err) _ => callback (Some err) None
  | callback None result =>
      let txosMap := default [] result in
      let taskMap := (λ '(txoKey, txo), (txoKey, spentFromTxo env db txo)) <$> txosMap in
      match parallel_obj taskMap with
      | inl err => callback (Some err) None
      | inr spentMap =>
          let txIds :=
            foldl (λ (txIds : gmap string bool) '(x, row),
                     match row with
                     | None => txIds
                     | Some spent => <[Spent.txId spent := true]> txIds
                     end) ∅ spentMap in
          let txIds :=
            foldl (λ (txIds : gmap string bool) '(x, txo),
                     <[Txo.txId txo := true]> txIds) txIds txosMap in
          callback None (Some txIds)
      end
  end.

Definition txoByTxo (env : Env) (db : Db.t) (txId : string) (vout : Z) : Completion Z :=
  of_result (get_txoIndex env db txId vout).

(** ** Vocabulary of the statements *)

(** The index an operation of a batch addresses. *)
Module Index.
Inductive t := tip | txIndex | txoIndex | spentIndex | scIndex | feeIndex.
End Index.

Definition key_index (k : types.key) : Index.t :=
  match k with
  | types.tip => Index.tip
  | types.txIndex _ => Index.txIndex
  | types.txoIndex _ _ => Index.txoIndex
  | types.spentIndex _ _ => Index.spentIndex
  | types.scIndex _ _ _ _ => Index.scIndex
  | types.feeIndex _ => Index.feeIndex
  end.

Definition row_key (r : rows.row) : types.key :=
  match r with
  | rows.tip _ => types.tip
  | rows.txIndex txId _ => types.txIndex txId
  | rows.txoIndex txId vout _ => types.txoIndex txId vout
  | rows.spentIndex txId vout _ => types.spentIndex txId vout
  | rows.scIndex scId height txId vout => types.scIndex scId height txId vout
  | rows.feeIndex height _ => types.feeIndex height
  end.

Definition op_key (o : Op) : types.key :=
  match o with
  | put r => row_key r
  | del k => k
  end.

(** The height an operation carries, in its key or in its row. *)
Definition op_height (o : Op) : option Z :=
  match o with
  | put (rows.tip v) => Some (Tip.height v)
  | put (rows.txIndex _ height) => Some height
  | put (rows.scIndex _ height _ _) => Some height
  | put (rows.feeIndex height _) => Some height
  | del (types.scIndex _ height _ _) => Some height
  | del (types.feeIndex height) => Some height
  | _ => None
  end.

(** The store has an entry under the key. *)
Definition has_entry (db : Db.t) (k : types.key) : Prop :=
  match k with
  | types.tip => is_Some (Db.tip db)
  | types.txIndex txId => is_Some (Db.txIndex db !! txId)
  | types.txoIndex txId vout => is_Some (Db.txoIndex db !! (txId, vout))
  | types.spentIndex txId vout => is_Some (Db.spentIndex db !! (txId, vout))
  | types.scIndex scId height txId vout => (scId, height, txId, vout) ∈ Db.scIndex db
  | types.feeIndex height => is_Some (Db.feeIndex db !! height)
  end.

(** The outputs of every transaction carry their position as [vout], as
    the node numbers them. *)
Definition outputs_numbered (blk : Block.t) : Prop :=
  ∀ tx, tx ∈ Block.transactions blk →
    ∀ i out, Tx.outs tx !! i = Some out → Output.vout out = Z.of_nat i.

(** The deletions [disconnect] queues for a block. *)
Definition removes_entry_of (blk : Block.t) (o : Op) : Prop :=
  ∃ tx, tx ∈ Block.transactions blk ∧
    ((∃ input, input ∈ Tx.ins tx ∧ Input.coinbase input = false
        ∧ o = del (types.spentIndex (Input.prevTxId input) (Input.vout input)))
     ∨ (∃ vout out, Tx.outs tx !! vout = Some out
        ∧ (o = del (types.scIndex (Output.scId out) (Block.height blk) (Tx.txId tx)
                      (Z.of_nat vout))
           ∨ o = del (types.txoIndex (Tx.txId tx) (Z.of_nat vout))))
     ∨ o = del (types.txIndex (Tx.txId tx))).

(** C4 as the specification words it: any input that is not a coinbase
    input and whose previous output TxoIndex lacks at the time of the lookup
    makes the call fail and leaves FeeIndex as it was. *)
Definition aborts_on_any_missing_output
    (env : Env) (db : Db.t) (blockId : string) (height : Z) : Prop :=
  ∀ blk tx input,
    rpc_block env blockId = inr blk →
    tx ∈ Block.transactions blk →
    input ∈ Tx.ins tx →
    Input.coinbase input = false →
    Db.txoIndex (Db.commit db (batch_of (connect_effects env blockId blk)))
      !! (Input.prevTxId input, Input.vout input) = None →
    ∃ err,
      completion (connect env db blockId height) = callback (Some err) None
      ∧ Db.feeIndex (db_after (connect env db blockId height)) = Db.feeIndex db.

(** *** Typed ScriptIndex keys and the result of [txosByScriptId] *)

Definition hex_digit (c : Ascii.ascii) : bool :=
  let n := Ascii.N_of_ascii c in
  ((48 <=? n) && (n <=? 57) || (97 <=? n) && (n <=? 102))%N.

(** Modelled from the spec: the key type of [types.scIndex] is not under
    [src/]. Identifiers are 64 lower-case hex digits, as [ZERO64] is; heights
    and output indices are unsigned 32-bit numbers, as the bound [0xffffffff]
    of the scans is. *)
Definition Hex64 (s : string) : bool :=
  (String.length s =? 64)%nat
  && forallb hex_digit (Stdlib.Strings.String.list_ascii_of_string s).

Definition UInt32 (z : Z) : Prop := 0 ≤ z ≤ 0xffffffff.

Definition sc_key_typed (k : ScKey) : Prop :=
  let '(scId, height, txId, vout) := k in
  Hex64 scId ∧ UInt32 height ∧ Hex64 txId ∧ UInt32 vout.

Definition scIndex_typed (db : Db.t) : Prop :=
  ∀ k, k ∈ Db.scIndex db → sc_key_typed k.

(** The assignment the callback of the scan in [txosByScriptId] makes for
    one key. *)
Definition sc_entry (scId : string) (k : ScKey) : string * Txo.t :=
  let '(_, height, txId, vout) := k in
  (txoKey txId vout, Txo.mk txId vout scId height).

(** The ScriptIndex key an entry of the result stands for. *)
Definition txo_key (txo : Txo.t) : ScKey :=
  (Txo.scId txo, Txo.height txo, Txo.txId txo, Txo.vout txo).

(** C5 as the specification words it: the result holds the outputs of the
    script created at [height] or above and nothing else, each under its
    ["txId:vout"] key, enumerated in ascending (height, txId, vout) order. *)
Definition returns_outputs_from
    (db : Db.t) (scId : string) (height : Z) (resultMap : JsObject Txo.t) : Prop :=
  (∀ key txo, (key, txo) ∈ resultMap →
     key = txoKey (Txo.txId txo) (Txo.vout txo)
     ∧ Txo.scId txo = scId
     ∧ txo_key txo ∈ Db.scIndex db
     ∧ height ≤ Txo.height txo)
  ∧ (∀ h txId vout,
       (scId, h, txId, vout) ∈ Db.scIndex db → height ≤ h →
       ∃ txo, (txoKey txId vout, txo) ∈ resultMap
              ∧ Txo.txId txo = txId ∧ Txo.vout txo = vout)
  ∧ StronglySorted sc_le (txo_key <$> resultMap.*2).

(** No output of the script is indexed at two heights of the scanned range. *)
Definition one_height_per_output (db : Db.t) (scId : string) (height : Z) : Prop :=
  ∀ h h' txId vout,
    (scId, h, txId, vout) ∈ Db.scIndex db → (scId, h', txId, vout) ∈ Db.scIndex db →
    height ≤ h < 0xffffffff → height ≤ h' < 0xffffffff → h = h'.

(** *** Sequences of calls *)

Module Call.
Inductive t :=
| connect (blockId : string) (height : Z)
| disconnect (blockId : string).
End Call.

(** The store, the blocks that are connected (those whose [connect]
    succeeded and that no successful [disconnect] has removed since) and the
    heights of all blocks whose [connect] has succeeded so far. *)
Record World := mkWorld {
  store : Db.t;
  connected : list (string * Block.t);
  derived : list Z }.

(** One call, made while the collaborators behave as [env] says. *)
Definition step (w : World) (c : Env * Call.t) : World :=
  let '(env, call) := c in
  match call with
  | Call.connect blockId height =>
      let r := connect env (store w) blockId height in
      match completion r, rpc_block env blockId with
      | callback None _, inr blk =>
          mkWorld (db_after r) ((blockId, blk) :: connected w)
                  (Block.height blk :: derived w)
      | _, _ => mkWorld (db_after r) (connected w) (derived w)
      end
  | Call.disconnect blockId =>
      let r := disconnect env (store w) blockId in
      match completion r with
      | callback None _ =>
          mkWorld (db_after r) (filter (λ b, b.1 ≠ blockId) (connected w)) (derived w)
      | _ => mkWorld (db_after r) (connected w) (derived w)
      end
  end.

(** The state a sequence of calls reaches from the empty store. *)
Definition run (calls : list (Env * Call.t)) : World :=
  foldl step (mkWorld Db.empty [] []) calls.

Definition connected_heights (w : World) : list Z :=
  (λ b, Block.height b.2) <$> connected w.

(** C7 as the specification words it: the heights with a FeeIndex entry are
    the connected heights. *)
Definition fee_entry_per_connected_height (w : World) : Prop :=
  ∀ height, is_Some (Db.feeIndex (store w) !! height) ↔ height ∈ connected_heights w.

(** ** Sample data *)

Module Sample.

(** A node that serves the given blocks and a store that never fails. *)
Definition node (blocks : list (string * Block.t)) : Env :=
  mkEnv (λ blockId, match obj_get blocks blockId with
                    | Some blk => inr blk
                    | None => inl "Block not found"
                    end)
        (λ blockId, inr [])
        (λ height, inl "Block height out of range")
        (λ _, None)
        0.

Definition idA : string :=
  "aaaaaaaaaaaaaaaaaaaaaaaaaaaaaaaaaaaaaaaaaaaaaaaaaaaaaaaaaaaaaaaa".
Definition idB : string :=
  "bbbbbbbbbbbbbbbbbbbbbbbbbbbbbbbbbbbbbbbbbbbbbbbbbbbbbbbbbbbbbbbb".
Definition idC : string :=
  "cccccccccccccccccccccccccccccccccccccccccccccccccccccccccccccccc".
Definition sc1 : string :=
  "1111111111111111111111111111111111111111111111111111111111111111".
Definition sc2 : string :=
  "2222222222222222222222222222222222222222222222222222222222222222".
Definition hash0 : string :=
  "00000000000000000000000000000000000000000000000000000000000000f0".
Definition hash1 : string :=
  "00000000000000000000000000000000000000000000000000000000000000f1".
Definition hash2 : string :=
  "00000000000000000000000000000000000000000000000000000000000000f2".

Definition coinbaseInput : Input.t := Input.mk true "" 0.

(** Height 1: a coinbase transaction paying 50 to [sc1]. *)
Definition txA : Tx.t :=
  Tx.mk idA [] [coinbaseInput] [Output.mk sc1 50 0] 100.
Definition block1 : Block.t := Block.mk 1 [txA] 285 hash0.

(** Height 2: a coinbase, and a transaction spending [idA:0] into two
    outputs with a fee of 10 over a virtual size of 5. *)
Definition txB : Tx.t :=
  Tx.mk idB [] [coinbaseInput] [Output.mk sc2 60 0] 100.
Definition txC : Tx.t :=
  Tx.mk idC [] [Input.mk false idA 0] [Output.mk sc1 30 0; Output.mk sc2 10 1] 5.
Definition block2 : Block.t := Block.mk 2 [txB; txC] 400 hash1.

(** Height 3: the coinbase transaction of height 1 once more, as the
    duplicate coinbases of the main chain are. *)
Definition hash5 : string :=
  "00000000000000000000000000000000000000000000000000000000000000f5".
Definition block5 : Block.t := Block.mk 3 [txA] 285 hash2.

(** A block at the greatest height an unsigned 32-bit number holds. *)
Definition hashMax : string :=
  "00000000000000000000000000000000000000000000000000000000000000ff".
Definition blockMax : Block.t := Block.mk 0xffffffff [txA] 285 hash0.

Definition chain : Env :=
  node [(hash1, block1); (hash2, block2); (hash5, block5); (hashMax, blockMax)].

Definition idM : string :=
  "dddddddddddddddddddddddddddddddddddddddddddddddddddddddddddddddd".
Definition idZ : string :=
  "eeeeeeeeeeeeeeeeeeeeeeeeeeeeeeeeeeeeeeeeeeeeeeeeeeeeeeeeeeeeeeee".
Definition hash3 : string :=
  "00000000000000000000000000000000000000000000000000000000000000f3".
Definition hash4 : string :=
  "00000000000000000000000000000000000000000000000000000000000000f4".

(** A transaction with a coinbase input next to an input that spends
    [idZ:7], an output no block has created. *)
Definition orphanInput : Input.t := Input.mk false idZ 7.
Definition txM : Tx.t :=
  Tx.mk idM [] [coinbaseInput; orphanInput] [Output.mk sc1 5 0] 10.
Definition block3 : Block.t := Block.mk 3 [txM] 120 hash2.

(** The same spend without the coinbase input. *)
Definition txZ : Tx.t := Tx.mk idM [] [orphanInput] [Output.mk sc1 5 0] 10.
Definition block4 : Block.t := Block.mk 3 [txZ] 120 hash2.

Definition orphans : Env := node [(hash3, block3); (hash4, block4)].

(** The chain behind a store whose scans, or whose reads of SpentIndex,
    fail. *)
Definition scans_fail : Env :=
  mkEnv (rpc_block chain) (rpc_header chain) (rpc_getblockhash chain)
        (λ a, match a with
              | Access.iterator _ _ _ => Some "ReadError"
              | _ => None
              end)
        0.
Definition spent_reads_fail : Env :=
  mkEnv (rpc_block chain) (rpc_header chain) (rpc_getblockhash chain)
        (λ a, match a with
              | Access.get (types.spentIndex _ _) => Some "ReadError"
              | _ => None
              end)
        0.

(** The outputs of [sc1] once both blocks are connected. *)
Definition txos_sc1 : JsObject Txo.t :=
  [ (txoKey idA 0, Txo.mk idA 0 sc1 1); (txoKey idC 0, Txo.mk idC 0 sc1 2) ].

Definition db1 : Db.t := db_after (connect chain Db.empty hash1 1).
Definition db2 : Db.t := db_after (connect chain db1 hash2 2).
Definition db3 : Db.t := db_after (connect chain db2 hash5 3).
Definition dbMax : Db.t := db_after (connect chain Db.empty hashMax 0xffffffff).

End Sample.

(** ** Vocabulary of the further properties *)

(** The row stored under a key, if any. *)
Definition row_at (db : Db.t) (k : types.key) : option rows.row :=
  match k with
  | types.tip => rows.tip <$> Db.tip db
  | types.txIndex txId => rows.txIndex txId <$> Db.txIndex db !! txId
  | types.txoIndex txId vout => rows.txoIndex txId vout <$> Db.txoIndex db !! (txId, vout)
  | types.spentIndex txId vout =>
      rows.spentIndex txId vout <$> Db.spentIndex db !! (txId, vout)
  | types.scIndex scId height txId vout =>
      if decide ((scId, height, txId, vout) ∈ Db.scIndex db)
      then Some (rows.scIndex scId height txId vout) else None
  | types.feeIndex height => rows.feeIndex height <$> Db.feeIndex db !! height
  end.

(** What an operation leaves under its key. *)
Definition op_result (o : Op) : option rows.row :=
  match o with
  | put r => Some r
  | del _ => None
  end.

(** What a batch leaves under one key, given what was there: the last
    operation on the key decides. *)
Definition effect_on (batch : list Op) (k : types.key) (before : option rows.row)
    : option rows.row :=
  foldl (λ cur o, if decide (op_key o = k) then op_result o else cur) before batch.

(** The transaction ids of the ['transaction'] notifications, in order. *)
Definition transactions_notified (events : list Event.t) : list string :=
  omap (λ e, match e with Event.transaction txId _ _ => Some txId | _ => None end) events.

Definition is_block_event (e : Event.t) : bool :=
  match e with Event.block _ _ _ => true | _ => false end.

#[global] Instance Index_eq_dec : EqDecision Index.t.
Proof. solve_decision. Defined.

(** ** Further sample data *)

Module Reorg.

Definition hash2' : string :=
  "00000000000000000000000000000000000000000000000000000000000000e2".

(** The node of [Sample.chain] once another block has taken height 2. *)
Definition node : Env :=
  mkEnv (rpc_block Sample.chain) (rpc_header Sample.chain)
        (λ height, if decide (height = 2) then inr hash2'
                   else inl "Block height out of range")
        (λ _, None)
        0.

(** The chain behind a store that refuses every write. *)
Definition writes_fail : Env :=
  mkEnv (rpc_block Sample.chain) (rpc_header Sample.chain) (rpc_getblockhash Sample.chain)
        (λ a, match a with
              | Access.write _ => Some "WriteError"
              | _ => None
              end)
        0.

(** The chain behind a node that serves no header. *)
Definition headers_fail : Env :=
  mkEnv (rpc_block Sample.chain) (λ _, inl "Block not found")
        (rpc_getblockhash Sample.chain) (db_fault Sample.chain) 0.

End Reorg.

Module InBlock.

Definition idD : string :=
  "9999999999999999999999999999999999999999999999999999999999999999".
Definition idE : string :=
  "8888888888888888888888888888888888888888888888888888888888888888".
Definition idF : string :=
  "7777777777777777777777777777777777777777777777777777777777777777".
Definition hash3 : string :=
  "00000000000000000000000000000000000000000000000000000000000000a3".

(** Height 3: a coinbase; a transaction that spends [idF:0], an output of
    the transaction after it in the same block; and that transaction, which
    spends the output of the coinbase. No input needs a row that was in the
    store before the block. *)
Definition txD : Tx.t :=
  Tx.mk idD [] [Sample.coinbaseInput] [Output.mk Sample.sc2 50 0] 100.
Definition txE : Tx.t :=
  Tx.mk idE [] [Input.mk false idF 0] [Output.mk Sample.sc1 20 0] 4.
Definition txF : Tx.t :=
  Tx.mk idF [] [Input.mk false idD 0] [Output.mk Sample.sc2 28 0] 2.
Definition block3 : Block.t := Block.mk 3 [txD; txE; txF] 500 Sample.hash2.

Definition chain : Env := Sample.node [(hash3, block3)].

End InBlock.

Module FirstPhase.

(** The store when the first batch of block 2 is written and the second
    phase has not run: FeeIndex has no row at height 2 yet. *)
Definition db2 : Db.t :=
  Db.commit Sample.db1 (batch_of (connect_effects Sample.chain Sample.hash2 Sample.block2)).

End FirstPhase.

Module Quartiles.

Definition idQ : string :=
  "5555555555555555555555555555555555555555555555555555555555555555".
Definition hashQ : string :=
  "00000000000000000000000000000000000000000000000000000000000000a9".

(** A store in which the outputs [idQ:1] to [idQ:8] hold the values 1 to 8. *)
Definition db : Db.t :=
  Db.commit Db.empty ((λ k, put (rows.txoIndex idQ k k)) <$> [1; 2; 3; 4; 5; 6; 7; 8]).

(** A transaction of virtual size 1 that spends [idQ:k] and pays nothing
    out, so that its fee rate is [k]; the second phase does not read the id
    of a transaction. *)
Definition spend (k : Z) : Tx.t := Tx.mk idQ [] [Input.mk false idQ k] [] 1.

(** Height 9: eight such transactions, not in the order of their rates. *)
Definition block : Block.t :=
  Block.mk 9 (spend <$> [5; 1; 8; 3; 2; 7; 4; 6]) 800 Sample.hash2.

(** Height 9 again: a block without transactions. *)
Definition hashE : string :=
  "00000000000000000000000000000000000000000000000000000000000000ae".
Definition empty_block : Block.t := Block.mk 9 [] 80 Sample.hash2.

Definition node : Env := Sample.node [(hashQ, block); (hashE, empty_block)].

End Quartiles.

(** * Properties *)

(** ** The engine on the sample chain *)

Example connect_block1 :
  let r := connect Sample.chain Db.empty Sample.hash1 1 in
  (completion r, Db.tip (db_after r), emitted r)
  = (callback None None, Some (Tip.mk Sample.hash1 1),
     [ Event.script Sample.sc1 Sample.idA [];
       Event.transaction Sample.idA [] Sample.hash1;
       Event.block Sample.hash1 [] 1 ]).
Proof. by vm_compute. Qed.

Example db2_fee_rows :
  map_to_list (Db.feeIndex Sample.db2)
  ≡ₚ [ (1, Fee.mk (Box.mk (Some 0) (Some 0) (Some 0)) 285);
       (2, Fee.mk (Box.mk (Some 0) (Some 2) (Some 2)) 400) ].
Proof. by vm_compute; apply Permutation_swap. Qed.

Example txos_of_sc1 :
  txosByScriptId Sample.chain Sample.db2 Sample.sc1 0
  = callback None (Some Sample.txos_sc1).
Proof. by vm_compute. Qed.

Example txos_of_sc1_from_height_2 :
  txosByScriptId Sample.chain Sample.db2 Sample.sc1 2
  = callback None (Some [ (txoKey Sample.idC 0, Txo.mk Sample.idC 0 Sample.sc1 2) ]).
Proof. by vm_compute. Qed.

Example spender_of_idA_0 :
  spentFromTxo Sample.chain Sample.db2 (Txo.mk Sample.idA 0 Sample.sc1 1)
  = inr (Some (Spent.mk Sample.idC 0)).
Proof. by vm_compute. Qed.

Example seen_scripts :
  seenScriptId Sample.chain Sample.db1 Sample.sc1 = callback None (Some true)
  ∧ seenScriptId Sample.chain Sample.db1 Sample.sc2 = callback None (Some false).
Proof. split; by vm_compute. Qed.

Example tip_of_db2 : tip Sample.chain Sample.db2 = callback None (Some Sample.hash2).
Proof. by vm_compute. Qed.

(** ** The collaborators: parallel tasks, scans, the store *)

Lemma parallel_inr {A} (tasks : list (Error + A)) (results : list A) :
  parallel tasks = inr results ↔ tasks = inr <$> results.
Proof.
  revert results. induction tasks as [|[err|a] tasks IH]; intros results; simpl.
  - split; [intros [= <-]; done|]. by destruct results.
  - split; [done|]. by destruct results.
  - destruct (parallel tasks) as [err|rs] eqn:Hp.
    + split; [done|]. destruct results as [|r results]; [done|].
      intros [= -> Htasks]. apply (IH results) in Htasks. done.
    + split.
      * intros [= <-]. simpl. f_equal. by apply IH.
      * destruct results as [|r results]; [done|].
        intros [= -> Htasks]. apply (IH results) in Htasks. by simplify_eq.
Qed.

Lemma parallel_fmap_inr {A B} (f : A → Error + B) (l : list A) (results : list B) :
  parallel (f <$> l) = inr results ↔ Forall2 (λ x r, f x = inr r) l results.
Proof.
  rewrite parallel_inr. revert results.
  induction l as [|x l IH]; intros [|r results]; simpl; split; try done.
  - inversion 1.
  - inversion 1.
  - intros [= Hx Hl]. constructor; [done|]. by apply IH.
  - inversion 1; subst. f_equal; [done|]. by apply IH.
Qed.

Lemma parallel_inl {A} (tasks : list (Error + A)) err :
  parallel tasks = inl err → inl err ∈ tasks.
Proof.
  induction tasks as [|[e|a] tasks IH]; simpl; [done|..].
  - intros [= ->]. left.
  - destruct (parallel tasks); [|done]. intros [= ->]. right. by apply IH.
Qed.

Lemma parallel_fails {A} (tasks : list (Error + A)) e :
  inl e ∈ tasks → ∃ err, parallel tasks = inl err.
Proof.
  induction tasks as [|[e'|a] tasks IH]; simpl.
  - by intros ?%elem_of_nil.
  - eauto.
  - intros [?|Hin]%elem_of_cons; [done|].
    destruct (IH Hin) as [err ->]. eauto.
Qed.

Lemma parallel_obj_inr {A} (tasks : JsObject (Error + A)) (results : JsObject A) :
  parallel_obj tasks = inr results →
  results.*1 = tasks.*1 ∧ tasks.*2 = inr <$> results.*2.
Proof.
  unfold parallel_obj. destruct (parallel tasks.*2) as [err|rs] eqn:Hp; [done|].
  intros [= <-]. apply parallel_inr in Hp.
  assert (length tasks.*1 = length rs) as Hlen.
  { rewrite length_fmap, <- (length_fmap snd), Hp. by rewrite length_fmap. }
  rewrite fst_zip, snd_zip by lia. done.
Qed.

Lemma parallel_obj_inl {A} (tasks : JsObject (Error + A)) err :
  parallel_obj tasks = inl err → ∃ key, (key, inl err) ∈ tasks.
Proof.
  unfold parallel_obj. destruct (parallel tasks.*2) as [e|rs] eqn:Hp; [|done].
  intros [= ->]. apply parallel_inl, list_elem_of_fmap in Hp as ([key task] & Heq & Hin).
  simpl in Heq. subst task. eauto.
Qed.

Lemma parallel_obj_fails {A} (tasks : JsObject (Error + A)) key e :
  (key, inl e) ∈ tasks → ∃ err, parallel_obj tasks = inl err.
Proof.
  intros Hin. unfold parallel_obj.
  destruct (parallel_fails tasks.*2 e) as [err ->]; [|by eauto].
  apply list_elem_of_fmap. by exists (key, inl e).
Qed.

Lemma db_get_reliable {V} env k (row : option V) :
  reliable env → db_get env k row = inr row.
Proof. intros Hrel. unfold db_get. by rewrite Hrel. Qed.

Lemma db_iterator_reliable {R} env gte lt limit (entries : list R) :
  reliable env → db_iterator env gte lt limit entries = (entries, None).
Proof. intros Hrel. unfold db_iterator. by rewrite Hrel. Qed.

Lemma atomic_write_reliable env db batch :
  reliable env → atomic_write env db batch = inr (Db.commit db batch).
Proof. intros Hrel. unfold atomic_write. by rewrite Hrel. Qed.

Lemma atomic_write_inr env db batch db' :
  atomic_write env db batch = inr db' → db' = Db.commit db batch.
Proof. unfold atomic_write. destruct (db_fault env _); [done|]. by intros [= <-]. Qed.

Lemma sample_node_reliable blocks : reliable (Sample.node blocks).
Proof. by intros a. Qed.

Section scan.
Context {K : Type} (le : relation K) `{!RelDecision le}.

Lemma StronglySorted_sublist (l1 l2 : list K) :
  l1 `sublist_of` l2 → StronglySorted le l2 → StronglySorted le l1.
Proof.
  induction 1 as [|x l1 l2 Hsub IH|x l1 l2 Hsub IH]; intros Hs.
  - constructor.
  - apply StronglySorted_cons in Hs as [Hx Hs]. constructor; [by apply IH|].
    apply Forall_forall. intros y Hy. rewrite Forall_forall in Hx.
    apply Hx. by eapply sublist_subseteq.
  - apply StronglySorted_cons in Hs as [_ Hs]. by apply IH.
Qed.

Lemma scan_sublist keys gte lt limit :
  scan le keys gte lt limit `sublist_of` merge_sort le keys.
Proof.
  unfold scan. destruct limit as [n|].
  - etrans; [apply sublist_take|apply sublist_filter].
  - apply sublist_filter.
Qed.

Lemma scan_StronglySorted `{!Transitive le, !Total le} keys gte lt limit :
  StronglySorted le (scan le keys gte lt limit).
Proof.
  eapply StronglySorted_sublist; [apply scan_sublist|].
  by apply StronglySorted_merge_sort.
Qed.

Lemma scan_NoDup keys gte lt limit :
  NoDup keys → NoDup (scan le keys gte lt limit).
Proof.
  intros Hnd. eapply sublist_NoDup; [|apply scan_sublist].
  by rewrite merge_sort_Permutation.
Qed.

Lemma elem_of_scan keys gte lt k :
  k ∈ scan le keys gte lt None ↔ k ∈ keys ∧ le gte k ∧ below le lt k.
Proof.
  unfold scan. rewrite list_elem_of_filter, merge_sort_Permutation. tauto.
Qed.
End scan.

(** ** The order of ScriptIndex keys *)

Section lex_le.
Context {A B : Type} (RA : relation A) (RB : relation B).
Context `{!PartialOrder RA, !PartialOrder RB}.

#[global] Instance lex_le_po : PartialOrder (lex_le RA RB).
Proof.
  split; [split|].
  - intros [a b]. split; simpl; reflexivity.
  - intros [a1 b1] [a2 b2] [a3 b3] [Ha12 Hb12] [Ha23 Hb23]; simpl in *.
    split; simpl; [by etrans|].
    intros ->. assert (a2 = a3) as -> by (by apply (anti_symm RA)).
    etrans; [by apply Hb12|by apply Hb23].
  - intros [a1 b1] [a2 b2] [Ha12 Hb12] [Ha21 Hb21]; simpl in *.
    assert (a1 = a2) as -> by (by apply (anti_symm RA)).
    f_equal. apply (anti_symm RB); auto.
Qed.

#[global] Instance lex_le_total `{!EqDecision A, !Total RA, !Total RB} :
  Total (lex_le RA RB).
Proof.
  intros [a1 b1] [a2 b2]. unfold lex_le. simpl.
  destruct (decide (a1 = a2)) as [->|Hne].
  - destruct (total RB b1 b2); [left|right]; (split; [reflexivity|done]).
  - destruct (total RA a1 a2); [left|right]; (split; [done|congruence]).
Qed.
End lex_le.

#[global] Instance sc_le_po : PartialOrder sc_le.
Proof. unfold sc_le. apply _. Qed.

#[global] Instance sc_le_total : Total sc_le.
Proof. unfold sc_le. apply _. Qed.

(** The keys between the bounds of [txosByScriptId]: those of the script at
    heights from [height] up to, but not including, [0xffffffff]. *)
Lemma sc_range scId height s h t v :
  String.le ZERO64 t → 0 ≤ v →
  sc_le (scId, height, ZERO64, 0) (s, h, t, v)
  ∧ below sc_le (Some (scId, 0xffffffff, ZERO64, 0)) (s, h, t, v)
  ↔ s = scId ∧ height ≤ h < 0xffffffff.
Proof.
  intros Ht Hv. unfold below, sc_le, lex_le. simpl. split.
  - intros [(((Hs & Hh) & _) & _) Hup].
    destruct (decide (scId = s)) as [->|Hne].
    + split; [done|]. split; [by apply Hh|].
      destruct (decide (h < 0xffffffff)) as [?|Hge]; [done|]. exfalso. apply Hup.
      split_and!; try done; intros; lia.
    + exfalso. apply Hup. split_and!; try done; congruence.
  - intros [-> [Hlo Hhi]]. split.
    + split_and!; done.
    + intros [[[_ Hh] _] _]. specialize (Hh eq_refl). lia.
Qed.

(** ** Identifiers and the keys of result objects *)

Lemma hex_digit_ge_zero c : hex_digit c = true → Ascii.compare "0"%char c ≠ Gt.
Proof.
  unfold hex_digit, Ascii.compare. change (N_of_ascii "0") with 48%N.
  generalize (N_of_ascii c). intros n Hn Hgt.
  apply N.compare_gt_iff in Hgt.
  apply orb_true_iff in Hn as [Hn|Hn]; apply andb_true_iff in Hn as [Hlo _];
    apply N.leb_le in Hlo; lia.
Qed.

Lemma zeros_le (s : string) :
  forallb hex_digit (Stdlib.Strings.String.list_ascii_of_string s) = true →
  String.le (zeros (String.length s)) s.
Proof.
  intros Hs. unfold String.le, Stdlib.Strings.String.leb.
  assert (Stdlib.Strings.String.compare (zeros (String.length s)) s ≠ Gt) as Hcmp.
  { induction s as [|c s IH]; [done|]. simpl in *.
    apply andb_true_iff in Hs as [Hc Hs].
    pose proof (hex_digit_ge_zero c Hc) as Hge.
    destruct (Ascii.compare "0"%char c); [by apply IH|done|done]. }
  by destruct (Stdlib.Strings.String.compare _ _).
Qed.

Lemma Hex64_length s : Hex64 s → String.length s = 64%nat.
Proof.
  unfold Hex64. intros [Hlen _]%Is_true_true%andb_true_iff.
  by apply Nat.eqb_eq in Hlen.
Qed.

Lemma Hex64_ge_ZERO64 s : Hex64 s → String.le ZERO64 s.
Proof.
  intros Hs. change ZERO64 with (zeros 64). rewrite <- (Hex64_length s Hs).
  apply zeros_le. unfold Hex64 in Hs.
  by apply Is_true_true, andb_true_iff in Hs as [_ ?].
Qed.

Lemma string_app_inj_length (s1 s2 r1 r2 : string) :
  String.length s1 = String.length s2 →
  s1 +:+ r1 = s2 +:+ r2 → s1 = s2 ∧ r1 = r2.
Proof.
  revert s2. induction s1 as [|c1 s1 IH]; intros [|c2 s2] Hlen Heq; try done.
  injection Heq as -> Heq. injection Hlen as Hlen.
  destruct (IH s2 Hlen Heq) as [-> ->]. done.
Qed.

Lemma txoKey_inj txId vout txId' vout' :
  String.length txId = String.length txId' →
  txoKey txId vout = txoKey txId' vout' → txId = txId' ∧ vout = vout'.
Proof.
  intros Hlen Heq. unfold txoKey in Heq.
  apply string_app_inj_length in Heq as [-> Heq]; [|done].
  split; [done|]. injection Heq as Heq. by apply (inj pretty).
Qed.

(** ** Assignments to a JavaScript object *)

Section obj_set.
Context {V : Type}.
Implicit Types (o : JsObject V) (k : string) (v : V).

Lemma elem_of_obj_set o k v k' v' :
  (k', v') ∈ obj_set o k v → (k', v') = (k, v) ∨ (k', v') ∈ o.
Proof.
  induction o as [|[k0 v0] o IH]; simpl.
  - intros ?%list_elem_of_singleton. by left.
  - case_decide as Hk.
    + intros [?|?]%elem_of_cons; [by left|right; by right].
    + intros [->|Hin]%elem_of_cons; [right; by left|].
      destruct (IH Hin) as [?|?]; [by left|right; by right].
Qed.

Lemma obj_set_keys o k v k' : k' ∈ (obj_set o k v).*1 ↔ k' = k ∨ k' ∈ o.*1.
Proof.
  induction o as [|[k0 v0] o IH]; simpl.
  - rewrite list_elem_of_singleton, elem_of_nil. tauto.
  - case_decide as Hk; simpl; rewrite !elem_of_cons.
    + subst k0. tauto.
    + rewrite IH. tauto.
Qed.

Lemma obj_set_NoDup o k v : NoDup o.*1 → NoDup (obj_set o k v).*1.
Proof.
  induction o as [|[k0 v0] o IH]; simpl.
  - intros _. apply NoDup_singleton.
  - intros [Hk0 Ho]%NoDup_cons. case_decide as Hk; simpl.
    + subst k0. by apply NoDup_cons.
    + apply NoDup_cons. split; [|by apply IH].
      rewrite obj_set_keys. intros [?|?]; [congruence|done].
Qed.

Lemma obj_set_fresh o k v : k ∉ o.*1 → obj_set o k v = o ++ [(k, v)].
Proof.
  induction o as [|[k0 v0] o IH]; simpl; [done|].
  intros [Hne Hout]%not_elem_of_cons. rewrite decide_False by done.
  by rewrite IH.
Qed.

Lemma elem_of_assign kvs o kv : kv ∈ assign o kvs → kv ∈ kvs ∨ kv ∈ o.
Proof.
  revert o. induction kvs as [|[k v] kvs IH]; intros o; simpl; [by right|].
  intros Hin. destruct (IH _ Hin) as [?|Hset]; [left; by right|].
  destruct kv as [k' v'].
  apply elem_of_obj_set in Hset as [->|?]; [left; by left|by right].
Qed.

Lemma assign_keys kvs o k : k ∈ (assign o kvs).*1 ↔ k ∈ kvs.*1 ∨ k ∈ o.*1.
Proof.
  revert o. induction kvs as [|[k0 v0] kvs IH]; intros o; simpl.
  - rewrite elem_of_nil. tauto.
  - rewrite IH, obj_set_keys, elem_of_cons. tauto.
Qed.

Lemma assign_NoDup kvs o : NoDup o.*1 → NoDup (assign o kvs).*1.
Proof.
  revert o. induction kvs as [|[k v] kvs IH]; intros o Ho; simpl; [done|].
  by apply IH, obj_set_NoDup.
Qed.

Lemma assign_fresh kvs o : NoDup (o.*1 ++ kvs.*1) → assign o kvs = o ++ kvs.
Proof.
  revert o. induction kvs as [|[k v] kvs IH]; intros o; simpl.
  - intros _. by rewrite app_nil_r.
  - intros Hnd. rewrite obj_set_fresh.
    + rewrite IH; [by rewrite <- app_assoc|].
      rewrite fmap_app. simpl. by rewrite <- app_assoc.
    + apply NoDup_app in Hnd as (_ & Hdisj & _). intros Hin.
      apply (Hdisj k Hin). by left.
Qed.
End obj_set.

(** ** Batches and their effect on the store *)

Lemma elem_of_batch_of effects o : o ∈ batch_of effects ↔ atomic o ∈ effects.
Proof.
  unfold batch_of. rewrite list_elem_of_omap. split.
  - intros ([o'|e] & Hin & Heq); by simplify_eq.
  - intros Hin. by exists (atomic o).
Qed.

Lemma elem_of_timers_of effects e : e ∈ timers_of effects ↔ setTimeout e ∈ effects.
Proof.
  unfold timers_of. rewrite list_elem_of_omap. split.
  - intros ([o|e'] & Hin & Heq); by simplify_eq.
  - intros Hin. by exists (setTimeout e).
Qed.

Lemma batch_of_app l1 l2 : batch_of (l1 ++ l2) = batch_of l1 ++ batch_of l2.
Proof. apply omap_app. Qed.

Lemma timers_of_app l1 l2 : timers_of (l1 ++ l2) = timers_of l1 ++ timers_of l2.
Proof. apply omap_app. Qed.

Lemma commit_app db b1 b2 : Db.commit db (b1 ++ b2) = Db.commit (Db.commit db b1) b2.
Proof. apply foldl_app. Qed.

Lemma commit_tip_last db batch v : Db.tip (Db.commit db (batch ++ [put (rows.tip v)])) = Some v.
Proof. by rewrite commit_app. Qed.

Lemma apply_feeIndex db o :
  key_index (op_key o) ≠ Index.feeIndex → Db.feeIndex (Db.apply db o) = Db.feeIndex db.
Proof. by destruct o as [[]|[]]. Qed.

Lemma commit_feeIndex db batch :
  Forall (λ o, key_index (op_key o) ≠ Index.feeIndex) batch →
  Db.feeIndex (Db.commit db batch) = Db.feeIndex db.
Proof.
  intros Hbatch. revert db. induction Hbatch as [|o batch Ho _ IH]; intros db; [done|].
  unfold Db.commit in *. simpl. rewrite IH. by apply apply_feeIndex.
Qed.

Lemma has_entry_apply_other db o k :
  op_key o ≠ k → has_entry (Db.apply db o) k ↔ has_entry db k.
Proof.
  intros Hne.
  destruct o as [[]|[]], k; simpl in *; try done.
  all: try (rewrite lookup_insert_ne by congruence; done).
  all: try (rewrite lookup_delete_ne by congruence; done).
  - rewrite elem_of_union, elem_of_singleton. split; [|by right].
    intros [?|?]; [congruence|done].
  - rewrite elem_of_difference, elem_of_singleton. split; [by intros [? _]|].
    intros ?. split; [done|congruence].
Qed.

Lemma has_entry_apply_del db k : ¬ has_entry (Db.apply db (del k)) k.
Proof.
  destruct k; simpl.
  - by intros [? ?].
  - rewrite lookup_delete_eq. by intros [? ?].
  - rewrite lookup_delete_eq. by intros [? ?].
  - rewrite lookup_delete_eq. by intros [? ?].
  - rewrite elem_of_difference, elem_of_singleton. by intros [_ ?].
  - rewrite lookup_delete_eq. by intros [? ?].
Qed.

(** A key that a batch deletes and never writes is absent once the batch is
    committed. *)
Lemma commit_removed batch db k :
  (∀ r, put r ∈ batch → row_key r ≠ k) →
  del k ∈ batch ∨ ¬ has_entry db k →
  ¬ has_entry (Db.commit db batch) k.
Proof.
  revert db. induction batch as [|o batch IH]; intros db Hput Hdel.
  - destruct Hdel as [?%elem_of_nil|?]; done.
  - unfold Db.commit in *. simpl. apply IH.
    { intros r Hr. apply Hput. by right. }
    destruct (decide (o = del k)) as [->|Ho].
    { right. apply has_entry_apply_del. }
    destruct Hdel as [[?|?]%elem_of_cons|Hno]; [done|by left|right].
    rewrite has_entry_apply_other; [done|].
    destruct o as [r|k']; simpl.
    + apply Hput. by left.
    + congruence.
Qed.

(** ** [box] and the fee summary *)

Lemma ToInt32_small z : - 2 ^ 31 ≤ z < 2 ^ 31 → ToInt32 z = z.
Proof.
  intros Hz. unfold ToInt32.
  rewrite Z.mod_small by lia. lia.
Qed.

Lemma js_index_nat {A} (data : list A) (i : nat) :
  js_index data (Z.of_nat i) = data !! i.
Proof.
  unfold js_index. rewrite decide_True by lia. by rewrite Nat2Z.id.
Qed.

Lemma sort_Sorted feeRates : Sorted Z.le (sort feeRates).
Proof. apply (Sorted_merge_sort Z.le). Qed.

Lemma sort_Permutation feeRates : sort feeRates ≡ₚ feeRates.
Proof. apply (merge_sort_Permutation Z.le). Qed.

Lemma sort_length feeRates : length (sort feeRates) = length feeRates.
Proof. apply Permutation_length, sort_Permutation. Qed.

Lemma rank_in_range (n : nat) : (0 < n → n / 2 + n / 4 < n)%nat.
Proof.
  intros Hn.
  pose proof (Nat.div_mod_eq n 2). pose proof (Nat.div_mod_eq n 4).
  pose proof (Nat.mod_upper_bound n 2). pose proof (Nat.mod_upper_bound n 4).
  lia.
Qed.

Lemma quarter_in_range (n : nat) : (0 < n → n / 4 < n)%nat.
Proof. intros Hn. pose proof (rank_in_range n Hn). lia. Qed.

Lemma midpoint_in_range (n : nat) : (0 < n → n / 2 < n)%nat.
Proof. intros Hn. pose proof (rank_in_range n Hn). lia. Qed.

Lemma box_ranks (data : list Z) :
  Z.of_nat (length data) < 2 ^ 32 →
  data ≠ [] →
  let n := length data in
  box data = Box.mk (data !! (n / 4)%nat) (data !! (n / 2)%nat)
                    (data !! (n / 2 + n / 4)%nat).
Proof.
  intros Hlen Hne n. unfold box.
  rewrite decide_False by (by destruct data).
  fold n in Hlen |- *.
  assert (Z.of_nat n / 4 = Z.of_nat (n / 4)) as -> by (by rewrite Nat2Z.inj_div).
  assert (Z.of_nat n / 2 = Z.of_nat (n / 2)) as -> by (by rewrite Nat2Z.inj_div).
  pose proof (Nat.Div0.div_le_upper_bound n 4 n) as H4.
  assert (Z.of_nat (n / 4) * 4 ≤ Z.of_nat n) as Hq.
  { rewrite Nat2Z.inj_div. pose proof (Z.mul_div_le (Z.of_nat n) 4). lia. }
  assert (Z.of_nat (n / 2) * 2 ≤ Z.of_nat n) as Hm.
  { rewrite Nat2Z.inj_div. pose proof (Z.mul_div_le (Z.of_nat n) 2). lia. }
  rewrite !ToInt32_small by lia.
  rewrite <- Nat2Z.inj_add. by rewrite !js_index_nat.
Qed.

(** The order in which the tasks of the second phase complete does not show
    in FeeIndex: the sample is sorted before [box] reads it. *)
Lemma feeSummary_Permutation (feeRates feeRates' : list Z) :
  feeRates ≡ₚ feeRates' → feeSummary feeRates = feeSummary feeRates'.
Proof.
  intros Hperm. unfold feeSummary. f_equal.
  apply (Sorted_unique Z.le); [apply sort_Sorted..|].
  by rewrite !sort_Permutation.
Qed.

(** ** The second phase of [connect] *)

Lemma filter_all {A} (P : A → Prop) `{!∀ x, Decision (P x)} (l : list A) :
  Forall P l → filter P l = l.
Proof.
  induction 1 as [|x l Hx _ IH]; [done|].
  rewrite filter_cons, decide_True by done. by rewrite IH.
Qed.

Lemma coinbase_flag_false (ins : list Input.t) :
  Forall (λ input, Input.coinbase input = false) ins →
  bool_decide (Exists (λ input, Input.coinbase input = true) ins) = false.
Proof.
  intros Hall. apply bool_decide_eq_false. rewrite Exists_exists.
  intros (input & Hin & Hcb).
  rewrite Forall_forall in Hall. specialize (Hall _ Hin). congruence.
Qed.

Lemma subTask_inl env db input err :
  reliable env →
  subTask env db input = inl err →
  Db.txoIndex db !! (Input.prevTxId input, Input.vout input) = None
  ∧ err = "Missing " +:+ txoKey (Input.prevTxId input) (Input.vout input).
Proof.
  intros Hrel. unfold subTask, get_txoIndex. rewrite db_get_reliable by done.
  destruct (Db.txoIndex db !! _); [done|]. by intros [= <-].
Qed.

Lemma txTask_inl env db tx err :
  reliable env →
  txTask env db tx = inl err →
  ∃ input, input ∈ Tx.ins tx ∧ Input.coinbase input = false
    ∧ Db.txoIndex db !! (Input.prevTxId input, Input.vout input) = None
    ∧ err = "Missing " +:+ txoKey (Input.prevTxId input) (Input.vout input).
Proof.
  intros Hrel. unfold txTask. case_bool_decide; [done|].
  destruct (parallel _) as [e|values] eqn:Hp; [|done]. intros [= ->].
  apply parallel_inl, list_elem_of_fmap in Hp as (input & Herr & Hin).
  apply list_elem_of_filter in Hin as [Hcb Hin].
  symmetry in Herr. apply subTask_inl in Herr as [Hnone ->]; [|done].
  eauto.
Qed.

Lemma txTask_missing env db tx input :
  reliable env →
  Forall (λ i, Input.coinbase i = false) (Tx.ins tx) →
  input ∈ Tx.ins tx →
  Db.txoIndex db !! (Input.prevTxId input, Input.vout input) = None →
  ∃ err, txTask env db tx = inl err.
Proof.
  intros Hrel Hall Hin Hnone. unfold txTask.
  rewrite coinbase_flag_false, filter_all by done.
  destruct (parallel_fails (subTask env db <$> Tx.ins tx)
              ("Missing " +:+ txoKey (Input.prevTxId input) (Input.vout input)))
    as [err ->]; [|by eauto].
  apply list_elem_of_fmap. exists input. split; [|done].
  unfold subTask, get_txoIndex. rewrite db_get_reliable by done. by rewrite Hnone.
Qed.

(** What the second phase writes when every task succeeds and the store
    takes the batch: the summary of the block's sample and the block size,
    under the height of the block. *)
Lemma connect2ndOrder_writes_summary env db blockId blk feeRates :
  parallel (txTask env db <$> Block.transactions blk) = inr feeRates →
  db_fault env (Access.write
    [put (rows.feeIndex (Block.height blk)
            (Fee.mk (feeSummary feeRates) (Block.size blk)))]) = None →
  connect2ndOrder env db blockId blk
  = (callback None None,
     Db.apply db (put (rows.feeIndex (Block.height blk)
                         (Fee.mk (feeSummary feeRates) (Block.size blk))))).
Proof.
  intros Htasks Hwrite. unfold connect2ndOrder, atomic_write.
  by rewrite Htasks, Hwrite.
Qed.

(** C2: for every block whose transactions give the fee rates [feeRates]
    (a list of a length a JavaScript array can have), the second phase, when
    its write is accepted, puts under FeeIndex at the height of the block the
    size of the block and [box] of the sample sorted in ascending order;
    [box] selects by rank, without interpolation:
    q1 = sample[floor(n/4)], median = sample[floor(n/2)],
    q3 = sample[floor(n/2) + floor(n/4)], all three ranks inside the sample;
    the empty sample gives 0, 0, 0. *)
Theorem fee_summary_quartiles
    (env : Env) (db : Db.t) (blockId : string) (blk : Block.t) (feeRates : list Z) :
  Z.of_nat (length feeRates) < 2 ^ 32 →
  parallel (txTask env db <$> Block.transactions blk) = inr feeRates →
  (∀ batch, db_fault env (Access.write batch) = None) →
  let sample := sort feeRates in
  let n := length sample in
  ∃ summary,
    connect2ndOrder env db blockId blk
    = (callback None None,
       Db.apply db (put (rows.feeIndex (Block.height blk)
                           (Fee.mk summary (Block.size blk)))))
    ∧ Db.feeIndex (connect2ndOrder env db blockId blk).2 !! Block.height blk
      = Some (Fee.mk summary (Block.size blk))
    ∧ summary = box sample
    ∧ Sorted Z.le sample
    ∧ sample ≡ₚ feeRates
    ∧ (n = 0%nat → summary = Box.mk (Some 0) (Some 0) (Some 0))
    ∧ (n ≠ 0%nat → ∃ a b c,
         sample !! (n / 4)%nat = Some a
         ∧ sample !! (n / 2)%nat = Some b
         ∧ sample !! (n / 2 + n / 4)%nat = Some c
         ∧ summary = Box.mk (Some a) (Some b) (Some c)).
Proof.
  intros Hlen Htasks Hwrite sample n.
  assert (length sample = length feeRates) as Hn by apply sort_length.
  pose proof (connect2ndOrder_writes_summary env db blockId blk feeRates Htasks (Hwrite _))
    as Hrun.
  exists (box sample). split_and!.
  - exact Hrun.
  - rewrite Hrun. apply lookup_insert_eq.
  - done.
  - apply sort_Sorted.
  - apply sort_Permutation.
  - intros H0. unfold box. by rewrite decide_True.
  - intros Hne.
    assert (0 < n)%nat as Hpos by lia.
    destruct (lookup_lt_is_Some_2 sample (n / 4)%nat) as [a Ha];
      [by apply quarter_in_range|].
    destruct (lookup_lt_is_Some_2 sample (n / 2)%nat) as [b Hb];
      [by apply midpoint_in_range|].
    destruct (lookup_lt_is_Some_2 sample (n / 2 + n / 4)%nat) as [c Hc];
      [by apply rank_in_range|].
    exists a, b, c. split_and!; try done.
    rewrite box_ranks.
    + fold n. by rewrite Ha, Hb, Hc.
    + lia.
    + intros ->. by apply Hne.
Qed.

Lemma fee_summary_quartiles_witness :
  Db.feeIndex
    (connect2ndOrder Quartiles.node Quartiles.db Quartiles.hashQ Quartiles.block).2 !! 9
  = Some (Fee.mk (Box.mk (Some 3) (Some 5) (Some 7)) 800)
  ∧ Db.feeIndex
      (connect2ndOrder Quartiles.node Quartiles.db Quartiles.hashE Quartiles.empty_block).2
      !! 9
    = Some (Fee.mk (Box.mk (Some 0) (Some 0) (Some 0)) 80).
Proof.
  split.
  - destruct (fee_summary_quartiles Quartiles.node Quartiles.db Quartiles.hashQ
                Quartiles.block [5; 1; 8; 3; 2; 7; 4; 6])
      as (summary & _ & Hrow & -> & _).
    + by vm_compute.
    + by vm_compute.
    + by intros batch.
    + exact Hrow.
  - destruct (fee_summary_quartiles Quartiles.node Quartiles.db Quartiles.hashE
                Quartiles.empty_block [])
      as (summary & _ & Hrow & _ & _ & _ & Hempty & _).
    + by vm_compute.
    + reflexivity.
    + by intros batch.
    + rewrite <-(Hempty eq_refl). exact Hrow.
Defined.

Lemma floor_quotient (fee vsize feeRate : Z) :
  0 < vsize → feeRate * vsize ≤ fee < (feeRate + 1) * vsize → fee / vsize = feeRate.
Proof.
  intros Hvsize Hfloor. symmetry.
  apply (Z.div_unique fee vsize feeRate (fee - feeRate * vsize)); lia.
Qed.

(** C3: the sample of the second phase holds one fee rate per transaction
    of the block, and its summary is what the phase writes to FeeIndex: a
    transaction with at least one coinbase input contributes the rate 0,
    whatever its outputs and whatever TxoIndex holds or answers (no lookup is
    made for it); a transaction without coinbase inputs whose inputs all
    resolve contributes
    floor((sum of resolved input values - sum of output values) / vsize),
    negative fees included. *)
Theorem txTask_contribution
    (env : Env) (db : Db.t) (blockId : string) (blk : Block.t) (feeRates : list Z) :
  Forall2 (λ tx feeRate,
      (Exists (λ input, Input.coinbase input = true) (Tx.ins tx) ∧ feeRate = 0)
      ∨ (Forall (λ input, Input.coinbase input = false) (Tx.ins tx)
         ∧ 0 < Tx.vsize tx
         ∧ ∃ values,
             Forall2 (λ input value,
                        get_txoIndex env db (Input.prevTxId input) (Input.vout input)
                        = inr (Some value)) (Tx.ins tx) values
             ∧ let fee := sum_values values - sum_values (Output.value <$> Tx.outs tx) in
               feeRate * Tx.vsize tx ≤ fee < (feeRate + 1) * Tx.vsize tx))
    (Block.transactions blk) feeRates →
  (∀ batch, db_fault env (Access.write batch) = None) →
  Forall2 (λ tx feeRate, txTask env db tx = inr feeRate) (Block.transactions blk) feeRates
  ∧ connect2ndOrder env db blockId blk
    = (callback None None,
       Db.apply db (put (rows.feeIndex (Block.height blk)
                           (Fee.mk (feeSummary feeRates) (Block.size blk)))))
  ∧ Db.feeIndex (connect2ndOrder env db blockId blk).2 !! Block.height blk
    = Some (Fee.mk (box (sort feeRates)) (Block.size blk)).
Proof.
  intros Hrates Hwrite.
  assert (Forall2 (λ tx feeRate, txTask env db tx = inr feeRate)
            (Block.transactions blk) feeRates) as Htasks.
  { eapply Forall2_impl; [exact Hrates|]. intros tx feeRate Hrate.
    destruct Hrate as [[Hcb ->]|(Hall & Hvsize & values & Hvalues & Hfloor)].
    - unfold txTask. by rewrite bool_decide_eq_true_2.
    - unfold txTask. rewrite coinbase_flag_false by done.
      rewrite filter_all by done.
      assert (parallel (subTask env db <$> Tx.ins tx) = inr values) as ->.
      { apply parallel_fmap_inr.
        eapply Forall2_impl; [exact Hvalues|].
        intros input value Hget. unfold subTask. by rewrite Hget. }
      cbv zeta in Hfloor |- *. by rewrite (floor_quotient _ _ feeRate). }
  pose proof (connect2ndOrder_writes_summary env db blockId blk feeRates
                (proj2 (parallel_fmap_inr _ _ _) Htasks) (Hwrite _)) as Hrun.
  split_and!; [done..|].
  rewrite Hrun. apply lookup_insert_eq.
Qed.

Lemma txTask_contribution_witness :
  txTask Sample.chain FirstPhase.db2 Sample.txB = inr 0
  ∧ txTask Sample.chain FirstPhase.db2 Sample.txC = inr 2
  ∧ Db.feeIndex (connect2ndOrder Sample.chain FirstPhase.db2 Sample.hash2 Sample.block2).2 !! 2
    = Some (Fee.mk (box (sort [0; 2])) 400).
Proof.
  destruct (txTask_contribution Sample.chain FirstPhase.db2 Sample.hash2 Sample.block2 [0; 2])
    as (Htasks & _ & Hrow).
  - apply Forall2_cons_2; [|apply Forall2_cons_2; [|apply Forall2_nil_2]].
    + left. split; [|done]. apply Exists_cons_hd. reflexivity.
    + right. split_and!.
      * apply Forall_cons_2; [reflexivity|apply Forall_nil_2].
      * reflexivity.
      * exists [50]. split.
        -- apply Forall2_cons_2; [by vm_compute|apply Forall2_nil_2].
        -- by vm_compute.
  - by intros batch.
  - apply Forall2_cons_1 in Htasks as [HB Htasks].
    apply Forall2_cons_1 in Htasks as [HC _].
    split_and!; [exact HB|exact HC|exact Hrow].
Defined.


(** ** [connect] *)


Lemma elem_of_connect_tx blockId height tx f :
  f ∈ connect_tx blockId height tx ↔
    (∃ vin input, Tx.ins tx !! vin = Some input ∧ Input.coinbase input = false
       ∧ (f = atomic (put (rows.spentIndex (Input.prevTxId input) (Input.vout input)
                             (Spent.mk (Tx.txId tx) (Z.of_nat vin))))
          ∨ f = setTimeout (Event.spent (txoKey (Input.prevTxId input) (Input.vout input))
                              (Tx.txId tx))))
    ∨ (∃ out, out ∈ Tx.outs tx
       ∧ (f = atomic (put (rows.scIndex (Output.scId out) height (Tx.txId tx)
                             (Output.vout out)))
          ∨ f = atomic (put (rows.txoIndex (Tx.txId tx) (Output.vout out)
                               (Output.value out)))
          ∨ f = setTimeout (Event.script (Output.scId out) (Tx.txId tx) (Tx.txBuffer tx))))
    ∨ f = setTimeout (Event.transaction (Tx.txId tx) (Tx.txBuffer tx) blockId)
    ∨ f = atomic (put (rows.txIndex (Tx.txId tx) height)).
Proof.
  unfold connect_tx. rewrite !elem_of_app, !list_elem_of_join.
  setoid_rewrite list_elem_of_fmap. setoid_rewrite elem_of_lookup_imap.
  rewrite elem_of_cons, list_elem_of_singleton. split.
  - intros [(l & Hf & vin & input & -> & Hin)|[(l & Hf & out & -> & Hout)|Hf]].
    + left. destruct (Input.coinbase input) eqn:Hcb; [by apply elem_of_nil in Hf|].
      exists vin, input. split_and!; [done..|].
      apply elem_of_cons in Hf as [->|Hf]; [by left|].
      apply list_elem_of_singleton in Hf. by right.
    + right; left. exists out. split; [done|].
      apply elem_of_cons in Hf as [->|Hf]; [by left|].
      apply elem_of_cons in Hf as [->|Hf]; [by right; left|].
      apply list_elem_of_singleton in Hf. by right; right.
    + by right; right.
  - intros [(vin & input & Hin & Hcb & Hf)|[(out & Hout & Hf)|Hf]].
    + left. eexists. split; [|by eauto]. rewrite Hcb.
      destruct Hf as [-> | ->]; [by left|by right; left].
    + right; left. eexists. split; [|by eauto]. simpl.
      destruct Hf as [-> |[-> | ->]]; [by left|by right; left|by right; right; left].
    + by right; right.
Qed.

Lemma batch_of_header_timer env blockId height :
  batch_of (header_timer env blockId height) = [].
Proof. unfold header_timer. by destruct (rpc_header env blockId). Qed.

Lemma connect_batch env blockId blk :
  batch_of (connect_effects env blockId blk)
  = batch_of (mjoin (connect_tx blockId (Block.height blk) <$> Block.transactions blk))
    ++ [put (rows.tip (Tip.mk blockId (Block.height blk)))].
Proof.
  unfold connect_effects. by rewrite !batch_of_app, batch_of_header_timer.
Qed.

(** What the first batch of [connect] holds besides the tip. *)
Lemma elem_of_connect_rows blockId blk o :
  o ∈ batch_of (mjoin (connect_tx blockId (Block.height blk) <$> Block.transactions blk))
  ↔ ∃ tx, tx ∈ Block.transactions blk ∧
      ((∃ vin input, Tx.ins tx !! vin = Some input ∧ Input.coinbase input = false
          ∧ o = put (rows.spentIndex (Input.prevTxId input) (Input.vout input)
                       (Spent.mk (Tx.txId tx) (Z.of_nat vin))))
       ∨ (∃ out, out ∈ Tx.outs tx
          ∧ (o = put (rows.scIndex (Output.scId out) (Block.height blk) (Tx.txId tx)
                        (Output.vout out))
             ∨ o = put (rows.txoIndex (Tx.txId tx) (Output.vout out) (Output.value out))))
       ∨ o = put (rows.txIndex (Tx.txId tx) (Block.height blk))).
Proof.
  rewrite elem_of_batch_of, list_elem_of_join.
  setoid_rewrite list_elem_of_fmap. split.
  - intros (l & Ho & tx & -> & Htx). exists tx. split; [done|].
    apply elem_of_connect_tx in Ho
      as [(vin & input & ? & ? & [?|?])|[(out & ? & [?|[?|?]])|[?|?]]]; simplify_eq.
    + left. eauto.
    + right; left. eauto.
    + right; left. eauto.
    + by right; right.
  - intros (tx & Htx & Ho). eexists. split; [|by eauto].
    apply elem_of_connect_tx.
    destruct Ho as [(vin & input & ? & ? & ->)|[(out & ? & [-> | ->])| ->]].
    + left. eauto 10.
    + right; left. eauto 10.
    + right; left. eauto 10.
    + by right; right; right.
Qed.

Lemma connect_batch_index env blockId blk :
  Forall (λ o, key_index (op_key o) ≠ Index.feeIndex)
         (batch_of (connect_effects env blockId blk)).
Proof.
  rewrite connect_batch. apply Forall_app. split; [|by repeat constructor].
  apply Forall_forall. intros o Ho. apply elem_of_connect_rows in Ho as (tx & _ & Ho).
  destruct Ho as [(? & ? & _ & _ & ->)|[(? & _ & [-> | ->])| ->]]; done.
Qed.

Lemma connect_cases env db blockId height :
  (∃ err, completion (connect env db blockId height) = callback (Some err) None
          ∧ Db.feeIndex (db_after (connect env db blockId height)) = Db.feeIndex db)
  ∨ (∃ blk row,
       rpc_block env blockId = inr blk
       ∧ completion (connect env db blockId height) = callback None None
       ∧ Db.feeIndex (db_after (connect env db blockId height))
         = <[Block.height blk := row]> (Db.feeIndex db)).
Proof.
  unfold connect. cbv zeta.
  destruct (rpc_block env blockId) as [err|blk]; [left; by exists err|].
  destruct (atomic_write env db _) as [err|db1] eqn:Hw; [left; by exists err|].
  apply atomic_write_inr in Hw.
  assert (Db.feeIndex db1 = Db.feeIndex db) as Hfee1.
  { rewrite Hw. apply commit_feeIndex, connect_batch_index. }
  unfold connect2ndOrder. destruct (parallel _) as [err|feeRates].
  { left. by exists err. }
  destruct (atomic_write env db1 _) as [err|db2] eqn:Hw2.
  { left. by exists err. }
  apply atomic_write_inr in Hw2. right. eexists _, _. split_and!; [done..|].
  rewrite Hw2. simpl. by rewrite Hfee1.
Qed.

(** C9: the [height] argument of [connect] has no influence: two calls
    that differ only in it end the same way, leave the same store (all six
    indices) and emit the same notifications, because the body reads the
    height of the fetched block: every operation of the first batch that
    carries a height carries the block's, and FeeIndex is either left as it
    was or written under the block's height. *)
Theorem connect_ignores_height_argument
    (env : Env) (db : Db.t) (blockId : string) (h1 h2 : Z) :
  connect env db blockId h1 = connect env db blockId h2
  ∧ (∀ blk o h,
       rpc_block env blockId = inr blk →
       o ∈ batch_of (connect_effects env blockId blk) →
       op_height o = Some h → h = Block.height blk)
  ∧ (Db.feeIndex (db_after (connect env db blockId h1)) = Db.feeIndex db
     ∨ ∃ blk row,
         rpc_block env blockId = inr blk
         ∧ Db.feeIndex (db_after (connect env db blockId h1))
           = <[Block.height blk := row]> (Db.feeIndex db)).
Proof.
  split_and!.
  - reflexivity.
  - intros blk o h _ Ho Hh. rewrite connect_batch, elem_of_app in Ho.
    destruct Ho as [Ho|Ho%list_elem_of_singleton].
    + apply elem_of_connect_rows in Ho as (tx & _ & Ho).
      destruct Ho as [(? & ? & _ & _ & ->)|[(? & _ & [-> | ->])| ->]];
        simpl in Hh; by simplify_eq.
    + subst o. simpl in Hh. by simplify_eq.
  - destruct (connect_cases env db blockId h1)
      as [(err & _ & Hfee)|(blk & row & Hblk & _ & Hfee)]; [by left|right; eauto].
Qed.

Lemma connect_ignores_height_argument_witness :
  connect Sample.chain Sample.db1 Sample.hash2 7
  = connect Sample.chain Sample.db1 Sample.hash2 2
  ∧ ∀ o h,
      o ∈ batch_of (connect_effects Sample.chain Sample.hash2 Sample.block2) →
      op_height o = Some h → h = 2.
Proof.
  destruct (connect_ignores_height_argument Sample.chain Sample.db1 Sample.hash2 7 2)
    as (Hsame & Hheights & _).
  split; [exact Hsame|].
  intros o h. by apply (Hheights Sample.block2 o h).
Defined.

(** C4, amended: with the store answering, if a transaction of the block
    has no coinbase input and one of its inputs spends an output that
    TxoIndex lacks once the first batch is committed, [connect] fails with a
    "Missing txId:vout" error naming such an input; the first batch stays
    committed (the store is the old one plus that batch, the tip is the
    block) and FeeIndex is left as it was. *)
Theorem connect_aborts_on_missing_output
    (env : Env) (db : Db.t) (blockId : string) (height : Z)
    (blk : Block.t) (tx : Tx.t) (input : Input.t) :
  reliable env →
  rpc_block env blockId = inr blk →
  let effects := connect_effects env blockId blk in
  let db1 := Db.commit db (batch_of effects) in
  tx ∈ Block.transactions blk →
  Forall (λ i, Input.coinbase i = false) (Tx.ins tx) →
  input ∈ Tx.ins tx →
  Db.txoIndex db1 !! (Input.prevTxId input, Input.vout input) = None →
  ∃ err,
    connect env db blockId height = mkRun (callback (Some err) None) db1 (timers_of effects)
    ∧ (∃ tx' input', tx' ∈ Block.transactions blk ∧ input' ∈ Tx.ins tx'
         ∧ Input.coinbase input' = false
         ∧ Db.txoIndex db1 !! (Input.prevTxId input', Input.vout input') = None
         ∧ err = "Missing " +:+ txoKey (Input.prevTxId input') (Input.vout input'))
    ∧ Db.tip db1 = Some (Tip.mk blockId (Block.height blk))
    ∧ Db.feeIndex db1 = Db.feeIndex db.
Proof.
  intros Hrel Hblk effects db1 Htx Hall Hin Hnone.
  destruct (txTask_missing env db1 tx input) as [e He]; [done..|].
  destruct (parallel_fails (txTask env db1 <$> Block.transactions blk) e)
    as [err Herr].
  { apply list_elem_of_fmap. eauto. }
  exists err. split_and!.
  - unfold connect. rewrite Hblk. fold effects.
    rewrite atomic_write_reliable by done. fold db1.
    unfold connect2ndOrder. by rewrite Herr.
  - apply parallel_inl, list_elem_of_fmap in Herr as (tx' & Herr & Htx').
    symmetry in Herr. apply txTask_inl in Herr as (input' & ? & ? & ? & ?); [|done].
    eauto 10.
  - unfold db1, effects. rewrite connect_batch. apply commit_tip_last.
  - apply commit_feeIndex, connect_batch_index.
Qed.

Lemma connect_aborts_on_missing_output_witness :
  ∃ err,
    connect Sample.orphans Db.empty Sample.hash4 3
    = mkRun (callback (Some err) None)
        (Db.commit Db.empty (batch_of (connect_effects Sample.orphans Sample.hash4 Sample.block4)))
        (timers_of (connect_effects Sample.orphans Sample.hash4 Sample.block4)).
Proof.
  destruct (connect_aborts_on_missing_output Sample.orphans Db.empty Sample.hash4 3
              Sample.block4 Sample.txZ Sample.orphanInput) as (err & Hrun & _).
  - apply sample_node_reliable.
  - reflexivity.
  - by left.
  - by repeat constructor.
  - by left.
  - by vm_compute.
  - by exists err.
Defined.

(** The claim of C4 fails where a transaction has a coinbase input next to
    an unresolvable one: the connect succeeds and writes FeeIndex. *)
Lemma mixed_inputs_do_not_abort :
  ¬ aborts_on_any_missing_output Sample.orphans Db.empty Sample.hash3 3.
Proof.
  intros Hclaim.
  destruct (Hclaim Sample.block3 Sample.txM Sample.orphanInput) as (err & Hdone & _).
  - reflexivity.
  - by left.
  - by right; left.
  - reflexivity.
  - by vm_compute.
  - vm_compute in Hdone. discriminate Hdone.
Qed.

(** ** [disconnect] *)

Lemma elem_of_disconnect_tx height tx f :
  f ∈ disconnect_tx height tx ↔
    (∃ input, input ∈ Tx.ins tx ∧ Input.coinbase input = false
       ∧ f = atomic (del (types.spentIndex (Input.prevTxId input) (Input.vout input))))
    ∨ (∃ vout out, Tx.outs tx !! vout = Some out
       ∧ (f = atomic (del (types.scIndex (Output.scId out) height (Tx.txId tx)
                            (Z.of_nat vout)))
          ∨ f = atomic (del (types.txoIndex (Tx.txId tx) (Z.of_nat vout)))))
    ∨ f = atomic (del (types.txIndex (Tx.txId tx))).
Proof.
  unfold disconnect_tx. rewrite !elem_of_app, !list_elem_of_join.
  setoid_rewrite list_elem_of_fmap. setoid_rewrite elem_of_lookup_imap.
  rewrite list_elem_of_singleton. split.
  - intros [(l & Hf & input & -> & Hin)|[(l & Hf & vout & out & -> & Hout)| ->]].
    + left. destruct (Input.coinbase input) eqn:Hcb; [by apply elem_of_nil in Hf|].
      apply list_elem_of_singleton in Hf. eauto.
    + right; left. exists vout, out. split; [done|].
      apply elem_of_cons in Hf as [->|Hf]; [by left|].
      apply list_elem_of_singleton in Hf. by right.
    + by right; right.
  - intros [(input & Hin & Hcb & ->)|[(vout & out & Hout & Hf)| ->]].
    + left. eexists. split; [|by eauto]. rewrite Hcb. by apply list_elem_of_singleton.
    + right; left. eexists. split; [|by eauto]. simpl.
      destruct Hf as [-> | ->]; [by left|by right; left].
    + by right; right.
Qed.

Lemma elem_of_disconnect_effects blk f :
  f ∈ disconnect_effects blk ↔
    (∃ tx, tx ∈ Block.transactions blk ∧ f ∈ disconnect_tx (Block.height blk) tx)
    ∨ f = atomic (put (rows.tip (Tip.mk (Block.previousblockhash blk) (Block.height blk)))).
Proof.
  unfold disconnect_effects. rewrite elem_of_app, list_elem_of_join, list_elem_of_singleton.
  setoid_rewrite list_elem_of_fmap. split.
  - intros [(l & Hf & tx & -> & Htx)| ->]; [left; eauto|by right].
  - intros [(tx & Htx & Hf)| ->]; [left; eauto|by right].
Qed.

Lemma removes_entry_of_index blk o :
  removes_entry_of blk o → key_index (op_key o) ≠ Index.feeIndex.
Proof.
  intros (tx & _ & [(input & _ & _ & ->)|[(vout & out & _ & [-> | ->])| ->]]); done.
Qed.

Lemma disconnect_batch blk :
  ∃ dels,
    batch_of (disconnect_effects blk)
    = dels ++ [put (rows.tip (Tip.mk (Block.previousblockhash blk) (Block.height blk)))]
    ∧ Forall (removes_entry_of blk) dels.
Proof.
  eexists. split.
  - unfold disconnect_effects. rewrite batch_of_app. reflexivity.
  - apply Forall_forall. intros o Ho. apply elem_of_batch_of in Ho.
    apply list_elem_of_join in Ho as (l & Ho & Hl).
    apply list_elem_of_fmap in Hl as (tx & -> & Htx).
    apply elem_of_disconnect_tx in Ho. exists tx. split; [done|].
    destruct Ho as [(input & ? & ? & ?)|[(vout & out & ? & Ho)|?]]; simplify_eq.
    + left. eauto.
    + right; left. exists vout, out. split; [done|]. destruct Ho; simplify_eq; eauto.
    + by right; right.
Qed.

Lemma disconnect_no_timers blk : timers_of (disconnect_effects blk) = [].
Proof.
  destruct (timers_of (disconnect_effects blk)) as [|e es] eqn:Heq; [done|].
  assert (e ∈ timers_of (disconnect_effects blk)) as He by (rewrite Heq; left).
  apply elem_of_timers_of, elem_of_disconnect_effects in He as [(tx & _ & He)|He]; [|done].
  apply elem_of_disconnect_tx in He.
  destruct He as [(? & _ & _ & ?)|[(? & ? & _ & [?|?])|?]]; done.
Qed.

Lemma disconnect_emitted env db blockId : emitted (disconnect env db blockId) = [].
Proof.
  unfold disconnect. destruct (rpc_block env blockId) as [err|blk]; [done|].
  destruct (atomic_write env db _); simpl; apply disconnect_no_timers.
Qed.

Lemma disconnect_feeIndex env db blockId :
  Db.feeIndex (db_after (disconnect env db blockId)) = Db.feeIndex db.
Proof.
  unfold disconnect. destruct (rpc_block env blockId) as [err|blk]; [done|].
  unfold atomic_write. destruct (db_fault env _); [done|]. simpl.
  destruct (disconnect_batch blk) as (dels & -> & Hdels).
  apply commit_feeIndex, Forall_app. split; [|by repeat constructor].
  eapply Forall_impl; [exact Hdels|]. apply removes_entry_of_index.
Qed.

(** C8: [disconnect] emits no notification and leaves every FeeIndex entry
    as it was; the batch it writes is a list of deletions of SpentIndex,
    ScriptIndex, TxoIndex and TxIndex entries of the fetched block, followed
    by one write of the tip. *)
Theorem disconnect_is_silent_and_keeps_fees (env : Env) (db : Db.t) (blockId : string) :
  emitted (disconnect env db blockId) = []
  ∧ Db.feeIndex (db_after (disconnect env db blockId)) = Db.feeIndex db
  ∧ ∀ blk,
      timers_of (disconnect_effects blk) = []
      ∧ ∃ dels v,
          batch_of (disconnect_effects blk) = dels ++ [put (rows.tip v)]
          ∧ Forall (removes_entry_of blk) dels.
Proof.
  split_and!.
  - apply disconnect_emitted.
  - apply disconnect_feeIndex.
  - intros blk. split; [apply disconnect_no_timers|].
    destruct (disconnect_batch blk) as (dels & Hbatch & Hdels). eauto.
Qed.

Lemma disconnect_batch_puts blk r k :
  put r ∈ batch_of (disconnect_effects blk) → k ≠ types.tip → row_key r ≠ k.
Proof.
  destruct (disconnect_batch blk) as (dels & -> & Hdels).
  rewrite elem_of_app, list_elem_of_singleton. intros [Hr|[= ->]] Hk.
  - rewrite Forall_forall in Hdels. apply Hdels in Hr.
    destruct Hr as (tx & _ & [(? & _ & _ & ?)|[(? & ? & _ & [?|?])|?]]); done.
  - simpl. congruence.
Qed.

(** The tip row [disconnect] writes: the previous block's id with the height
    of the block being removed. *)
Lemma disconnect_tip env db blockId blk :
  rpc_block env blockId = inr blk →
  db_fault env (Access.write (batch_of (disconnect_effects blk))) = None →
  disconnect env db blockId
  = mkRun (callback None None) (Db.commit db (batch_of (disconnect_effects blk))) []
  ∧ Db.tip (db_after (disconnect env db blockId))
    = Some (Tip.mk (Block.previousblockhash blk) (Block.height blk)).
Proof.
  intros Hblk Hw. unfold disconnect, atomic_write. rewrite Hblk. cbv zeta. rewrite Hw.
  rewrite disconnect_no_timers. split; [done|]. simpl.
  destruct (disconnect_batch blk) as (dels & -> & _). apply commit_tip_last.
Qed.

(** ** [disconnect] after [connect] *)

(** Under [outputs_numbered], every row the first batch of [connect] writes,
    the tip apart, has its deletion in the batch of [disconnect]. *)
Lemma connect_rows_deleted env blockId blk o :
  outputs_numbered blk →
  o ∈ batch_of (connect_effects env blockId blk) →
  key_index (op_key o) ≠ Index.tip →
  del (op_key o) ∈ batch_of (disconnect_effects blk).
Proof.
  intros Hnum Ho Htip. rewrite connect_batch, elem_of_app in Ho.
  destruct Ho as [Ho|Ho%list_elem_of_singleton]; [|by subst].
  apply elem_of_connect_rows in Ho as (tx & Htx & Ho).
  apply elem_of_batch_of, elem_of_disconnect_effects. left. exists tx. split; [done|].
  apply elem_of_disconnect_tx.
  destruct Ho as [(vin & input & Hin & Hcb & ->)|[(out & Hout & Ho)| ->]].
  - left. exists input. split_and!; [|done..]. by eapply list_elem_of_lookup_2.
  - right; left. apply list_elem_of_lookup in Hout as [i Hi].
    exists i, out. split; [done|].
    rewrite <- (Hnum tx Htx i out Hi). destruct Ho as [-> | ->]; [by left|by right].
  - by right; right.
Qed.

(** The inverse half of C1 that the code does keep: after the batch of
    [disconnect] is committed, whatever the state before, no row of the four
    block indices that [connect] wrote for the block is left. *)
Lemma disconnect_removes_connected_rows env blockId blk db o :
  outputs_numbered blk →
  o ∈ batch_of (connect_effects env blockId blk) →
  key_index (op_key o) ≠ Index.tip →
  ¬ has_entry (Db.commit db (batch_of (disconnect_effects blk))) (op_key o).
Proof.
  intros Hnum Ho Htip. apply commit_removed.
  - intros r Hr. eapply disconnect_batch_puts; [done|]. by intros Heq; rewrite Heq in Htip.
  - left. by eapply connect_rows_deleted.
Qed.

(** The round trip of C1 in general: with the store answering and the
    outputs numbered as the node numbers them, [disconnect] after [connect]
    succeeds, removes every row of TxIndex, TxoIndex, ScriptIndex and
    SpentIndex that the first batch of [connect] wrote, leaves FeeIndex as
    [connect] left it, and writes the previous block's id with the height of
    the removed block as the tip. *)
Lemma round_trip_removes_rows env db blockId height blk :
  reliable env →
  rpc_block env blockId = inr blk →
  outputs_numbered blk →
  let db1 := db_after (connect env db blockId height) in
  let r := disconnect env db1 blockId in
  completion r = callback None None
  ∧ Db.tip (db_after r)
    = Some (Tip.mk (Block.previousblockhash blk) (Block.height blk))
  ∧ (∀ o, o ∈ batch_of (connect_effects env blockId blk) →
          key_index (op_key o) ≠ Index.tip → ¬ has_entry (db_after r) (op_key o))
  ∧ Db.feeIndex (db_after r) = Db.feeIndex db1.
Proof.
  intros Hrel Hblk Hnum db1 r.
  destruct (disconnect_tip env db1 blockId blk Hblk (Hrel _)) as [Hrun Htip].
  fold r in Hrun, Htip. split_and!.
  - by rewrite Hrun.
  - done.
  - intros o Ho Hidx. rewrite Hrun. simpl.
    by apply (disconnect_removes_connected_rows env blockId).
  - apply disconnect_feeIndex.
Qed.

(** C1: evaluation at a block of height 2 connected on top of the tip
    (hash1, 1) and disconnected again. Both calls succeed, and the tip ends
    as (hash1, 2): the previous block's id with the height of the block that
    was removed, which is not the tip (hash1, 1) the round trip started
    from. *)
Theorem disconnect_after_connect_keeps_height :
  let T := Tip.mk Sample.hash1 1 in
  let connected := connect Sample.chain Sample.db1 Sample.hash2 2 in
  let disconnected := disconnect Sample.chain (db_after connected) Sample.hash2 in
  Db.tip Sample.db1 = Some T
  ∧ Block.previousblockhash Sample.block2 = Tip.blockId T
  ∧ Block.height Sample.block2 = Tip.height T + 1
  ∧ completion connected = callback None None
  ∧ completion disconnected = callback None None
  ∧ Db.tip (db_after disconnected) = Some (Tip.mk Sample.hash1 2)
  ∧ Db.tip (db_after disconnected) ≠ Some T.
Proof.
  intros T connected disconnected.
  assert ((Db.tip Sample.db1, completion connected, completion disconnected,
           Db.tip (db_after disconnected))
          = (Some T, callback None None, callback None None,
             Some (Tip.mk Sample.hash1 2))) as Hrun by (by vm_compute).
  apply pair_equal_spec in Hrun as [Hrun Htip].
  apply pair_equal_spec in Hrun as [Hrun Hdisconnected].
  apply pair_equal_spec in Hrun as [Htip1 Hconnected].
  split_and!; [done..|].
  rewrite Htip. unfold T. intros [= ?].
Qed.

(** ** FeeIndex along sequences of calls *)

Lemma step_connect env w blockId height :
  (∃ err, completion (connect env (store w) blockId height) = callback (Some err) None
     ∧ step w (env, Call.connect blockId height)
       = mkWorld (db_after (connect env (store w) blockId height))
                 (connected w) (derived w)
     ∧ Db.feeIndex (db_after (connect env (store w) blockId height))
       = Db.feeIndex (store w))
  ∨ (∃ blk row,
       step w (env, Call.connect blockId height)
       = mkWorld (db_after (connect env (store w) blockId height))
                 ((blockId, blk) :: connected w) (Block.height blk :: derived w)
       ∧ Db.feeIndex (db_after (connect env (store w) blockId height))
         = <[Block.height blk := row]> (Db.feeIndex (store w))).
Proof.
  destruct (connect_cases env (store w) blockId height)
    as [(err & Hdone & Hfee)|(blk & row & Hblk & Hdone & Hfee)].
  - left. exists err. split_and!; [done| |done]. simpl. by rewrite Hdone.
  - right. exists blk, row. split; [|done]. simpl. by rewrite Hdone, Hblk.
Qed.

Lemma step_disconnect env w blockId :
  store (step w (env, Call.disconnect blockId))
  = db_after (disconnect env (store w) blockId)
  ∧ derived (step w (env, Call.disconnect blockId)) = derived w
  ∧ connected (step w (env, Call.disconnect blockId)) ⊆ connected w.
Proof.
  simpl. destruct (completion _) as [[err|] res|exn]; simpl; split_and!; try done.
  intros b Hb. by apply list_elem_of_filter in Hb as [_ Hb].
Qed.

(** C7, amended: in every state reached from the empty store by a sequence
    of [connect] and [disconnect] calls, every connected height has its entry
    in FeeIndex (the index maps a height to one row), and the heights with an
    entry are those of the blocks whose [connect] has succeeded so far,
    disconnected since or not: [disconnect] leaves FeeIndex alone, so the
    entry of a block outlives the block. *)
Theorem connected_heights_have_fee_entries (calls : list (Env * Call.t)) :
  (∀ height, height ∈ connected_heights (run calls) →
     ∃ row, Db.feeIndex (store (run calls)) !! height = Some row)
  ∧ (∀ height, is_Some (Db.feeIndex (store (run calls)) !! height)
               ↔ height ∈ derived (run calls)).
Proof.
  assert (∀ height, is_Some (Db.feeIndex (store (run calls)) !! height)
                    ↔ height ∈ derived (run calls)) as Hderived.
  { unfold run. induction calls as [|c calls IH] using rev_ind; intros height.
    - simpl. rewrite lookup_empty, elem_of_nil. split; [by intros [? ?]|done].
    - rewrite foldl_app. cbn [foldl]. set (w := foldl step _ calls) in *.
      destruct c as [env [blockId h|blockId]].
      + destruct (step_connect env w blockId h)
          as [(err & _ & -> & Hfee)|(blk & row & -> & Hfee)]; simpl; rewrite Hfee.
        * apply IH.
        * rewrite lookup_insert_is_Some, elem_of_cons, <- IH.
          destruct (decide (Block.height blk = height)) as [Heq|Hne].
          { split; intros _; by left. }
          split.
          { intros [?|[_ ?]]; [done|by right]. }
          intros [?|?]; [congruence|by right].
      + destruct (step_disconnect env w blockId) as (-> & -> & _).
        rewrite disconnect_feeIndex. apply IH. }
  split; [|done].
  intros height Hin. apply Hderived. clear Hderived. revert height Hin.
  unfold run. induction calls as [|c calls IH] using rev_ind; intros height.
  - by intros ?%elem_of_nil.
  - rewrite foldl_app. cbn [foldl]. set (w := foldl step _ calls) in *.
    destruct c as [env [blockId h|blockId]].
    + destruct (step_connect env w blockId h)
        as [(err & _ & -> & _)|(blk & row & -> & _)]; unfold connected_heights; simpl.
      * apply IH.
      * rewrite !elem_of_cons. intros [->|Hin]; [by left|right; by apply IH].
    + destruct (step_disconnect env w blockId) as (_ & -> & Hsub).
      unfold connected_heights. intros (b & -> & Hb)%list_elem_of_fmap.
      apply IH, list_elem_of_fmap. exists b. split; [done|]. by apply Hsub.
Qed.

Lemma connected_heights_have_fee_entries_witness :
  ∃ row,
    Db.feeIndex
      (store (run [(Sample.chain, Call.connect Sample.hash1 1);
                   (Sample.chain, Call.connect Sample.hash2 2)])) !! 1 = Some row.
Proof.
  destruct (connected_heights_have_fee_entries
              [(Sample.chain, Call.connect Sample.hash1 1);
               (Sample.chain, Call.connect Sample.hash2 2)]) as [Hconnected _].
  apply Hconnected. vm_compute. right. left.
Defined.

(** C7 fails after a disconnect: the entry of the removed block stays. *)
Lemma fee_entry_outlives_disconnect :
  ¬ fee_entry_per_connected_height
      (run [(Sample.chain, Call.connect Sample.hash1 1);
            (Sample.chain, Call.disconnect Sample.hash1)]).
Proof.
  intros Hclaim. specialize (Hclaim 1). destruct Hclaim as [Hclaim _].
  assert (connected_heights
            (run [(Sample.chain, Call.connect Sample.hash1 1);
                  (Sample.chain, Call.disconnect Sample.hash1)]) = []) as Hnone
    by (by vm_compute).
  rewrite Hnone in Hclaim. eapply elem_of_nil, Hclaim.
  eexists. by vm_compute.
Qed.

(** ** [fees] *)

Lemma fee_rows_heights (m : gmap Z Fee.t) (keys : list Z) :
  Forall (λ height, is_Some (m !! height)) keys → (fee_rows m keys).*1 = keys.
Proof.
  induction 1 as [|height keys [row Hrow] _ IH]; [done|].
  unfold fee_rows in *. cbn. rewrite Hrow. cbn. by f_equal.
Qed.

Lemma elem_of_fee_rows (m : gmap Z Fee.t) (keys : list Z) height row :
  (height, row) ∈ fee_rows m keys ↔ height ∈ keys ∧ m !! height = Some row.
Proof.
  unfold fee_rows. rewrite list_elem_of_omap. split.
  - intros (h & Hin & Hrow). destruct (m !! h) as [r|] eqn:Hm; simplify_eq/=. done.
  - intros [Hin Hrow]. exists height. by rewrite Hrow.
Qed.

(** C10: with the store answering, [fees] on a store without a tip row ends
    in an uncaught exception, so neither a result nor an error reaches the
    callback; with a tip row it returns the FeeIndex entries whose height is
    at least the tip's height minus [n], each once, in ascending order of
    height. *)
Theorem fees_reads_tip_unguarded (env : Env) (db : Db.t) (n : Z) :
  reliable env →
  (Db.tip db = None → ∃ exn, fees env db n = uncaught exn)
  ∧ (∀ result, Db.tip db = Some result →
       ∃ fresult,
         fees env db n = callback None (Some fresult)
         ∧ (∀ entry, entry ∈ fresult ↔
              Db.feeIndex db !! FeeEntry.height entry
              = Some (Fee.mk (FeeEntry.fees entry) (FeeEntry.size entry))
              ∧ Tip.height result - n ≤ FeeEntry.height entry)
         ∧ StronglySorted Z.le (FeeEntry.height <$> fresult)
         ∧ NoDup (FeeEntry.height <$> fresult)).
Proof.
  intros Hrel. unfold fees, get_tip. rewrite db_get_reliable by done. split.
  - intros ->. eauto.
  - intros result ->. unfold iterator_feeIndex.
    rewrite db_iterator_reliable by done.
    set (gte := Tip.height result - n).
    set (keys := scan Z.le (elements (dom (Db.feeIndex db))) gte None None).
    fold (fee_rows (Db.feeIndex db) keys).
    set (mkEntry := λ '(height, row), FeeEntry.mk height (Fee.fees row) (Fee.size row)).
    assert (∀ height, height ∈ keys ↔ is_Some (Db.feeIndex db !! height) ∧ gte ≤ height)
      as Hkeys.
    { intros height. unfold keys. rewrite elem_of_scan, elem_of_elements, elem_of_dom.
      simpl. tauto. }
    assert (FeeEntry.height <$> (mkEntry <$> fee_rows (Db.feeIndex db) keys) = keys)
      as Hheights.
    { rewrite <- list_fmap_compose.
      rewrite <- (fee_rows_heights (Db.feeIndex db) keys) at 2.
      - apply list_fmap_ext. by intros _ [height row] _.
      - apply Forall_forall. intros height Hin. by apply Hkeys. }
    eexists. split_and!; [done|..].
    + intros entry. rewrite list_elem_of_fmap. split.
      * intros ([height row] & -> & Hin). apply elem_of_fee_rows in Hin as [Hin Hrow].
        simpl. destruct row. split; [done|]. by apply Hkeys.
      * intros [Hrow Hge]. destruct entry as [height fs sz]. simpl in *.
        exists (height, Fee.mk fs sz). split; [done|].
        apply elem_of_fee_rows. split; [|done]. apply Hkeys. eauto.
    + rewrite Hheights. apply scan_StronglySorted; apply _.
    + rewrite Hheights. apply scan_NoDup, NoDup_elements.
Qed.

Lemma fees_reads_tip_unguarded_witness :
  reliable Sample.chain
  ∧ (∃ exn, fees Sample.chain Db.empty 1 = uncaught exn)
  ∧ (∃ fresult, fees Sample.chain Sample.db1 0 = callback None (Some fresult)).
Proof.
  assert (reliable Sample.chain) as Hrel by (by intros a).
  split_and!; [done|..].
  - by apply (fees_reads_tip_unguarded Sample.chain Db.empty 1 Hrel).
  - destruct (fees_reads_tip_unguarded Sample.chain Sample.db1 0 Hrel) as [_ Hsome].
    destruct (Hsome (Tip.mk Sample.hash1 1)) as (fresult & Hfees & _); [by vm_compute|].
    by exists fresult.
Defined.

(** ** [txosByScriptId] *)

Lemma txos_fold scId (visited : list ScKey) (o : JsObject Txo.t) :
  foldl (λ resultMap '(_, height, txId, vout),
           obj_set resultMap (txoKey txId vout) (Txo.mk txId vout scId height))
        o visited
  = assign o (sc_entry scId <$> visited).
Proof.
  revert o. induction visited as [|[[[s h] t] v] visited IH]; intros o; [done|].
  simpl. by rewrite IH.
Qed.

Lemma txosByScriptId_reliable env db scId height :
  reliable env →
  txosByScriptId env db scId height
  = callback None
      (Some (assign [] (sc_entry scId <$>
               scan sc_le (elements (Db.scIndex db)) (scId, height, ZERO64, 0)
                    (Some (scId, 0xffffffff, ZERO64, 0)) None))).
Proof.
  intros Hrel. unfold txosByScriptId, iterator_scIndex.
  rewrite db_iterator_reliable by done. by rewrite txos_fold.
Qed.

Lemma txosByScriptId_result env db scId height :
  ∃ err resultMap, txosByScriptId env db scId height = callback err (Some resultMap).
Proof.
  unfold txosByScriptId. destruct (iterator_scIndex _ _ _ _ _) as [visited err]. eauto.
Qed.

Lemma elem_of_visited db scId height s h t v :
  scIndex_typed db →
  (s, h, t, v) ∈ scan sc_le (elements (Db.scIndex db)) (scId, height, ZERO64, 0)
                      (Some (scId, 0xffffffff, ZERO64, 0)) None
  ↔ (s, h, t, v) ∈ Db.scIndex db ∧ s = scId ∧ height ≤ h < 0xffffffff.
Proof.
  intros Htyped. rewrite elem_of_scan, elem_of_elements. split.
  - intros (Hin & Hlo & Hhi). split; [done|].
    destruct (Htyped _ Hin) as (_ & _ & Ht & Hv & _).
    apply (sc_range scId height s h t v); [by apply Hex64_ge_ZERO64|done|done].
  - intros (Hin & Hs & Hh). split; [done|].
    destruct (Htyped _ Hin) as (_ & _ & Ht & Hv & _).
    apply (sc_range scId height s h t v); [by apply Hex64_ge_ZERO64|done|done].
Qed.

(** ** Assignments to a key that is already there *)

Section assign_order.
Context {V : Type}.
Implicit Types (o : JsObject V) (kvs : list (string * V)).

Lemma assign_snoc o kvs k v : assign o (kvs ++ [(k, v)]) = obj_set (assign o kvs) k v.
Proof. unfold assign. by rewrite foldl_app. Qed.

Lemma obj_set_keys_eq o k v :
  (obj_set o k v).*1 = if decide (k ∈ o.*1) then o.*1 else o.*1 ++ [k].
Proof.
  induction o as [|[k' v'] o IH]; [done|].
  change (obj_set ((k', v') :: o) k v)
    with (if decide (k' = k) then (k, v) :: o else (k', v') :: obj_set o k v).
  destruct (decide (k' = k)) as [->|Hk].
  - rewrite !fmap_cons. by rewrite decide_True by left.
  - rewrite !fmap_cons, IH. destruct (decide (k ∈ o.*1)) as [Hin|Hin].
    + by rewrite decide_True by by right.
    + rewrite decide_False; [done|]. intros [?|?]%elem_of_cons; by simplify_eq.
Qed.

Lemma elem_of_obj_set_other o k v k' v' :
  NoDup o.*1 →
  (k', v') ∈ obj_set o k v → (k', v') = (k, v) ∨ (k' ≠ k ∧ (k', v') ∈ o).
Proof.
  induction o as [|[k0 v0] o IH]; intros Hnodup Hin.
  - apply list_elem_of_singleton in Hin. by left.
  - apply NoDup_cons in Hnodup as [Hk0 Hnodup]. simpl in Hin.
    destruct (decide (k0 = k)) as [->|Hk].
    + apply elem_of_cons in Hin as [?|Hin]; [by left|]. right.
      split; [|by right]. intros ->. apply Hk0.
      apply list_elem_of_fmap. by exists (k, v').
    + apply elem_of_cons in Hin as [Heq|Hin].
      * injection Heq as -> ->. right. split; [done|by left].
      * destruct (IH Hnodup Hin) as [?|[? ?]]; [by left|]. right. split; [done|by right].
Qed.

(** The value under a key is the one assigned last. *)
Lemma assign_last kvs k v :
  (k, v) ∈ assign [] kvs →
  ∃ p, kvs !! p = Some (k, v) ∧ ∀ q v', kvs !! q = Some (k, v') → (q ≤ p)%nat.
Proof.
  induction kvs as [|[k0 v0] kvs IH] using rev_ind; intros Hin.
  - by apply elem_of_nil in Hin.
  - rewrite assign_snoc in Hin.
    apply elem_of_obj_set_other in Hin; [|by apply assign_NoDup, NoDup_nil_2].
    destruct Hin as [Heq|[Hne Hin]].
    + injection Heq as -> ->. exists (length kvs). split.
      * by rewrite lookup_app_r, Nat.sub_diag.
      * intros q v' Hq. apply lookup_lt_Some in Hq. rewrite length_app in Hq.
        simpl in Hq. lia.
    + destruct (IH Hin) as (p & Hp & Hlast). exists p. split.
      * by rewrite lookup_app_l by by eapply lookup_lt_Some.
      * intros q v' Hq. destruct (decide (q < length kvs)%nat) as [Hlt|Hge].
        -- rewrite lookup_app_l in Hq by done. by eapply Hlast.
        -- rewrite lookup_app_r in Hq by lia.
           destruct (q - length kvs)%nat; simplify_eq/=.
Qed.

(** The keys stand in the order of their first assignment. *)
Lemma assign_first kvs i j k1 k2 :
  (assign [] kvs).*1 !! i = Some k1 →
  (assign [] kvs).*1 !! j = Some k2 →
  (i < j)%nat →
  ∃ p, kvs.*1 !! p = Some k1 ∧ ∀ q, kvs.*1 !! q = Some k2 → (p < q)%nat.
Proof.
  revert i j k1 k2.
  induction kvs as [|[k0 v0] kvs IH] using rev_ind; intros i j k1 k2 Hi Hj Hij; [done|].
  rewrite assign_snoc, obj_set_keys_eq in Hi, Hj. rewrite fmap_app. simpl.
  assert (∀ k p, kvs.*1 !! p = Some k → (p < length kvs.*1)%nat) as Hlt.
  { intros k p Hp. by eapply lookup_lt_Some. }
  assert (∀ q k, (kvs.*1 ++ [k0]) !! q = Some k →
                 kvs.*1 !! q = Some k ∨ (q = length kvs.*1 ∧ k = k0)) as Hsnoc.
  { intros q k Hq. destruct (decide (q < length kvs.*1)%nat).
    - left. by rewrite lookup_app_l in Hq.
    - right. rewrite lookup_app_r in Hq by lia.
      destruct (q - length kvs.*1)%nat eqn:Hd; [|by simplify_eq/=].
      simpl in Hq. injection Hq as <-. split; [lia|done]. }
  case_decide as Hk0.
  - destruct (IH i j k1 k2 Hi Hj Hij) as (p & Hp & Hfirst). exists p. split.
    + by rewrite lookup_app_l by by eapply Hlt.
    + intros q Hq. apply Hsnoc in Hq as [Hq|[-> _]]; [by apply Hfirst|by eapply Hlt].
  - assert (∀ k, k ∈ (assign [] kvs).*1 → ∃ p, kvs.*1 !! p = Some k) as Hseen.
    { intros k Hk. apply assign_keys in Hk as [Hk|Hk]; [|by apply elem_of_nil in Hk].
      by apply list_elem_of_lookup in Hk. }
    assert (k0 ∉ kvs.*1) as Hfresh.
    { intros Hin. apply Hk0, assign_keys. by left. }
    destruct (decide (j < length (assign [] kvs).*1)%nat) as [Hj'|Hj'].
    + rewrite lookup_app_l in Hi, Hj by lia.
      destruct (IH i j k1 k2 Hi Hj Hij) as (p & Hp & Hfirst). exists p. split.
      * by rewrite lookup_app_l by by eapply Hlt.
      * intros q Hq. apply Hsnoc in Hq as [Hq|[-> _]]; [by apply Hfirst|by eapply Hlt].
    + pose proof (lookup_lt_Some _ _ _ Hj) as Hjlen.
      rewrite length_app in Hjlen. simpl in Hjlen.
      rewrite lookup_app_l in Hi by lia. rewrite lookup_app_r in Hj by lia.
      assert (k2 = k0) as -> by (destruct (j - _)%nat; by simplify_eq/=).
      destruct (Hseen k1) as [p Hp]; [by eapply list_elem_of_lookup_2|].
      exists p. split.
      * by rewrite lookup_app_l by by eapply Hlt.
      * intros q Hq. apply Hsnoc in Hq as [Hq|[-> _]]; [|by eapply Hlt].
        destruct Hfresh. by eapply list_elem_of_lookup_2.
Qed.

End assign_order.

Lemma lookup_fmap_Some_2 {A B} (f : A → B) (l : list A) i x :
  l !! i = Some x → (f <$> l) !! i = Some (f x).
Proof. intros Hi. by rewrite list_lookup_fmap, Hi. Qed.

Lemma StronglySorted_lookup_lt {A} (R : relation A) (l : list A) p q x y :
  StronglySorted R l → l !! p = Some x → l !! q = Some y → (p < q)%nat → R x y.
Proof.
  intros Hsorted. revert p q.
  induction Hsorted as [|z l _ IH Hall]; intros p q Hp Hq Hpq; [done|].
  destruct p as [|p], q as [|q]; simplify_eq/=; try lia.
  - rewrite Forall_forall in Hall. by eapply Hall, list_elem_of_lookup_2.
  - apply (IH p q); [done..|lia].
Qed.

Lemma sc_le_height s h t v h' : sc_le (s, h, t, v) (s, h', t, v) → h ≤ h'.
Proof. intros [[[_ Hh] _] _]. by apply Hh. Qed.

(** What [txosByScriptId] returns for an output that is indexed at several
    heights: the entry carries the greatest of them, and stands where the
    first of them puts it. *)
Lemma txos_repeated db scId height :
  scIndex_typed db →
  let resultMap :=
    assign [] (sc_entry scId <$>
      scan sc_le (elements (Db.scIndex db)) (scId, height, ZERO64, 0)
           (Some (scId, 0xffffffff, ZERO64, 0)) None) in
  (∀ key txo h,
     (key, txo) ∈ resultMap →
     (scId, h, Txo.txId txo, Txo.vout txo) ∈ Db.scIndex db → height ≤ h < 0xffffffff →
     h ≤ Txo.height txo)
  ∧ (∀ i j key txo key' txo',
       resultMap !! i = Some (key, txo) → resultMap !! j = Some (key', txo') →
       (i < j)%nat →
       ∃ h, (scId, h, Txo.txId txo, Txo.vout txo) ∈ Db.scIndex db
            ∧ height ≤ h < 0xffffffff
            ∧ ∀ h', (scId, h', Txo.txId txo', Txo.vout txo') ∈ Db.scIndex db →
                    height ≤ h' < 0xffffffff →
                    sc_le (scId, h, Txo.txId txo, Txo.vout txo)
                          (scId, h', Txo.txId txo', Txo.vout txo')
                    ∧ (Txo.txId txo, Txo.vout txo) ≠ (Txo.txId txo', Txo.vout txo')).
Proof.
  intros Htyped.
  set (visited := scan sc_le _ _ _ _).
  pose proof (elem_of_visited db scId height) as Hvisited. fold visited in Hvisited.
  assert (StronglySorted sc_le visited) as Hsorted by (apply scan_StronglySorted; apply _).
  assert (NoDup visited) as Hnodup by apply scan_NoDup, NoDup_elements.
  assert (∀ p key txo, (sc_entry scId <$> visited) !! p = Some (key, txo) →
            ∃ h, visited !! p = Some (scId, h, Txo.txId txo, Txo.vout txo)
                 ∧ key = txoKey (Txo.txId txo) (Txo.vout txo) ∧ Txo.height txo = h) as Hat.
  { intros p key txo Hp. rewrite list_lookup_fmap in Hp.
    destruct (visited !! p) as [[[[s h] t] v]|] eqn:Hk; [|done].
    pose proof (list_elem_of_lookup_2 _ _ _ Hk) as Hin.
    apply Hvisited in Hin as (_ & -> & _); [|done].
    simpl in Hp. injection Hp as <- <-. by exists h. }
  assert (∀ h t v t' v', (scId, h, t, v) ∈ Db.scIndex db → height ≤ h < 0xffffffff →
            ∀ q h', visited !! q = Some (scId, h', t', v') →
            txoKey t' v' = txoKey t v → t' = t ∧ v' = v) as Hinj.
  { intros h t v t' v' Hin Hh q h' Hq Heq.
    pose proof (list_elem_of_lookup_2 _ _ _ Hq) as Hin'.
    apply Hvisited in Hin' as (Hin' & _); [|done].
    destruct (Htyped _ Hin) as (_ & _ & Ht & _).
    destruct (Htyped _ Hin') as (_ & _ & Ht' & _).
    apply txoKey_inj in Heq; [done|].
    by rewrite (Hex64_length _ Ht), (Hex64_length _ Ht'). }
  cbv zeta. split.
  - intros key txo h Hin Hk Hh.
    apply assign_last in Hin as (p & Hp & Hlast).
    destruct (Hat p key txo Hp) as (hp & Hvp & -> & ->).
    assert ((scId, h, Txo.txId txo, Txo.vout txo) ∈ visited) as Hv by by apply Hvisited.
    apply list_elem_of_lookup in Hv as [q Hq].
    assert ((q ≤ p)%nat) as Hqp.
    { apply (Hlast q (Txo.mk (Txo.txId txo) (Txo.vout txo) scId h)).
      exact (lookup_fmap_Some_2 (sc_entry scId) visited q _ Hq). }
    destruct (decide (q = p)) as [->|Hne].
    { pose proof (eq_trans (eq_sym Hq) Hvp) as [= ->]. lia. }
    apply (sc_le_height scId h (Txo.txId txo) (Txo.vout txo)).
    apply (StronglySorted_lookup_lt sc_le visited q p); [done..|lia].
  - intros i j key txo key' txo' Hi Hj Hij.
    destruct (assign_first (sc_entry scId <$> visited) i j key key') as (p & Hp & Hfirst).
    { exact (lookup_fmap_Some_2 fst _ i _ Hi). }
    { exact (lookup_fmap_Some_2 fst _ j _ Hj). }
    { done. }
    assert (∀ key txo, (key, txo) ∈ assign [] (sc_entry scId <$> visited) →
              key = txoKey (Txo.txId txo) (Txo.vout txo)
              ∧ ∃ h, (scId, h, Txo.txId txo, Txo.vout txo) ∈ Db.scIndex db
                     ∧ height ≤ h < 0xffffffff) as Hsound.
    { intros k e [Hin|?%elem_of_nil]%elem_of_assign; [|done].
      apply list_elem_of_lookup in Hin as [n Hn].
      destruct (Hat n k e Hn) as (h & Hvn & -> & _). split; [done|]. exists h.
      apply list_elem_of_lookup_2 in Hvn. apply Hvisited in Hvn as (? & _ & ?); done. }
    destruct (Hsound key txo) as (-> & h0 & Hk0 & Hh0); [by eapply list_elem_of_lookup_2|].
    destruct (Hsound key' txo') as (-> & h0' & Hk0' & Hh0');
      [by eapply list_elem_of_lookup_2|].
    rewrite <-list_fmap_compose, list_lookup_fmap in Hp.
    destruct (visited !! p) as [[[[s h] t] v]|] eqn:Hvp; [|done].
    simpl in Hp. injection Hp as Hkey.
    pose proof (list_elem_of_lookup_2 _ _ _ Hvp) as Hin.
    apply Hvisited in Hin as (Hin & -> & Hh); [|done].
    destruct (Hinj h0 (Txo.txId txo) (Txo.vout txo) t v Hk0 Hh0 p h Hvp Hkey) as [-> ->].
    exists h. split; [done|split; [done|]].
    intros h' Hk' Hh'.
    assert ((scId, h', Txo.txId txo', Txo.vout txo') ∈ visited) as Hv by by apply Hvisited.
    apply list_elem_of_lookup in Hv as [q Hq].
    assert ((p < q)%nat) as Hpq.
    { apply Hfirst.
      exact (lookup_fmap_Some_2 fst _ q _ (lookup_fmap_Some_2 (sc_entry scId) visited q _ Hq)). }
    split.
    + by apply (StronglySorted_lookup_lt sc_le visited p q).
    + intros [= Ht Hv].
      assert (i = j); [|lia].
      apply (NoDup_lookup (assign [] (sc_entry scId <$> visited)).*1 i j
               (txoKey (Txo.txId txo) (Txo.vout txo))).
      * by apply assign_NoDup, NoDup_nil_2.
      * exact (lookup_fmap_Some_2 fst _ i _ Hi).
      * rewrite Ht, Hv. exact (lookup_fmap_Some_2 fst _ j _ Hj).
Qed.

(** C5, amended: with the store answering and ScriptIndex keys of the key
    type, [txosByScriptId(scId, height)] returns a mapping with one entry per
    "txId:vout" key; every entry is {txId, vout, scId, height'} for an indexed
    output of the script with height <= height' < 0xffffffff, and every output
    of the script indexed at such a height has an entry. If no output of the
    script is indexed at two heights of that range, every entry carries the
    height of its output and the mapping is enumerated in ascending
    (height, txId, vout) order. In general an output indexed at several
    heights of the range has the height of its last index entry (the
    greatest) and the place of its first: of two entries the earlier one has
    an index entry that comes, in (height, txId, vout) order, before every
    index entry of the later one. *)
Theorem txosByScriptId_range (env : Env) (db : Db.t) (scId : string) (height : Z) :
  reliable env →
  scIndex_typed db →
  ∃ resultMap,
    txosByScriptId env db scId height = callback None (Some resultMap)
    ∧ NoDup resultMap.*1
    ∧ (∀ key txo, (key, txo) ∈ resultMap →
         key = txoKey (Txo.txId txo) (Txo.vout txo)
         ∧ Txo.scId txo = scId
         ∧ txo_key txo ∈ Db.scIndex db
         ∧ height ≤ Txo.height txo < 0xffffffff)
    ∧ (∀ h txId vout,
         (scId, h, txId, vout) ∈ Db.scIndex db → height ≤ h < 0xffffffff →
         ∃ txo, (txoKey txId vout, txo) ∈ resultMap
                ∧ Txo.txId txo = txId ∧ Txo.vout txo = vout)
    ∧ (one_height_per_output db scId height →
       StronglySorted sc_le (txo_key <$> resultMap.*2)
       ∧ ∀ h txId vout,
           (scId, h, txId, vout) ∈ Db.scIndex db → height ≤ h < 0xffffffff →
           (txoKey txId vout, Txo.mk txId vout scId h) ∈ resultMap)
    ∧ (∀ key txo h,
         (key, txo) ∈ resultMap →
         (scId, h, Txo.txId txo, Txo.vout txo) ∈ Db.scIndex db →
         height ≤ h < 0xffffffff →
         h ≤ Txo.height txo)
    ∧ (∀ i j key txo key' txo',
         resultMap !! i = Some (key, txo) → resultMap !! j = Some (key', txo') →
         (i < j)%nat →
         ∃ h, (scId, h, Txo.txId txo, Txo.vout txo) ∈ Db.scIndex db
              ∧ height ≤ h < 0xffffffff
              ∧ ∀ h', (scId, h', Txo.txId txo', Txo.vout txo') ∈ Db.scIndex db →
                      height ≤ h' < 0xffffffff →
                      sc_le (scId, h, Txo.txId txo, Txo.vout txo)
                            (scId, h', Txo.txId txo', Txo.vout txo')
                      ∧ (Txo.txId txo, Txo.vout txo)
                        ≠ (Txo.txId txo', Txo.vout txo')).
Proof.
  intros Hrel Htyped. eexists. split; [by apply txosByScriptId_reliable|].
  destruct (txos_repeated db scId height Htyped) as [Hlast Hfirst].
  revert Hlast Hfirst.
  set (visited := scan sc_le _ _ _ _).
  pose proof (elem_of_visited db scId height) as Hvisited. fold visited in Hvisited.
  set (resultMap := assign [] (sc_entry scId <$> visited)).
  intros Hlast Hfirst.
  assert (∀ key txo, (key, txo) ∈ resultMap →
            ∃ h, (scId, h, Txo.txId txo, Txo.vout txo) ∈ visited
                 ∧ (key, txo) = sc_entry scId (scId, h, Txo.txId txo, Txo.vout txo))
    as Hsound.
  { intros key txo [Hin|?%elem_of_nil]%elem_of_assign; [|done].
    apply list_elem_of_fmap in Hin as ([[[s h] t] v] & Heq & Hin).
    pose proof Hin as Hk. apply Hvisited in Hk as (_ & -> & _); [|done].
    simpl in Heq. injection Heq as -> ->. simpl. eauto. }
  split_and!.
  - apply assign_NoDup. constructor.
  - intros key txo Hin. destruct (Hsound key txo Hin) as (h & Hk & Heq).
    simpl in Heq. injection Heq as -> Htxo.
    apply Hvisited in Hk as (Hk & _ & Hh); [|done].
    rewrite Htxo. simpl. split_and!; try done; simpl; lia.
  - intros h txId vout Hin Hh.
    assert (txoKey txId vout ∈ resultMap.*1) as Hkey.
    { apply assign_keys. left. rewrite <- list_fmap_compose.
      apply list_elem_of_fmap. exists (scId, h, txId, vout). split; [done|].
      by apply Hvisited. }
    apply list_elem_of_fmap in Hkey as ([key txo] & Hkey & Hres). simpl in Hkey. subst key.
    exists txo. split; [done|].
    destruct (Hsound _ _ Hres) as (h' & Hk' & Heq). simpl in Heq.
    injection Heq as Heq _.
    apply Hvisited in Hk' as (Hk' & _); [|done].
    destruct (Htyped _ Hin) as (_ & _ & Ht & _).
    destruct (Htyped _ Hk') as (_ & _ & Ht' & _).
    apply txoKey_inj in Heq as [-> ->]; [done|].
    by rewrite (Hex64_length _ Ht), (Hex64_length _ Ht').
  - intros Hone.
    assert (resultMap = sc_entry scId <$> visited) as Hexact.
    { unfold resultMap. rewrite assign_fresh; [done|]. simpl.
      rewrite <- list_fmap_compose. apply NoDup_fmap_2_strong.
      - intros [[[s h] t] v] [[[s' h'] t'] v'] Hk Hk' Heq. simpl in Heq.
        pose proof Hk as Hin. pose proof Hk' as Hin'.
        apply Hvisited in Hin as (Hin & -> & Hh); [|done].
        apply Hvisited in Hin' as (Hin' & -> & Hh'); [|done].
        destruct (Htyped _ Hin) as (_ & _ & Ht & _).
        destruct (Htyped _ Hin') as (_ & _ & Ht' & _).
        apply txoKey_inj in Heq as [-> ->];
          [|by rewrite (Hex64_length _ Ht), (Hex64_length _ Ht')].
        by rewrite (Hone h h' t' v' Hin Hin' Hh Hh').
      - apply scan_NoDup, NoDup_elements. }
    split.
    + rewrite Hexact, <- !list_fmap_compose.
      assert ((txo_key ∘ snd ∘ sc_entry scId) <$> visited = visited) as ->.
      { rewrite <- (list_fmap_id visited) at 2. apply list_fmap_ext.
        intros i [[[s h] t] v] Hi. apply list_elem_of_lookup_2 in Hi.
        apply Hvisited in Hi as (_ & -> & _); done. }
      apply scan_StronglySorted; apply _.
    + intros h txId vout Hin Hh. rewrite Hexact. apply list_elem_of_fmap.
      exists (scId, h, txId, vout). split; [done|]. by apply Hvisited.
  - exact Hlast.
  - exact Hfirst.
Qed.

Lemma sample_scIndex_elements :
  elements (Db.scIndex Sample.db2)
  = [(Sample.sc1, 2, Sample.idC, 0); (Sample.sc1, 1, Sample.idA, 0);
     (Sample.sc2, 2, Sample.idB, 0); (Sample.sc2, 2, Sample.idC, 1)].
Proof. by vm_compute. Qed.

Lemma sample_scIndex_typed : scIndex_typed Sample.db2.
Proof.
  intros k Hk.
  assert (Forall sc_key_typed
            [(Sample.sc1, 2, Sample.idC, 0); (Sample.sc1, 1, Sample.idA, 0);
             (Sample.sc2, 2, Sample.idB, 0); (Sample.sc2, 2, Sample.idC, 1)]) as Hall
    by (repeat constructor; by vm_compute).
  rewrite Forall_forall in Hall. apply Hall.
  rewrite <- sample_scIndex_elements. by apply elem_of_elements.
Qed.

Lemma one_height_from_elements db scId height :
  Forall (λ k : ScKey, Forall (λ k' : ScKey,
            k.1.1.1 = scId → k'.1.1.1 = scId → k.1.2 = k'.1.2 → k.2 = k'.2 →
            k.1.1.2 = k'.1.1.2) (elements (Db.scIndex db)))
         (elements (Db.scIndex db)) →
  one_height_per_output db scId height.
Proof.
  intros Hall h h' txId vout Hin Hin' _ _.
  apply elem_of_elements in Hin, Hin'.
  rewrite Forall_forall in Hall. specialize (Hall _ Hin).
  rewrite Forall_forall in Hall. by apply (Hall _ Hin').
Qed.

Lemma sample_one_height : one_height_per_output Sample.db2 Sample.sc1 0.
Proof.
  apply one_height_from_elements.
  apply (bool_decide_unpack _). by vm_compute.
Qed.

Lemma txosByScriptId_range_witness :
  ∃ resultMap,
    txosByScriptId Sample.chain Sample.db2 Sample.sc1 0 = callback None (Some resultMap)
    ∧ NoDup resultMap.*1
    ∧ StronglySorted sc_le (txo_key <$> resultMap.*2).
Proof.
  destruct (txosByScriptId_range Sample.chain Sample.db2 Sample.sc1 0)
    as (resultMap & Hdone & Hkeys & _ & _ & Hsorted & _).
  - apply sample_node_reliable.
  - apply sample_scIndex_typed.
  - exists resultMap. split_and!; [done..|]. apply Hsorted, sample_one_height.
Defined.

(** C5 fails at the top height, which the scan's exclusive bound leaves out,
    and where one output is indexed at two heights: the later height takes
    the earlier entry's place. *)
Lemma txosByScriptId_skips_top_height_and_reorders :
  (∃ resultMap,
     txosByScriptId Sample.chain Sample.dbMax Sample.sc1 0
     = callback None (Some resultMap)
     ∧ ¬ returns_outputs_from Sample.dbMax Sample.sc1 0 resultMap)
  ∧ (∃ resultMap,
       txosByScriptId Sample.chain Sample.db3 Sample.sc1 0
       = callback None (Some resultMap)
       ∧ ¬ returns_outputs_from Sample.db3 Sample.sc1 0 resultMap).
Proof.
  split.
  - exists []. split; [by vm_compute|].
    intros (_ & Hcomplete & _).
    destruct (Hcomplete 0xffffffff Sample.idA 0) as (txo & Hin & _).
    + apply elem_of_elements.
      assert (elements (Db.scIndex Sample.dbMax)
              = [(Sample.sc1, 0xffffffff, Sample.idA, 0)]) as -> by (by vm_compute).
      left.
    + lia.
    + by apply elem_of_nil in Hin.
  - exists [ (txoKey Sample.idA 0, Txo.mk Sample.idA 0 Sample.sc1 3);
             (txoKey Sample.idC 0, Txo.mk Sample.idC 0 Sample.sc1 2) ].
    split; [by vm_compute|].
    intros (_ & _ & Hsorted).
    change (StronglySorted sc_le [ (Sample.sc1, 3, Sample.idA, 0);
                                   (Sample.sc1, 2, Sample.idC, 0) ]) in Hsorted.
    apply StronglySorted_cons in Hsorted as [Hfirst _].
    apply Forall_cons in Hfirst as [Hle _].
    assert (bool_decide (sc_le (Sample.sc1, 3, Sample.idA, 0)
                               (Sample.sc1, 2, Sample.idC, 0)) = false) as Hno
      by (by vm_compute).
    by apply bool_decide_eq_false in Hno.
Qed.

(** ** [transactionIdsByScriptId] *)

Lemma mark_lookup (ids : list string) (m : gmap string bool) (id : string) :
  let txIds := foldl (λ (txIds : gmap string bool) k, <[k := true]> txIds) m ids in
  (id ∈ ids → txIds !! id = Some true) ∧ (id ∉ ids → txIds !! id = m !! id).
Proof.
  revert m. induction ids as [|k ids IH]; intros m; cbn.
  - split; [by intros ?%elem_of_nil|done].
  - destruct (IH (<[k := true]> m)) as [IHin IHout]. split.
    + intros Hin. destruct (decide (id ∈ ids)) as [?|Hout]; [by apply IHin|].
      rewrite IHout by done. apply elem_of_cons in Hin as [->|?]; [|done].
      apply lookup_insert_eq.
    + intros Hout. apply not_elem_of_cons in Hout as [Hne Hout].
      rewrite IHout by done. by apply lookup_insert_ne.
Qed.

Lemma mark_spenders (spentMap : JsObject (option Spent.t)) (m : gmap string bool) :
  foldl (λ (txIds : gmap string bool) '(x, row),
           match row with
           | None => txIds
           | Some spent => <[Spent.txId spent := true]> txIds
           end) m spentMap
  = foldl (λ (txIds : gmap string bool) k, <[k := true]> txIds) m
      (Spent.txId <$> omap (λ row, row) spentMap.*2).
Proof.
  revert m. induction spentMap as [|[x [spent|]] spentMap IH]; intros m; cbn; by auto.
Qed.

Lemma mark_creators (txosMap : JsObject Txo.t) (m : gmap string bool) :
  foldl (λ (txIds : gmap string bool) '(x, txo), <[Txo.txId txo := true]> txIds) m txosMap
  = foldl (λ (txIds : gmap string bool) k, <[k := true]> txIds) m
      (Txo.txId <$> txosMap.*2).
Proof.
  revert m. induction txosMap as [|[x txo] txosMap IH]; intros m; cbn; by auto.
Qed.

Lemma mark_true (ids : list string) (m : gmap string bool) :
  (∀ id flag, m !! id = Some flag → flag = true) →
  ∀ id flag,
    foldl (λ (txIds : gmap string bool) k, <[k := true]> txIds) m ids !! id = Some flag →
    flag = true.
Proof.
  intros Hm id flag. destruct (mark_lookup ids m id) as [Hin Hout].
  destruct (decide (id ∈ ids)) as [?|?].
  - rewrite Hin by done. by intros [= <-].
  - rewrite Hout by done. apply Hm.
Qed.

(** C6: [transactionIdsByScriptId] fails with the error of
    [txosByScriptId] when that call fails, and fails when a [spentFromTxo]
    lookup of a returned output fails; when all lookups succeed its result
    is a set of transaction ids (a map from ids to [true], so without
    duplicates) that holds exactly the creating transaction of every
    returned output and the spending transaction of every returned output
    that [spentFromTxo] reports as spent. *)
Theorem transactionIds_are_creators_and_spenders
    (env : Env) (db : Db.t) (scId : string) (height : Z) :
  (∀ err result,
     txosByScriptId env db scId height = callback (Some err) result →
     transactionIdsByScriptId env db scId height = callback (Some err) None)
  ∧ (∀ txosMap,
       txosByScriptId env db scId height = callback None (Some txosMap) →
       (∀ key txo err,
          (key, txo) ∈ txosMap → spentFromTxo env db txo = inl err →
          ∃ err', transactionIdsByScriptId env db scId height = callback (Some err') None)
       ∧ ((∀ key txo, (key, txo) ∈ txosMap → ∃ row, spentFromTxo env db txo = inr row) →
          ∃ txIds : gmap string bool,
            transactionIdsByScriptId env db scId height = callback None (Some txIds)
            ∧ (∀ txId, txId ∈ dom txIds ↔
                 (∃ key txo, (key, txo) ∈ txosMap ∧ Txo.txId txo = txId)
                 ∨ (∃ key txo spent,
                      (key, txo) ∈ txosMap
                      ∧ spentFromTxo env db txo = inr (Some spent)
                      ∧ Spent.txId spent = txId))
            ∧ (∀ txId flag, txIds !! txId = Some flag → flag = true))).
Proof.
  split.
  { intros err result Htxos. unfold transactionIdsByScriptId. by rewrite Htxos. }
  intros txosMap Htxos. unfold transactionIdsByScriptId. rewrite Htxos.
  cbv zeta. cbn [from_option]. unfold id.
  set (taskMap := (λ '(txoKey, txo), (txoKey, spentFromTxo env db txo)) <$> txosMap).
  assert (∀ key task, (key, task) ∈ taskMap ↔
            ∃ txo, (key, txo) ∈ txosMap ∧ task = spentFromTxo env db txo) as Htask.
  { intros key task. unfold taskMap. rewrite list_elem_of_fmap. split.
    - intros ([k txo] & [= -> ->] & Hin). eauto.
    - intros (txo & Hin & ->). by exists (key, txo). }
  split.
  - intros key txo err Hin Herr.
    destruct (parallel_obj_fails taskMap key err) as [err' ->]; [|by eauto].
    apply Htask. exists txo. by rewrite Herr.
  - intros Hall. destruct (parallel_obj taskMap) as [err|spentMap] eqn:Hp.
    { apply parallel_obj_inl in Hp as [key Hin].
      apply Htask in Hin as (txo & Hin & Herr).
      destruct (Hall key txo Hin) as [row Hrow]. congruence. }
    apply parallel_obj_inr in Hp as [_ Hrows].
    assert (∀ spent, Some spent ∈ spentMap.*2 ↔
              ∃ key txo, (key, txo) ∈ txosMap
                         ∧ spentFromTxo env db txo = inr (Some spent)) as Hspent.
    { intros spent. split.
      - intros Hin.
        assert (inr (Some spent) ∈ taskMap.*2) as Htaskin.
        { rewrite Hrows. apply list_elem_of_fmap. eauto. }
        apply list_elem_of_fmap in Htaskin as ([key task] & Heq & Htaskin).
        simpl in Heq. subst task. apply Htask in Htaskin as (txo & ? & ?). eauto.
      - intros (key & txo & Hin & Hrow).
        assert (inr (Some spent) ∈ taskMap.*2) as Htaskin.
        { apply list_elem_of_fmap. exists (key, inr (Some spent)). split; [done|].
          apply Htask. eauto. }
        rewrite Hrows in Htaskin.
        apply list_elem_of_fmap in Htaskin as (row & [= <-] & ?). done. }
    eexists. split; [done|]. rewrite mark_spenders, mark_creators.
    set (spenders := Spent.txId <$> omap (λ row, row) spentMap.*2).
    set (creators := Txo.txId <$> txosMap.*2).
    assert (∀ id, id ∈ creators ↔ ∃ key txo, (key, txo) ∈ txosMap ∧ Txo.txId txo = id)
      as Hcreators.
    { intros id. unfold creators. rewrite list_elem_of_fmap. split.
      - intros (txo & -> & ([key txo'] & -> & Hin)%list_elem_of_fmap). eauto.
      - intros (key & txo & Hin & <-). exists txo. split; [done|].
        apply list_elem_of_fmap. by exists (key, txo). }
    assert (∀ id, id ∈ spenders ↔
              ∃ key txo spent, (key, txo) ∈ txosMap
                ∧ spentFromTxo env db txo = inr (Some spent) ∧ Spent.txId spent = id)
      as Hspenders.
    { intros id. unfold spenders. rewrite list_elem_of_fmap. split.
      - intros (spent & -> & (row & Hrow & ->)%list_elem_of_omap).
        apply Hspent in Hrow as (key & txo & ? & ?). eauto 10.
      - intros (key & txo & spent & Hin & Hrow & <-). exists spent. split; [done|].
        apply list_elem_of_omap. exists (Some spent). split; [|done].
        apply Hspent. eauto. }
    split.
    + intros txId. rewrite elem_of_dom, <- Hcreators, <- Hspenders.
      destruct (mark_lookup creators
                  (foldl (λ (txIds : gmap string bool) k, <[k := true]> txIds) ∅ spenders)
                  txId) as [Hin Hout].
      destruct (mark_lookup spenders ∅ txId) as [Hin' Hout'].
      destruct (decide (txId ∈ creators)) as [?|?].
      { rewrite Hin by done. split; [by left|eauto]. }
      rewrite Hout by done.
      destruct (decide (txId ∈ spenders)) as [?|?].
      { rewrite Hin' by done. split; [by right|eauto]. }
      rewrite Hout', lookup_empty by done. split; [by intros [? ?]|by intros [?|?]].
    + apply mark_true, mark_true. intros id flag. by rewrite lookup_empty.
Qed.

Lemma transactionIds_are_creators_and_spenders_witness :
  transactionIdsByScriptId Sample.scans_fail Sample.db2 Sample.sc1 0
  = callback (Some "ReadError") None
  ∧ (∃ err, transactionIdsByScriptId Sample.spent_reads_fail Sample.db2 Sample.sc1 0
            = callback (Some err) None)
  ∧ (∃ txIds : gmap string bool,
       transactionIdsByScriptId Sample.chain Sample.db2 Sample.sc1 0
       = callback None (Some txIds)
       ∧ Sample.idA ∈ dom txIds ∧ Sample.idC ∈ dom txIds).
Proof.
  split_and!.
  - destruct (transactionIds_are_creators_and_spenders
                Sample.scans_fail Sample.db2 Sample.sc1 0) as [Hscan _].
    apply (Hscan "ReadError" (Some [])). by vm_compute.
  - destruct (transactionIds_are_creators_and_spenders
                Sample.spent_reads_fail Sample.db2 Sample.sc1 0) as [_ Hlookups].
    destruct (Hlookups Sample.txos_sc1) as [Hfail _]; [by vm_compute|].
    apply (Hfail (txoKey Sample.idA 0) (Txo.mk Sample.idA 0 Sample.sc1 1) "ReadError");
      [by left|by vm_compute].
  - destruct (transactionIds_are_creators_and_spenders
                Sample.chain Sample.db2 Sample.sc1 0) as [_ Hlookups].
    destruct (Hlookups Sample.txos_sc1) as [_ Hunion]; [by vm_compute|].
    destruct Hunion as (txIds & Hdone & Hdom & _).
    { intros key txo _. eexists. unfold spentFromTxo, get_spentIndex.
      apply db_get_reliable, sample_node_reliable. }
    exists txIds. split_and!; [done|..].
    + apply Hdom. left. eexists _, _. split; [by left|done].
    + apply Hdom. left. eexists _, _. split; [by right; left|done].
Defined.

(** * Further properties *)

(** ** Rows of the store under a batch *)

Lemma row_at_apply db o k :
  row_at (Db.apply db o) k = if decide (op_key o = k) then op_result o else row_at db k.
Proof.
  destruct (decide (op_key o = k)) as [<-|Hk].
  - destruct o as [[]|[]]; simpl; rewrite ?lookup_insert_eq, ?lookup_delete_eq; try done.
    + rewrite decide_True; [done|]. apply elem_of_union. left. by apply elem_of_singleton.
    + rewrite decide_False; [done|]. rewrite elem_of_difference, elem_of_singleton.
      by intros [_ ?].
  - destruct o as [[]|[]], k; simpl in *; try done;
      rewrite ?lookup_insert_ne, ?lookup_delete_ne by congruence; try done.
    + apply decide_ext. rewrite elem_of_union, elem_of_singleton.
      split; [intros [?|?]; [congruence|done]|by right].
    + apply decide_ext. rewrite elem_of_difference, elem_of_singleton.
      split; [by intros [? _]|]. intros ?. split; [done|congruence].
Qed.

Lemma row_at_commit batch db k :
  row_at (Db.commit db batch) k = effect_on batch k (row_at db k).
Proof.
  revert db. induction batch as [|o batch IH]; intros db; [done|].
  unfold Db.commit, effect_on in *. simpl. by rewrite IH, row_at_apply.
Qed.

Lemma db_ext db db' : (∀ k, row_at db k = row_at db' k) → db = db'.
Proof.
  intros Hrows. destruct db as [t tx txo sp sc fee], db' as [t' tx' txo' sp' sc' fee'].
  f_equal.
  - specialize (Hrows types.tip). simpl in Hrows.
    destruct t, t'; simpl in Hrows; by simplify_eq.
  - apply map_eq. intros i. specialize (Hrows (types.txIndex i)). simpl in Hrows.
    destruct (tx !! i), (tx' !! i); simpl in Hrows; by simplify_eq.
  - apply map_eq. intros [i j]. specialize (Hrows (types.txoIndex i j)). simpl in Hrows.
    destruct (txo !! _), (txo' !! _); simpl in Hrows; by simplify_eq.
  - apply map_eq. intros [i j]. specialize (Hrows (types.spentIndex i j)). simpl in Hrows.
    destruct (sp !! _), (sp' !! _); simpl in Hrows; by simplify_eq.
  - apply set_eq. intros [[[s h] i] j]. specialize (Hrows (types.scIndex s h i j)).
    simpl in Hrows. repeat case_decide; by simplify_eq.
  - apply map_eq. intros i. specialize (Hrows (types.feeIndex i)). simpl in Hrows.
    destruct (fee !! i), (fee' !! i); simpl in Hrows; by simplify_eq.
Qed.

Lemma has_entry_row_at db k : has_entry db k ↔ is_Some (row_at db k).
Proof.
  destruct k; simpl; rewrite ?fmap_is_Some; try done.
  case_decide; split; try done.
Qed.

Lemma effect_on_untouched batch k before :
  (∀ o, o ∈ batch → op_key o ≠ k) → effect_on batch k before = before.
Proof.
  revert before. induction batch as [|o batch IH]; intros before Hb; [done|].
  unfold effect_on in *. simpl. rewrite decide_False by (apply Hb; left).
  apply IH. intros o' Ho'. apply Hb. by right.
Qed.

Lemma effect_on_app b1 b2 k before :
  effect_on (b1 ++ b2) k before = effect_on b2 k (effect_on b1 k before).
Proof. apply foldl_app. Qed.

(** A batch either leaves a key alone or decides what is under it. *)
Lemma effect_on_cases batch k :
  (∀ before, effect_on batch k before = before)
  ∨ (∃ after, ∀ before, effect_on batch k before = after).
Proof.
  induction batch as [|o batch IH] using rev_ind; [by left|].
  destruct (decide (op_key o = k)) as [Hk|Hk].
  - right. exists (op_result o). intros before.
    rewrite effect_on_app. unfold effect_on at 1. simpl. by rewrite decide_True.
  - destruct IH as [IH|[after IH]]; [left|right; exists after]; intros before;
      rewrite effect_on_app; unfold effect_on at 1; simpl;
      rewrite decide_False by done; apply IH.
Qed.

Lemma effect_on_idemp batch k before :
  effect_on batch k (effect_on batch k before) = effect_on batch k before.
Proof.
  destruct (effect_on_cases batch k) as [Hid|[after Hc]].
  - by rewrite !Hid.
  - by rewrite !Hc.
Qed.

Lemma effect_on_puts batch k before :
  Forall (λ o, ∃ r, o = put r) batch →
  is_Some before → is_Some (effect_on batch k before).
Proof.
  intros Hputs. revert before.
  induction Hputs as [|o batch [r ->] _ IH]; intros before Hsome; [done|].
  unfold effect_on in *. simpl. apply IH. by case_decide.
Qed.

(** The last writer wins: a row that is in the batch, with every other
    operation on its key equal to it, is what the batch leaves. *)
Lemma effect_on_written batch r before :
  put r ∈ batch →
  (∀ o, o ∈ batch → op_key o = row_key r → o = put r) →
  effect_on batch (row_key r) before = Some r.
Proof.
  revert before. induction batch as [|o batch IH] using rev_ind; intros before Hin Hall.
  { by apply elem_of_nil in Hin. }
  rewrite effect_on_app. unfold effect_on at 1. simpl.
  destruct (decide (op_key o = row_key r)) as [Hk|Hk].
  - rewrite (Hall o); [done| |done]. apply elem_of_app. right. by left.
  - apply IH.
    + apply elem_of_app in Hin as [?|Hin%list_elem_of_singleton]; [done|].
      subst o. done.
    + intros o' Ho'. apply Hall. apply elem_of_app. by left.
Qed.

Lemma effect_on_deleted batch k before :
  del k ∈ batch →
  (∀ r, put r ∈ batch → row_key r ≠ k) →
  effect_on batch k before = None.
Proof.
  revert before. induction batch as [|o batch IH] using rev_ind; intros before Hin Hall.
  { by apply elem_of_nil in Hin. }
  rewrite effect_on_app. unfold effect_on at 1. simpl.
  destruct (decide (op_key o = k)) as [Hk|Hk].
  - destruct o as [r|k']; [|done]. exfalso. apply (Hall r); [|done].
    apply elem_of_app. right. by left.
  - apply IH.
    + apply elem_of_app in Hin as [?|Hin%list_elem_of_singleton]; [done|].
      subst o. done.
    + intros r Hr. apply Hall. apply elem_of_app. by left.
Qed.

Lemma txIndex_ext db db' :
  (∀ i, row_at db (types.txIndex i) = row_at db' (types.txIndex i)) →
  Db.txIndex db = Db.txIndex db'.
Proof.
  intros Hrows. apply map_eq. intros i. specialize (Hrows i). simpl in Hrows.
  destruct (Db.txIndex db !! i), (Db.txIndex db' !! i); simpl in Hrows; by simplify_eq.
Qed.

Lemma txoIndex_ext db db' :
  (∀ i j, row_at db (types.txoIndex i j) = row_at db' (types.txoIndex i j)) →
  Db.txoIndex db = Db.txoIndex db'.
Proof.
  intros Hrows. apply map_eq. intros [i j]. specialize (Hrows i j). simpl in Hrows.
  destruct (Db.txoIndex db !! _), (Db.txoIndex db' !! _); simpl in Hrows; by simplify_eq.
Qed.

Lemma spentIndex_ext db db' :
  (∀ i j, row_at db (types.spentIndex i j) = row_at db' (types.spentIndex i j)) →
  Db.spentIndex db = Db.spentIndex db'.
Proof.
  intros Hrows. apply map_eq. intros [i j]. specialize (Hrows i j). simpl in Hrows.
  destruct (Db.spentIndex db !! _), (Db.spentIndex db' !! _); simpl in Hrows;
    by simplify_eq.
Qed.

Lemma scIndex_ext db db' :
  (∀ s h i j, row_at db (types.scIndex s h i j) = row_at db' (types.scIndex s h i j)) →
  Db.scIndex db = Db.scIndex db'.
Proof.
  intros Hrows. apply set_eq. intros [[[s h] i] j]. specialize (Hrows s h i j).
  simpl in Hrows. repeat case_decide; by simplify_eq.
Qed.

Lemma commit_idemp db batch : Db.commit (Db.commit db batch) batch = Db.commit db batch.
Proof.
  apply db_ext. intros k. by rewrite !row_at_commit, effect_on_idemp.
Qed.

(** ** More on the batches of [connect] and [disconnect] *)

Lemma connect_batch_puts env blockId blk :
  Forall (λ o, ∃ r, o = put r) (batch_of (connect_effects env blockId blk)).
Proof.
  rewrite connect_batch. apply Forall_app. split; [|repeat constructor; by eexists].
  apply Forall_forall. intros o Ho. apply elem_of_connect_rows in Ho as (tx & _ & Ho).
  destruct Ho as [(? & ? & _ & _ & ->)|[(? & _ & [-> | ->])| ->]]; by eexists.
Qed.

Lemma connect_batch_fee_untouched env blockId blk height o :
  o ∈ batch_of (connect_effects env blockId blk) → op_key o ≠ types.feeIndex height.
Proof.
  intros Ho Hk. pose proof (connect_batch_index env blockId blk) as Hidx.
  rewrite Forall_forall in Hidx. apply (Hidx o Ho). by rewrite Hk.
Qed.

(** Under [outputs_numbered], every deletion of [disconnect] is of a key the
    first batch of [connect] writes. *)
Lemma disconnect_dels_written env blockId blk k :
  outputs_numbered blk →
  del k ∈ batch_of (disconnect_effects blk) →
  ∃ o, o ∈ batch_of (connect_effects env blockId blk) ∧ op_key o = k.
Proof.
  intros Hnum Hk. apply elem_of_batch_of, elem_of_disconnect_effects in Hk.
  destruct Hk as [(tx & Htx & Hk)|?]; [|done].
  apply elem_of_disconnect_tx in Hk.
  assert (∀ o, (∃ tx', tx' ∈ Block.transactions blk ∧
             ((∃ vin input, Tx.ins tx' !! vin = Some input ∧ Input.coinbase input = false
                 ∧ o = put (rows.spentIndex (Input.prevTxId input) (Input.vout input)
                              (Spent.mk (Tx.txId tx') (Z.of_nat vin))))
              ∨ (∃ out, out ∈ Tx.outs tx'
                 ∧ (o = put (rows.scIndex (Output.scId out) (Block.height blk) (Tx.txId tx')
                               (Output.vout out))
                    ∨ o = put (rows.txoIndex (Tx.txId tx') (Output.vout out)
                                 (Output.value out))))
              ∨ o = put (rows.txIndex (Tx.txId tx') (Block.height blk)))) →
            o ∈ batch_of (connect_effects env blockId blk)) as Hin.
  { intros o Ho. rewrite connect_batch, elem_of_app. left.
    by apply elem_of_connect_rows. }
  destruct Hk as [(input & Hinput & Hcb & [= ->])|[(vout & out & Hout & Hk)|[= ->]]].
  - apply list_elem_of_lookup in Hinput as [vin Hvin].
    eexists. split; [apply Hin; exists tx; split; [done|]; left; eauto|done].
  - pose proof (Hnum tx Htx vout out Hout) as Hvout.
    destruct Hk as [[= ->]|[= ->]].
    + eexists. split.
      * apply Hin. exists tx. split; [done|]. right; left. exists out.
        split; [by eapply list_elem_of_lookup_2|by left].
      * simpl. by rewrite Hvout.
    + eexists. split.
      * apply Hin. exists tx. split; [done|]. right; left. exists out.
        split; [by eapply list_elem_of_lookup_2|by right].
      * simpl. by rewrite Hvout.
  - eexists. split; [apply Hin; exists tx; split; [done|]; by right; right|done].
Qed.

(** ** How [connect] and [disconnect] end *)

Lemma connect2ndOrder_cases env db blockId blk :
  (∃ err, connect2ndOrder env db blockId blk = (callback (Some err) None, db))
  ∨ (∃ feeRates,
       parallel (txTask env db <$> Block.transactions blk) = inr feeRates
       ∧ connect2ndOrder env db blockId blk
         = (callback None None,
            Db.apply db (put (rows.feeIndex (Block.height blk)
                                (Fee.mk (feeSummary feeRates) (Block.size blk)))))).
Proof.
  unfold connect2ndOrder. destruct (parallel _) as [err|feeRates]; [left; eauto|].
  unfold atomic_write. destruct (db_fault env _) as [err|]; [left; eauto|right; eauto].
Qed.

Lemma connect_fetch_failed env db blockId height err :
  rpc_block env blockId = inl err →
  connect env db blockId height = mkRun (callback (Some err) None) db [].
Proof. intros Hblk. unfold connect. by rewrite Hblk. Qed.

Lemma connect_write_failed env db blockId height blk err :
  rpc_block env blockId = inr blk →
  db_fault env (Access.write (batch_of (connect_effects env blockId blk))) = Some err →
  connect env db blockId height
  = mkRun (callback (Some err) None) db (timers_of (connect_effects env blockId blk)).
Proof. intros Hblk Hw. unfold connect, atomic_write. by rewrite Hblk; cbv zeta; rewrite Hw. Qed.

Lemma connect_first_phase env db blockId height blk :
  rpc_block env blockId = inr blk →
  db_fault env (Access.write (batch_of (connect_effects env blockId blk))) = None →
  let db1 := Db.commit db (batch_of (connect_effects env blockId blk)) in
  connect env db blockId height
  = mkRun (connect2ndOrder env db1 blockId blk).1 (connect2ndOrder env db1 blockId blk).2
          (timers_of (connect_effects env blockId blk)).
Proof.
  intros Hblk Hw db1. unfold connect, atomic_write. rewrite Hblk. cbv zeta. rewrite Hw.
  fold db1. by destruct (connect2ndOrder env db1 blockId blk).
Qed.

(** The store after a [connect] whose first batch is written: the first
    batch, then possibly the row of FeeIndex. *)
Lemma connect_store env db blockId height blk :
  rpc_block env blockId = inr blk →
  db_fault env (Access.write (batch_of (connect_effects env blockId blk))) = None →
  let db1 := Db.commit db (batch_of (connect_effects env blockId blk)) in
  db_after (connect env db blockId height) = db1
  ∨ ∃ row, db_after (connect env db blockId height)
           = Db.apply db1 (put (rows.feeIndex (Block.height blk) row)).
Proof.
  intros Hblk Hw db1. rewrite (connect_first_phase env db blockId height blk) by done.
  fold db1. simpl.
  destruct (connect2ndOrder_cases env db1 blockId blk) as [(err & ->)|(rates & _ & ->)];
    [by left|right; eauto].
Qed.

Lemma disconnect_fetch_failed env db blockId err :
  rpc_block env blockId = inl err →
  disconnect env db blockId = mkRun (callback (Some err) None) db [].
Proof. intros Hblk. unfold disconnect. by rewrite Hblk. Qed.

Lemma disconnect_write_failed env db blockId blk err :
  rpc_block env blockId = inr blk →
  db_fault env (Access.write (batch_of (disconnect_effects blk))) = Some err →
  disconnect env db blockId = mkRun (callback (Some err) None) db [].
Proof.
  intros Hblk Hw. unfold disconnect, atomic_write. rewrite Hblk. cbv zeta. rewrite Hw.
  by rewrite disconnect_no_timers.
Qed.

(** ** Rows after [connect] and [disconnect] *)

Lemma connect_row_written env db blockId height blk k :
  rpc_block env blockId = inr blk →
  db_fault env (Access.write (batch_of (connect_effects env blockId blk))) = None →
  key_index k ≠ Index.feeIndex →
  row_at (db_after (connect env db blockId height)) k
  = effect_on (batch_of (connect_effects env blockId blk)) k (row_at db k).
Proof.
  intros Hblk Hw Hk.
  destruct (connect_store env db blockId height blk Hblk Hw) as [->|(row & ->)].
  - apply row_at_commit.
  - rewrite row_at_apply. case_decide as Hkey; [|apply row_at_commit].
    simpl in Hkey. by subst k.
Qed.

Lemma disconnect_row_written env db blockId blk k :
  rpc_block env blockId = inr blk →
  db_fault env (Access.write (batch_of (disconnect_effects blk))) = None →
  row_at (db_after (disconnect env db blockId)) k
  = effect_on (batch_of (disconnect_effects blk)) k (row_at db k).
Proof.
  intros Hblk Hw. destruct (disconnect_tip env db blockId blk Hblk Hw) as [-> _].
  apply row_at_commit.
Qed.

Lemma elem_of_connect_batch env blockId blk o :
  o ∈ batch_of (connect_effects env blockId blk)
  ↔ o ∈ batch_of (mjoin (connect_tx blockId (Block.height blk) <$> Block.transactions blk))
    ∨ o = put (rows.tip (Tip.mk blockId (Block.height blk))).
Proof. by rewrite connect_batch, elem_of_app, list_elem_of_singleton. Qed.

Lemma elem_of_disconnect_batch blk tx f :
  tx ∈ Block.transactions blk →
  atomic f ∈ disconnect_tx (Block.height blk) tx →
  f ∈ batch_of (disconnect_effects blk).
Proof.
  intros Htx Hf. apply elem_of_batch_of, elem_of_disconnect_effects. left. eauto.
Qed.

(** X1: [connect] never removes a row: a key that has an entry
    before the call has one after it, however the call ends. *)
Theorem connect_keeps_entries env db blockId height k :
  has_entry db k → has_entry (db_after (connect env db blockId height)) k.
Proof.
  intros Hk. destruct (rpc_block env blockId) as [err|blk] eqn:Hblk.
  { by rewrite (connect_fetch_failed env db blockId height err). }
  destruct (db_fault env (Access.write (batch_of (connect_effects env blockId blk))))
    as [err|] eqn:Hw.
  { by rewrite (connect_write_failed env db blockId height blk err). }
  apply has_entry_row_at.
  destruct (connect_store env db blockId height blk Hblk Hw) as [->|(row & ->)].
  - rewrite row_at_commit. apply effect_on_puts; [apply connect_batch_puts|].
    by apply has_entry_row_at.
  - rewrite row_at_apply. case_decide; [done|].
    rewrite row_at_commit. apply effect_on_puts; [apply connect_batch_puts|].
    by apply has_entry_row_at.
Qed.

Lemma connect_keeps_entries_witness :
  has_entry Sample.db1 (types.txoIndex Sample.idA 0)
  ∧ has_entry Sample.db2 (types.txoIndex Sample.idA 0).
Proof.
  assert (has_entry Sample.db1 (types.txoIndex Sample.idA 0)) as Hk.
  { by exists 50. }
  split; [done|].
  apply (connect_keeps_entries Sample.chain Sample.db1 Sample.hash2 2), Hk.
Defined.

(** X2: the row under a key that the fetched block does not
    write is the same after [connect] as before: the keys written are those
    of the first batch and the FeeIndex key of the block's height. *)
Theorem connect_leaves_other_rows env db blockId height k :
  (∀ blk, rpc_block env blockId = inr blk →
     k ≠ types.feeIndex (Block.height blk)
     ∧ ∀ o, o ∈ batch_of (connect_effects env blockId blk) → op_key o ≠ k) →
  row_at (db_after (connect env db blockId height)) k = row_at db k.
Proof.
  intros Hk. destruct (rpc_block env blockId) as [err|blk] eqn:Hblk.
  { by rewrite (connect_fetch_failed env db blockId height err). }
  destruct (db_fault env (Access.write (batch_of (connect_effects env blockId blk))))
    as [err|] eqn:Hw.
  { by rewrite (connect_write_failed env db blockId height blk err). }
  destruct (Hk blk eq_refl) as [Hfee Hbatch].
  destruct (connect_store env db blockId height blk Hblk Hw) as [->|(row & ->)].
  - rewrite row_at_commit. by apply effect_on_untouched.
  - rewrite row_at_apply. case_decide as Hkey; [by destruct Hfee|].
    rewrite row_at_commit. by apply effect_on_untouched.
Qed.

Lemma connect_leaves_other_rows_witness :
  row_at Sample.db2 (types.txoIndex Sample.idA 0)
  = row_at Sample.db1 (types.txoIndex Sample.idA 0).
Proof.
  apply (connect_leaves_other_rows Sample.chain Sample.db1 Sample.hash2 2).
  intros blk [= <-]. split; [done|].
  apply Forall_forall. apply (bool_decide_unpack _). by vm_compute.
Defined.

(** The rows of the first batch, read back after [connect]. *)
Lemma connect_spent_row env db blockId height blk tx vin input :
  reliable env →
  rpc_block env blockId = inr blk →
  tx ∈ Block.transactions blk →
  Tx.ins tx !! vin = Some input →
  Input.coinbase input = false →
  (∀ tx' vin' input',
     tx' ∈ Block.transactions blk → Tx.ins tx' !! vin' = Some input' →
     Input.coinbase input' = false →
     Input.prevTxId input' = Input.prevTxId input →
     Input.vout input' = Input.vout input →
     Tx.txId tx' = Tx.txId tx ∧ vin' = vin) →
  Db.spentIndex (db_after (connect env db blockId height))
    !! (Input.prevTxId input, Input.vout input)
  = Some (Spent.mk (Tx.txId tx) (Z.of_nat vin)).
Proof.
  intros Hrel Hblk Htx Hin Hcb Huniq.
  set (r := rows.spentIndex (Input.prevTxId input) (Input.vout input)
              (Spent.mk (Tx.txId tx) (Z.of_nat vin))).
  assert (row_at (db_after (connect env db blockId height))
            (types.spentIndex (Input.prevTxId input) (Input.vout input)) = Some r) as Hrow.
  { rewrite (connect_row_written env db blockId height blk) by done.
    apply (effect_on_written _ r).
    - apply elem_of_connect_batch. left. apply elem_of_connect_rows.
      exists tx. split; [done|]. left. by exists vin, input.
    - intros o Ho Hkey. apply elem_of_connect_batch in Ho as [Ho| ->]; [|done].
      apply elem_of_connect_rows in Ho as (tx' & Htx' & Ho).
      destruct Ho as [(vin' & input' & Hin' & Hcb' & ->)|[(out & _ & [-> | ->])| ->]];
        try done.
      simpl in Hkey. injection Hkey as Hp Hv.
      destruct (Huniq tx' vin' input') as [-> ->]; try done.
      unfold r. by rewrite Hp, Hv. }
  subst r. simpl in Hrow.
  apply fmap_Some in Hrow as (s & Hs & Heq). rewrite Hs. by injection Heq as <-.
Qed.

Lemma connect_sc_entry env db blockId height blk tx out :
  reliable env →
  rpc_block env blockId = inr blk →
  tx ∈ Block.transactions blk →
  out ∈ Tx.outs tx →
  (Output.scId out, Block.height blk, Tx.txId tx, Output.vout out)
  ∈ Db.scIndex (db_after (connect env db blockId height)).
Proof.
  intros Hrel Hblk Htx Hout.
  assert (has_entry (db_after (connect env db blockId height))
            (types.scIndex (Output.scId out) (Block.height blk) (Tx.txId tx)
               (Output.vout out))) as Hentry; [|done].
  apply has_entry_row_at.
  rewrite (connect_row_written env db blockId height blk) by done.
  rewrite (effect_on_written _ (rows.scIndex (Output.scId out) (Block.height blk)
                                  (Tx.txId tx) (Output.vout out))); [done|..].
  - apply elem_of_connect_batch. left. apply elem_of_connect_rows.
    exists tx. split; [done|]. right; left. exists out. split; [done|by left].
  - intros o Ho Hkey. pose proof (connect_batch_puts env blockId blk) as Hputs.
    rewrite Forall_forall in Hputs.
    destruct (Hputs o Ho) as [r ->]. simpl in Hkey. by destruct r; simplify_eq/=.
Qed.

(** X3: after [connect] on a reliable store, [spentFromTxo]
    answers, for the output an input of the block spends, the transaction
    and the position of that input, provided no other input of the block
    spends the same output; after [disconnect] of the block it answers that
    the output is unspent. *)
Theorem spend_is_visible_until_disconnect env db blockId height blk tx vin input txo :
  reliable env →
  rpc_block env blockId = inr blk →
  tx ∈ Block.transactions blk →
  Tx.ins tx !! vin = Some input →
  Input.coinbase input = false →
  Txo.txId txo = Input.prevTxId input →
  Txo.vout txo = Input.vout input →
  (∀ tx' vin' input',
     tx' ∈ Block.transactions blk → Tx.ins tx' !! vin' = Some input' →
     Input.coinbase input' = false →
     Input.prevTxId input' = Input.prevTxId input →
     Input.vout input' = Input.vout input →
     Tx.txId tx' = Tx.txId tx ∧ vin' = vin) →
  let db' := db_after (connect env db blockId height) in
  spentFromTxo env db' txo = inr (Some (Spent.mk (Tx.txId tx) (Z.of_nat vin)))
  ∧ spentFromTxo env (db_after (disconnect env db' blockId)) txo = inr None.
Proof.
  intros Hrel Hblk Htx Hin Hcb Hid Hvout Huniq db'.
  unfold spentFromTxo, get_spentIndex. rewrite !db_get_reliable by done.
  rewrite Hid, Hvout. split; f_equal.
  { by apply (connect_spent_row env db blockId height blk tx vin input). }
  assert (row_at (db_after (disconnect env db' blockId))
            (types.spentIndex (Input.prevTxId input) (Input.vout input)) = None) as Hgone.
  { rewrite (disconnect_row_written env db' blockId blk) by done.
    apply effect_on_deleted.
    - apply (elem_of_disconnect_batch blk tx); [done|].
      apply elem_of_disconnect_tx. left. exists input.
      split; [by eapply list_elem_of_lookup_2|done].
    - intros r' Hr'. by apply (disconnect_batch_puts blk). }
  simpl in Hgone. by apply fmap_None in Hgone.
Qed.

Lemma spend_is_visible_until_disconnect_witness :
  spentFromTxo Sample.chain Sample.db2 (Txo.mk Sample.idA 0 Sample.sc1 1)
  = inr (Some (Spent.mk Sample.idC 0))
  ∧ spentFromTxo Sample.chain (db_after (disconnect Sample.chain Sample.db2 Sample.hash2))
      (Txo.mk Sample.idA 0 Sample.sc1 1)
    = inr None.
Proof.
  apply (spend_is_visible_until_disconnect Sample.chain Sample.db1 Sample.hash2 2
           Sample.block2 Sample.txC 0%nat (Input.mk false Sample.idA 0)
           (Txo.mk Sample.idA 0 Sample.sc1 1)); try done.
  - by right; left.
  - intros tx' vin' input' Htx' Hin' Hcb' _ _.
    assert (Forall (λ tx', ∀ vin' input', Tx.ins tx' !! vin' = Some input' →
              Input.coinbase input' = false → Tx.txId tx' = Sample.idC ∧ vin' = 0%nat)
              (Block.transactions Sample.block2)) as Hall.
    { apply Forall_cons_2; [|apply Forall_cons_2; [|apply Forall_nil_2]];
        intros [|[|?]] ? Hl Hc; by simplify_eq/=. }
    rewrite Forall_forall in Hall. by apply (Hall tx' Htx' vin' input').
Defined.

(** A test of [outputs_numbered] that can be evaluated. *)
Lemma outputs_numbered_test blk :
  Forall (λ tx, Forall (λ p, Output.vout p.2 = Z.of_nat p.1) (imap pair (Tx.outs tx)))
         (Block.transactions blk) →
  outputs_numbered blk.
Proof.
  intros Hall tx Htx i out Hout. rewrite Forall_forall in Hall.
  specialize (Hall tx Htx). rewrite Forall_forall in Hall.
  apply (Hall (i, out)). apply elem_of_lookup_imap. by exists i, out.
Qed.

Lemma sample_block2_numbered : outputs_numbered Sample.block2.
Proof. apply outputs_numbered_test. apply (bool_decide_unpack _). by vm_compute. Qed.

(** X4: after [connect] on a reliable store, [txoByTxo] answers
    the value of an output of the block, provided the outputs of the block
    under the same transaction id and [vout] carry the same value; when the
    outputs carry their positions as [vout], [disconnect] of the block makes
    the answer [undefined] again. *)
Theorem txoByTxo_after_connect env db blockId height blk tx out :
  reliable env →
  rpc_block env blockId = inr blk →
  tx ∈ Block.transactions blk →
  out ∈ Tx.outs tx →
  (∀ tx' out',
     tx' ∈ Block.transactions blk → out' ∈ Tx.outs tx' →
     Tx.txId tx' = Tx.txId tx → Output.vout out' = Output.vout out →
     Output.value out' = Output.value out) →
  let db' := db_after (connect env db blockId height) in
  txoByTxo env db' (Tx.txId tx) (Output.vout out) = callback None (Some (Output.value out))
  ∧ (outputs_numbered blk →
     txoByTxo env (db_after (disconnect env db' blockId)) (Tx.txId tx) (Output.vout out)
     = callback None None).
Proof.
  intros Hrel Hblk Htx Hout Huniq db'.
  unfold txoByTxo, get_txoIndex. rewrite !db_get_reliable by done. simpl.
  pose (k := types.txoIndex (Tx.txId tx) (Output.vout out)).
  pose (r := rows.txoIndex (Tx.txId tx) (Output.vout out) (Output.value out)).
  assert (put r ∈ batch_of (connect_effects env blockId blk)) as Hput.
  { apply elem_of_connect_batch. left. apply elem_of_connect_rows.
    exists tx. split; [done|]. right; left. exists out. split; [done|by right]. }
  assert (row_at db' k = Some r) as Hrow.
  { unfold db'. rewrite (connect_row_written env db blockId height blk) by done.
    apply (effect_on_written _ r); [done|].
    intros o Ho Hkey. apply elem_of_connect_batch in Ho as [Ho| ->]; [|done].
    apply elem_of_connect_rows in Ho as (tx' & Htx' & Ho).
    destruct Ho as [(vin' & input' & Hin' & Hcb' & ->)|[(out' & Hout' & [-> | ->])| ->]];
      try done.
    simpl in Hkey. injection Hkey as Hid Hv.
    unfold r. by rewrite <-Hid, <-Hv, (Huniq tx' out'). }
  subst k r. simpl in Hrow. split.
  - apply fmap_Some in Hrow as (value & -> & Heq). by injection Heq as <-.
  - intros Hnum.
    assert (row_at (db_after (disconnect env db' blockId))
              (types.txoIndex (Tx.txId tx) (Output.vout out)) = None) as Hgone.
    { rewrite (disconnect_row_written env db' blockId blk) by done.
      apply effect_on_deleted.
      - by apply (connect_rows_deleted env blockId blk _ Hnum Hput).
      - intros r' Hr'. by apply (disconnect_batch_puts blk). }
    simpl in Hgone. by apply fmap_None in Hgone as ->.
Qed.

Lemma txoByTxo_after_connect_witness :
  txoByTxo Sample.chain Sample.db2 Sample.idC 1 = callback None (Some 10)
  ∧ txoByTxo Sample.chain (db_after (disconnect Sample.chain Sample.db2 Sample.hash2))
      Sample.idC 1
    = callback None None.
Proof.
  destruct (txoByTxo_after_connect Sample.chain Sample.db1 Sample.hash2 2 Sample.block2
              Sample.txC (Output.mk Sample.sc2 10 1)) as [Hvalue Hgone].
  - apply sample_node_reliable.
  - reflexivity.
  - by right; left.
  - by right; left.
  - intros tx' out' Htx' Hout' Hid Hvout.
    assert (Forall (λ tx', Forall (λ out', Tx.txId tx' = Sample.idC →
              Output.vout out' = 1 → Output.value out' = 10) (Tx.outs tx'))
              (Block.transactions Sample.block2)) as Hall.
    { apply (bool_decide_unpack _). by vm_compute. }
    rewrite Forall_forall in Hall. specialize (Hall tx' Htx').
    rewrite Forall_forall in Hall. by apply (Hall out' Hout').
  - split; [exact Hvalue|]. apply Hgone, sample_block2_numbered.
Defined.

(** X5: after [connect] on a reliable store,
    [blockIdByTransactionId] for a transaction of the block asks the node for
    the block at the height of the connected block and passes its answer on,
    so the id answered is the node's block at that height now, whatever block
    was connected; after [disconnect] of the block the answer is [undefined]
    and the node is not asked. *)
Theorem blockIdByTransactionId_after_connect env env' db blockId height blk tx :
  reliable env →
  reliable env' →
  rpc_block env blockId = inr blk →
  tx ∈ Block.transactions blk →
  let db' := db_after (connect env db blockId height) in
  blockIdByTransactionId env' db' (Tx.txId tx)
  = match rpc_getblockhash env' (Block.height blk) with
    | inl err => callback (Some err) None
    | inr blockId' => callback None (Some blockId')
    end
  ∧ blockIdByTransactionId env' (db_after (disconnect env db' blockId)) (Tx.txId tx)
    = callback None None.
Proof.
  intros Hrel Hrel' Hblk Htx db'.
  unfold blockIdByTransactionId, get_txIndex. rewrite !db_get_reliable by done.
  pose (r := rows.txIndex (Tx.txId tx) (Block.height blk)).
  assert (put r ∈ batch_of (connect_effects env blockId blk)) as Hput.
  { apply elem_of_connect_batch. left. apply elem_of_connect_rows.
    exists tx. split; [done|]. by right; right. }
  assert (row_at db' (types.txIndex (Tx.txId tx)) = Some r) as Hrow.
  { unfold db'. rewrite (connect_row_written env db blockId height blk) by done.
    apply (effect_on_written _ r); [done|].
    intros o Ho Hkey. apply elem_of_connect_batch in Ho as [Ho| ->]; [|done].
    apply elem_of_connect_rows in Ho as (tx' & Htx' & Ho).
    destruct Ho as [(vin' & input' & Hin' & Hcb' & ->)|[(out' & Hout' & [-> | ->])| ->]];
      try done.
    simpl in Hkey. injection Hkey as Hid. unfold r. by rewrite Hid. }
  assert (row_at (db_after (disconnect env db' blockId)) (types.txIndex (Tx.txId tx))
          = None) as Hgone.
  { rewrite (disconnect_row_written env db' blockId blk) by done.
    apply effect_on_deleted.
    - apply (elem_of_disconnect_batch blk tx); [done|].
      apply elem_of_disconnect_tx. by right; right.
    - intros r' Hr'. by apply (disconnect_batch_puts blk). }
  subst r. simpl in Hrow, Hgone.
  apply fmap_Some in Hrow as (h & -> & Heq). injection Heq as <-.
  apply fmap_None in Hgone as ->. done.
Qed.

Lemma blockIdByTransactionId_after_connect_witness :
  blockIdByTransactionId Reorg.node Sample.db2 Sample.idC
  = callback None (Some Reorg.hash2')
  ∧ blockIdByTransactionId Reorg.node
      (db_after (disconnect Sample.chain Sample.db2 Sample.hash2)) Sample.idC
    = callback None None.
Proof.
  apply (blockIdByTransactionId_after_connect Sample.chain Reorg.node Sample.db1
           Sample.hash2 2 Sample.block2 Sample.txC).
  - apply sample_node_reliable.
  - by intros a.
  - reflexivity.
  - by right; left.
Defined.

(** X6: on a reliable store, [tip] after [connect] is the id of
    the connected block, also when the call fails after its first batch;
    [tip] after [disconnect] is the previous block hash of the block that
    was fetched, whether or not that block was the tip. *)
Theorem tip_after_connect_and_disconnect env db blockId height blk :
  reliable env →
  rpc_block env blockId = inr blk →
  tip env (db_after (connect env db blockId height)) = callback None (Some blockId)
  ∧ tip env (db_after (disconnect env db blockId))
    = callback None (Some (Block.previousblockhash blk)).
Proof.
  intros Hrel Hblk. unfold tip, get_tip. rewrite !db_get_reliable by done.
  assert (row_at (db_after (connect env db blockId height)) types.tip
          = Some (rows.tip (Tip.mk blockId (Block.height blk)))) as Hrow.
  { rewrite (connect_row_written env db blockId height blk) by done.
    by rewrite connect_batch, effect_on_app. }
  destruct (disconnect_tip env db blockId blk Hblk (Hrel _)) as [_ ->].
  simpl in Hrow. apply fmap_Some in Hrow as (row & -> & Heq).
  by injection Heq as <-.
Qed.

Lemma tip_after_connect_and_disconnect_witness :
  tip Sample.chain Sample.db2 = callback None (Some Sample.hash2)
  ∧ tip Sample.chain (db_after (disconnect Sample.chain Sample.db1 Sample.hash2))
    = callback None (Some Sample.hash1).
Proof.
  apply (tip_after_connect_and_disconnect Sample.chain Sample.db1 Sample.hash2 2
           Sample.block2).
  - apply sample_node_reliable.
  - reflexivity.
Defined.

(** ** Repeating a call *)

Lemma subTask_txoIndex env db db' input :
  Db.txoIndex db = Db.txoIndex db' → subTask env db input = subTask env db' input.
Proof. intros Heq. unfold subTask, get_txoIndex. by rewrite Heq. Qed.

Lemma txTask_txoIndex env db db' tx :
  Db.txoIndex db = Db.txoIndex db' → txTask env db tx = txTask env db' tx.
Proof.
  intros Heq. unfold txTask.
  by rewrite (list_fmap_ext (subTask env db) (subTask env db') _
                (λ _ input _, subTask_txoIndex env db db' input Heq)).
Qed.

Lemma tasks_txoIndex env db db' (transactions : list Tx.t) :
  Db.txoIndex db = Db.txoIndex db' →
  txTask env db <$> transactions = txTask env db' <$> transactions.
Proof. intros Heq. apply list_fmap_ext. intros _ tx _. by apply txTask_txoIndex. Qed.

Lemma apply_put_idemp db r : Db.apply (Db.apply db (put r)) (put r) = Db.apply db (put r).
Proof.
  apply db_ext. intros k. rewrite !row_at_apply. by case_decide.
Qed.

(** Running [connect2ndOrder] again on the store it left changes nothing. *)
Lemma connect2ndOrder_again env db blockId blk :
  connect2ndOrder env (connect2ndOrder env db blockId blk).2 blockId blk
  = connect2ndOrder env db blockId blk.
Proof.
  unfold connect2ndOrder.
  destruct (parallel (txTask env db <$> Block.transactions blk)) as [err|feeRates] eqn:Hpar.
  { simpl. by rewrite Hpar. }
  unfold atomic_write.
  destruct (db_fault env (Access.write _)) as [err|] eqn:Hw.
  { simpl. by rewrite Hpar, Hw. }
  cbn [snd]. rewrite <-(tasks_txoIndex env db) by done. rewrite Hpar, Hw.
  by rewrite commit_idemp.
Qed.

Lemma commit_after_fee_row env db blockId blk row :
  let batch := batch_of (connect_effects env blockId blk) in
  let fee := put (rows.feeIndex (Block.height blk) row) in
  Db.commit (Db.apply (Db.commit db batch) fee) batch = Db.apply (Db.commit db batch) fee.
Proof.
  intros batch fee. apply db_ext. intros k.
  rewrite row_at_commit, !row_at_apply, row_at_commit.
  case_decide as Hk.
  - apply effect_on_untouched. intros o Ho. subst k.
    by apply (connect_batch_fee_untouched env blockId blk).
  - apply effect_on_idemp.
Qed.

(** X7: [connect] called again for the same block, on the store
    the first call left and with the same answers of the node and the store,
    ends as the first call did, leaves the store as it is and queues the same
    notifications once more. *)
Theorem connect_twice env db blockId height height' :
  connect env (db_after (connect env db blockId height)) blockId height'
  = connect env db blockId height.
Proof.
  destruct (rpc_block env blockId) as [err|blk] eqn:Hblk.
  { by rewrite !(connect_fetch_failed env _ blockId _ err). }
  destruct (db_fault env (Access.write (batch_of (connect_effects env blockId blk))))
    as [err|] eqn:Hw.
  { by rewrite !(connect_write_failed env _ blockId _ blk err). }
  rewrite (connect_first_phase env db blockId height blk) by done. cbv zeta. simpl.
  rewrite (connect_first_phase env _ blockId height' blk) by done. cbv zeta.
  set (db1 := Db.commit db (batch_of (connect_effects env blockId blk))).
  assert (Db.commit (connect2ndOrder env db1 blockId blk).2
            (batch_of (connect_effects env blockId blk))
          = (connect2ndOrder env db1 blockId blk).2) as ->.
  { destruct (connect2ndOrder_cases env db1 blockId blk) as [(err & ->)|(rates & _ & ->)].
    - apply commit_idemp.
    - apply commit_after_fee_row. }
  by rewrite connect2ndOrder_again.
Qed.

(** X8: [disconnect] called again for the same block, on the
    store the first call left and with the same answers of the node and the
    store, ends as the first call did and leaves the store as it is. *)
Theorem disconnect_twice env db blockId :
  disconnect env (db_after (disconnect env db blockId)) blockId
  = disconnect env db blockId.
Proof.
  destruct (rpc_block env blockId) as [err|blk] eqn:Hblk.
  { by rewrite !(disconnect_fetch_failed env _ blockId err). }
  destruct (db_fault env (Access.write (batch_of (disconnect_effects blk))))
    as [err|] eqn:Hw.
  { by rewrite !(disconnect_write_failed env _ blockId blk err). }
  destruct (disconnect_tip env db blockId blk Hblk Hw) as [-> _]. simpl.
  destruct (disconnect_tip env (Db.commit db (batch_of (disconnect_effects blk)))
              blockId blk Hblk Hw) as [-> _].
  by rewrite commit_idemp.
Qed.

(** ** A block connected and disconnected *)

(** X9: when a block whose outputs carry their positions as
    [vout] is connected to a store that has no entry under the keys the block
    writes, and is then disconnected, TxIndex, TxoIndex, SpentIndex and
    ScIndex are again what they were before the block. *)
Theorem round_trip_restores_indexes env db blockId height blk :
  reliable env →
  rpc_block env blockId = inr blk →
  outputs_numbered blk →
  (∀ o, o ∈ batch_of (connect_effects env blockId blk) →
        key_index (op_key o) ≠ Index.tip → row_at db (op_key o) = None) →
  let db'' := db_after (disconnect env (db_after (connect env db blockId height)) blockId) in
  Db.txIndex db'' = Db.txIndex db
  ∧ Db.txoIndex db'' = Db.txoIndex db
  ∧ Db.spentIndex db'' = Db.spentIndex db
  ∧ Db.scIndex db'' = Db.scIndex db.
Proof.
  intros Hrel Hblk Hnum Hfresh db''.
  assert (∀ k, key_index k ≠ Index.tip → key_index k ≠ Index.feeIndex →
               row_at db'' k = row_at db k) as Hrows.
  { intros k Htip Hfee. unfold db''.
    rewrite (disconnect_row_written env _ blockId blk) by done.
    rewrite (connect_row_written env db blockId height blk) by done.
    destruct (decide (k ∈ op_key <$> batch_of (connect_effects env blockId blk)))
      as [Hk|Hk].
    - apply list_elem_of_fmap in Hk as (o & -> & Ho).
      rewrite (Hfresh o Ho Htip). apply effect_on_deleted.
      + by apply (connect_rows_deleted env blockId blk).
      + intros r Hr. apply (disconnect_batch_puts blk r); [done|].
        intros Heq. by rewrite Heq in Htip.
    - rewrite (effect_on_untouched (batch_of (connect_effects env blockId blk))).
      2:{ intros o Ho Hkey. apply Hk, list_elem_of_fmap. by exists o. }
      apply effect_on_untouched. intros o Ho Hkey. destruct o as [r|k']; simpl in Hkey.
      + apply (disconnect_batch_puts blk r k Ho); [|done].
        intros Heq. by rewrite Heq in Htip.
      + subst k'. apply (disconnect_dels_written env blockId blk k Hnum) in Ho
          as (o & Ho & Hkey). apply Hk, list_elem_of_fmap. by exists o. }
  split_and!.
  - apply txIndex_ext. intros i. by apply Hrows.
  - apply txoIndex_ext. intros i j. by apply Hrows.
  - apply spentIndex_ext. intros i j. by apply Hrows.
  - apply scIndex_ext. intros s h i j. by apply Hrows.
Qed.

Lemma round_trip_restores_indexes_witness :
  let db'' := db_after (disconnect Sample.chain Sample.db2 Sample.hash2) in
  Db.txIndex db'' = Db.txIndex Sample.db1
  ∧ Db.txoIndex db'' = Db.txoIndex Sample.db1
  ∧ Db.spentIndex db'' = Db.spentIndex Sample.db1
  ∧ Db.scIndex db'' = Db.scIndex Sample.db1.
Proof.
  apply (round_trip_restores_indexes Sample.chain Sample.db1 Sample.hash2 2 Sample.block2).
  - apply sample_node_reliable.
  - reflexivity.
  - apply sample_block2_numbered.
  - apply (proj1 (Forall_forall
             (λ o, key_index (op_key o) ≠ Index.tip → row_at Sample.db1 (op_key o) = None)
             _)).
    apply (bool_decide_unpack _). by vm_compute.
Defined.

(** ** [seenScriptId] *)

Lemma take_one_nil {A} (l : list A) : take 1 l ≠ [] ↔ l ≠ [].
Proof. by destruct l. Qed.

Lemma not_nil_elem_of {A} (l : list A) : l ≠ [] ↔ ∃ x, x ∈ l.
Proof.
  destruct l as [|x l]; split; try done.
  - by intros [x Hx%elem_of_nil].
  - intros _. exists x. by left.
Qed.

(** X10: on a reliable store whose ScriptIndex keys are well
    typed, [seenScriptId] answers [true] exactly when ScriptIndex has an
    entry of the script at a height below [0xffffffff], which is exactly
    when [txosByScriptId] from height 0 returns a non-empty object. *)
Theorem seenScriptId_iff_entry env db scId :
  reliable env →
  scIndex_typed db →
  ∃ seen resultMap,
    seenScriptId env db scId = callback None (Some seen)
    ∧ txosByScriptId env db scId 0 = callback None (Some resultMap)
    ∧ (seen = true ↔ ∃ height txId vout,
         (scId, height, txId, vout) ∈ Db.scIndex db ∧ height < 0xffffffff)
    ∧ (seen = true ↔ resultMap ≠ []).
Proof.
  intros Hrel Htyped.
  set (hits := scan sc_le (elements (Db.scIndex db)) (scId, 0, ZERO64, 0)
                 (Some (scId, 0xffffffff, ZERO64, 0)) None).
  assert (hits ≠ [] ↔ ∃ height txId vout,
            (scId, height, txId, vout) ∈ Db.scIndex db ∧ height < 0xffffffff) as Hhits.
  { rewrite not_nil_elem_of. split.
    - intros ([[[s h] t] v] & Hk). apply elem_of_visited in Hk as (Hk & -> & _ & Hh); eauto.
    - intros (h & t & v & Hk & Hh). exists (scId, h, t, v).
      apply elem_of_visited; [done|]. split_and!; [done..| |done].
      by destruct (Htyped _ Hk) as (_ & [? _] & _). }
  exists (bool_decide (take 1 hits ≠ [])), (assign [] (sc_entry scId <$> hits)).
  split_and!.
  - unfold seenScriptId, iterator_scIndex. by rewrite db_iterator_reliable.
  - by apply txosByScriptId_reliable.
  - by rewrite bool_decide_eq_true, take_one_nil.
  - rewrite bool_decide_eq_true, take_one_nil. split.
    + intros [k Hk]%not_nil_elem_of. apply not_nil_elem_of.
      assert ((sc_entry scId k).1 ∈ (assign [] (sc_entry scId <$> hits)).*1) as Hkey.
      { apply assign_keys. left. by apply list_elem_of_fmap_2, list_elem_of_fmap_2. }
      apply list_elem_of_fmap in Hkey as (kv & _ & Hkv). by exists kv.
    + intros Hres Hnil. apply Hres. by rewrite Hnil.
Qed.

Lemma seenScriptId_iff_entry_witness :
  ∃ resultMap,
    seenScriptId Sample.chain Sample.db2 Sample.sc1 = callback None (Some true)
    ∧ txosByScriptId Sample.chain Sample.db2 Sample.sc1 0 = callback None (Some resultMap)
    ∧ resultMap ≠ [].
Proof.
  destruct (seenScriptId_iff_entry Sample.chain Sample.db2 Sample.sc1)
    as (seen & resultMap & Hseen & Htxos & Hentry & Hres).
  - apply sample_node_reliable.
  - apply sample_scIndex_typed.
  - assert (seen = true) as ->.
    { apply Hentry. exists 1, Sample.idA, 0. split; [|done].
      apply elem_of_elements. rewrite sample_scIndex_elements. by right; left. }
    exists resultMap. split_and!; [done..|]. by apply Hres.
Defined.

(** ** The fee summary *)

Lemma Sorted_lookup_le (l : list Z) (i j : nat) a b :
  Sorted Z.le l → l !! i = Some a → l !! j = Some b → (i ≤ j)%nat → a ≤ b.
Proof.
  intros Hsorted%(Sorted_StronglySorted _). revert i j.
  induction Hsorted as [|x l _ IH Hall]; intros i j Hi Hj Hij; [done|].
  destruct i as [|i], j as [|j]; simplify_eq/=; try lia.
  - rewrite Forall_forall in Hall. by eapply Hall, list_elem_of_lookup_2.
  - apply (IH i j); [done..|lia].
Qed.

(** The three numbers of a summary are in order and come from the sample. *)
Lemma feeSummary_ordered (feeRates : list Z) :
  Z.of_nat (length feeRates) < 2 ^ 32 →
  feeRates ≠ [] →
  ∃ q1 median q3,
    feeSummary feeRates = Box.mk (Some q1) (Some median) (Some q3)
    ∧ q1 ≤ median ≤ q3
    ∧ q1 ∈ feeRates ∧ median ∈ feeRates ∧ q3 ∈ feeRates.
Proof.
  intros Hlen Hne. unfold feeSummary.
  pose proof (sort_Sorted feeRates) as Hsorted.
  pose proof (sort_Permutation feeRates) as Hperm.
  pose proof (sort_length feeRates) as Hn.
  assert (sort feeRates ≠ []) as Hne'.
  { intros Hnil. rewrite Hnil in Hn. by destruct feeRates. }
  rewrite box_ranks by (done || by rewrite Hn). cbv zeta. rewrite Hn.
  set (n := length feeRates).
  assert (0 < n)%nat as Hpos by (subst n; destruct feeRates; simpl; [done|lia]).
  pose proof (rank_in_range n Hpos) as Hq3.
  pose proof (Nat.div_mod_eq n 4) as Hd4. pose proof (Nat.mod_upper_bound n 4) as Hm4.
  pose proof (Nat.div_mod_eq n 2) as Hd2. pose proof (Nat.mod_upper_bound n 2) as Hm2.
  destruct (lookup_lt_is_Some_2 (sort feeRates) (n / 4)) as [a Ha]; [rewrite Hn; lia|].
  destruct (lookup_lt_is_Some_2 (sort feeRates) (n / 2)) as [b Hb]; [rewrite Hn; lia|].
  destruct (lookup_lt_is_Some_2 (sort feeRates) (n / 2 + n / 4)) as [c Hc];
    [rewrite Hn; lia|].
  exists a, b, c. rewrite Ha, Hb, Hc. split_and!; [done| | | | |].
  - apply (Sorted_lookup_le (sort feeRates) (n / 4) (n / 2)); [done..|lia].
  - apply (Sorted_lookup_le (sort feeRates) (n / 2) (n / 2 + n / 4)); [done..|lia].
  - rewrite <-Hperm. by eapply list_elem_of_lookup_2.
  - rewrite <-Hperm. by eapply list_elem_of_lookup_2.
  - rewrite <-Hperm. by eapply list_elem_of_lookup_2.
Qed.

(** X11: when the second phase succeeds for a block that has
    transactions (fewer than 2^32 of them), the q1, median and q3 of the row
    it has put under FeeIndex at the height of the block are in order,
    q1 ≤ median ≤ q3, and each is the fee rate of a transaction of the
    block. *)
Theorem fee_summary_is_ordered env db blockId blk :
  Block.transactions blk ≠ [] →
  Z.of_nat (length (Block.transactions blk)) < 2 ^ 32 →
  (connect2ndOrder env db blockId blk).1 = callback None None →
  ∃ q1 median q3,
    Db.feeIndex (connect2ndOrder env db blockId blk).2 !! Block.height blk
    = Some (Fee.mk (Box.mk (Some q1) (Some median) (Some q3)) (Block.size blk))
    ∧ q1 ≤ median ≤ q3
    ∧ ∀ q, q ∈ [q1; median; q3] →
           ∃ tx, tx ∈ Block.transactions blk ∧ txTask env db tx = inr q.
Proof.
  intros Hne Hlen Hdone.
  destruct (connect2ndOrder_cases env db blockId blk)
    as [(err & Hrun)|(feeRates & Hpar & Hrun)]; rewrite Hrun in Hdone |- *; [done|].
  apply parallel_fmap_inr in Hpar.
  pose proof (Forall2_length _ _ _ Hpar) as Hsame.
  destruct (feeSummary_ordered feeRates) as (q1 & median & q3 & Hbox & Hle & H1 & H2 & H3).
  { by rewrite <-Hsame. }
  { intros ->. by destruct (Block.transactions blk). }
  exists q1, median, q3. split; [|split; [done|]].
  - cbn [snd]. rewrite <-Hbox. apply lookup_insert_eq.
  - intros q Hq.
    assert (q ∈ feeRates) as Hin.
    { by repeat (apply elem_of_cons in Hq as [->|Hq]; [done|]); apply elem_of_nil in Hq. }
    apply list_elem_of_lookup in Hin as [i Hi].
    destruct (Forall2_lookup_r _ _ _ _ _ Hpar Hi) as (tx & Htx & Hrate).
    exists tx. split; [by eapply list_elem_of_lookup_2|done].
Qed.

Lemma fee_summary_is_ordered_witness :
  ∃ q1 median q3,
    Db.feeIndex (connect2ndOrder Sample.chain FirstPhase.db2 Sample.hash2 Sample.block2).2 !! 2
    = Some (Fee.mk (Box.mk (Some q1) (Some median) (Some q3)) 400)
    ∧ q1 ≤ median ≤ q3.
Proof.
  destruct (fee_summary_is_ordered Sample.chain FirstPhase.db2 Sample.hash2 Sample.block2)
    as (q1 & median & q3 & Hrow & Hle & _).
  - done.
  - by vm_compute.
  - by vm_compute.
  - exists q1, median, q3. split; [exact Hrow|exact Hle].
Defined.

(** ** Notifications of [connect] *)

Lemma connect_emitted env db blockId height blk :
  rpc_block env blockId = inr blk →
  emitted (connect env db blockId height) = timers_of (connect_effects env blockId blk).
Proof.
  intros Hblk.
  destruct (db_fault env (Access.write (batch_of (connect_effects env blockId blk))))
    as [err|] eqn:Hw.
  - by rewrite (connect_write_failed env db blockId height blk err).
  - by rewrite (connect_first_phase env db blockId height blk).
Qed.

Lemma notified_nil effects :
  (∀ txId txBuffer blockId,
     setTimeout (Event.transaction txId txBuffer blockId) ∉ effects) →
  transactions_notified (timers_of effects) = [].
Proof.
  induction effects as [|f effects IH]; intros Hnone; [done|].
  unfold transactions_notified, timers_of in *.
  assert (∀ txId txBuffer blockId,
            setTimeout (Event.transaction txId txBuffer blockId) ∉ effects) as Hrest.
  { intros ??? Hin. eapply Hnone. by right. }
  destruct f as [o|[]]; cbn; try by apply IH.
  edestruct Hnone. by left.
Qed.

Lemma notified_app l1 l2 :
  transactions_notified (timers_of (l1 ++ l2))
  = transactions_notified (timers_of l1) ++ transactions_notified (timers_of l2).
Proof. unfold transactions_notified. by rewrite timers_of_app, omap_app. Qed.

Lemma notified_connect_tx blockId height tx :
  transactions_notified (timers_of (connect_tx blockId height tx)) = [Tx.txId tx].
Proof.
  unfold connect_tx. cbv zeta. rewrite !notified_app.
  rewrite (notified_nil (mjoin (imap _ _))), (notified_nil (mjoin (_ <$> _))); [done|..].
  - intros ??? (l & Hin & Hl)%list_elem_of_join.
    apply list_elem_of_fmap in Hl as (out & -> & _).
    by repeat (apply elem_of_cons in Hin as [?|Hin]; [done|]); apply elem_of_nil in Hin.
  - intros ??? (l & Hin & Hl)%list_elem_of_join.
    apply elem_of_lookup_imap in Hl as (vin & input & -> & _).
    destruct (Input.coinbase input); [by apply elem_of_nil in Hin|].
    by repeat (apply elem_of_cons in Hin as [?|Hin]; [done|]); apply elem_of_nil in Hin.
Qed.

Lemma notified_transactions blockId height (transactions : list Tx.t) :
  transactions_notified (timers_of (mjoin (connect_tx blockId height <$> transactions)))
  = Tx.txId <$> transactions.
Proof.
  induction transactions as [|tx transactions IH]; [done|].
  change (mjoin (connect_tx blockId height <$> tx :: transactions))
    with (connect_tx blockId height tx
          ++ mjoin (connect_tx blockId height <$> transactions)).
  by rewrite notified_app, notified_connect_tx, IH.
Qed.

Lemma elem_of_connect_effects env blockId blk tx f :
  tx ∈ Block.transactions blk →
  f ∈ connect_tx blockId (Block.height blk) tx →
  f ∈ connect_effects env blockId blk.
Proof.
  intros Htx Hf. unfold connect_effects. cbv zeta. apply elem_of_app. left.
  apply list_elem_of_join. exists (connect_tx blockId (Block.height blk) tx).
  split; [done|]. by apply list_elem_of_fmap_2.
Qed.

(** X12: whenever the block is fetched, [connect] queues its
    notifications, whether the batch is then written or not and whether the
    second phase succeeds or not: one ['transaction'] per transaction, in
    the order of the block; a ['script'] for every output; a ['spent'] for
    every input that is not a coinbase; and a ['block'], carrying the height
    of the block, exactly when the header is fetched. *)
Theorem connect_notifies_whatever_the_write env db blockId height blk :
  rpc_block env blockId = inr blk →
  let events := emitted (connect env db blockId height) in
  transactions_notified events = Tx.txId <$> Block.transactions blk
  ∧ (∀ tx out, tx ∈ Block.transactions blk → out ∈ Tx.outs tx →
       Event.script (Output.scId out) (Tx.txId tx) (Tx.txBuffer tx) ∈ events)
  ∧ (∀ tx input, tx ∈ Block.transactions blk → input ∈ Tx.ins tx →
       Input.coinbase input = false →
       Event.spent (txoKey (Input.prevTxId input) (Input.vout input)) (Tx.txId tx)
       ∈ events)
  ∧ (∀ e, e ∈ events → is_block_event e = true →
       ∃ blockBuffer, rpc_header env blockId = inr blockBuffer
                      ∧ e = Event.block blockId blockBuffer (Block.height blk))
  ∧ (∀ blockBuffer, rpc_header env blockId = inr blockBuffer →
       Event.block blockId blockBuffer (Block.height blk) ∈ events).
Proof.
  intros Hblk events. unfold events. rewrite (connect_emitted env db blockId height blk Hblk).
  split_and!.
  - unfold connect_effects. cbv zeta. rewrite !notified_app, notified_transactions.
    rewrite (notified_nil (header_timer _ _ _)), (notified_nil [_]);
      [by rewrite app_nil_r|..].
    + intros ??? Hin. by apply list_elem_of_singleton in Hin.
    + intros ??? Hin. unfold header_timer in Hin.
      destruct (rpc_header env blockId); [by apply elem_of_nil in Hin|].
      by apply list_elem_of_singleton in Hin.
  - intros tx out Htx Hout. apply elem_of_timers_of.
    apply (elem_of_connect_effects env blockId blk tx _ Htx), elem_of_connect_tx.
    right; left. exists out. split; [done|]. by right; right.
  - intros tx input Htx Hinput Hcb. apply list_elem_of_lookup in Hinput as [vin Hvin].
    apply elem_of_timers_of.
    apply (elem_of_connect_effects env blockId blk tx _ Htx), elem_of_connect_tx.
    left. exists vin, input. split_and!; [done..|]. by right.
  - intros e He Hblock. apply elem_of_timers_of in He. unfold connect_effects in He.
    cbv zeta in He. rewrite !elem_of_app in He. destruct He as [He|[He|He]].
    + apply list_elem_of_join in He as (l & He & Hl).
      apply list_elem_of_fmap in Hl as (tx & -> & _). apply elem_of_connect_tx in He.
      destruct He as [(? & ? & _ & _ & [?|?])|[(? & _ & [?|[?|?]])|[?|?]]];
        by simplify_eq/=.
    + unfold header_timer in He.
      destruct (rpc_header env blockId) as [err|buf]; [by apply elem_of_nil in He|].
      apply list_elem_of_singleton in He. injection He as ->. by exists buf.
    + by apply list_elem_of_singleton in He.
  - intros buf Hbuf. apply elem_of_timers_of. unfold connect_effects. cbv zeta.
    rewrite !elem_of_app. right; left. unfold header_timer. rewrite Hbuf.
    by apply list_elem_of_singleton.
Qed.

Lemma connect_notifies_whatever_the_write_witness :
  completion (connect Reorg.writes_fail Db.empty Sample.hash1 1)
  = callback (Some "WriteError") None
  ∧ transactions_notified (emitted (connect Reorg.writes_fail Db.empty Sample.hash1 1))
    = [Sample.idA].
Proof.
  split; [reflexivity|].
  by destruct (connect_notifies_whatever_the_write Reorg.writes_fail Db.empty Sample.hash1 1
                 Sample.block1) as [-> _].
Defined.

Lemma subTask_fault env env' db input :
  (∀ a, db_fault env' a = db_fault env a) → subTask env' db input = subTask env db input.
Proof. intros Hfault. unfold subTask, get_txoIndex, db_get. by rewrite Hfault. Qed.

Lemma txTask_fault env env' db tx :
  (∀ a, db_fault env' a = db_fault env a) → txTask env' db tx = txTask env db tx.
Proof.
  intros Hfault. unfold txTask.
  by rewrite (list_fmap_ext (subTask env' db) (subTask env db) _
                (λ _ input _, subTask_fault env env' db input Hfault)).
Qed.

Lemma connect2ndOrder_fault env env' db blockId blk :
  (∀ a, db_fault env' a = db_fault env a) →
  connect2ndOrder env' db blockId blk = connect2ndOrder env db blockId blk.
Proof.
  intros Hfault. unfold connect2ndOrder, atomic_write.
  rewrite (list_fmap_ext (txTask env' db) (txTask env db) _
             (λ _ tx _, txTask_fault env env' db tx Hfault)).
  destruct (parallel _); [done|]. by rewrite Hfault.
Qed.

Lemma connect_batch_env env env' blockId blk :
  batch_of (connect_effects env' blockId blk) = batch_of (connect_effects env blockId blk).
Proof. by rewrite !connect_batch. Qed.

Lemma header_timer_block_only env blockId height :
  filter (λ e, is_block_event e = false) (timers_of (header_timer env blockId height)) = [].
Proof. unfold header_timer. by destruct (rpc_header env blockId). Qed.

(** X13: the header of the block plays no part in how
    [connect] ends: with the same block fetched and the same answers of the
    store, a node whose header fetch fails gives the same completion, the
    same store and the same notifications other than ['block'] as a node
    whose header fetch succeeds; the failure is reported nowhere. *)
Theorem header_failure_is_silent env env' db blockId height :
  rpc_block env' blockId = rpc_block env blockId →
  (∀ a, db_fault env' a = db_fault env a) →
  completion (connect env' db blockId height) = completion (connect env db blockId height)
  ∧ db_after (connect env' db blockId height) = db_after (connect env db blockId height)
  ∧ filter (λ e, is_block_event e = false) (emitted (connect env' db blockId height))
    = filter (λ e, is_block_event e = false) (emitted (connect env db blockId height)).
Proof.
  intros Hsame Hfault.
  destruct (rpc_block env blockId) as [err|blk] eqn:Hblk.
  { by rewrite !(connect_fetch_failed _ db blockId height err). }
  split_and!; [| |].
  3:{ rewrite !(connect_emitted _ db blockId height blk) by done.
      unfold connect_effects. cbv zeta.
      by rewrite !timers_of_app, !filter_app, !header_timer_block_only. }
  all: destruct (db_fault env (Access.write (batch_of (connect_effects env blockId blk))))
    as [err|] eqn:Hw.
  all: try (rewrite (connect_write_failed env db blockId height blk err) by done;
            rewrite (connect_write_failed env' db blockId height blk err);
            [done..|by rewrite Hfault, (connect_batch_env env env')]).
  all: rewrite (connect_first_phase env db blockId height blk) by done;
       rewrite (connect_first_phase env' db blockId height blk)
         by (done || by rewrite Hfault, (connect_batch_env env env'));
       cbv zeta; simpl;
       by rewrite (connect_batch_env env env'), (connect2ndOrder_fault env env').
Qed.

Lemma header_failure_is_silent_witness :
  completion (connect Reorg.headers_fail Sample.db1 Sample.hash2 2)
  = completion (connect Sample.chain Sample.db1 Sample.hash2 2)
  ∧ db_after (connect Reorg.headers_fail Sample.db1 Sample.hash2 2) = Sample.db2.
Proof.
  destruct (header_failure_is_silent Sample.chain Reorg.headers_fail Sample.db1
              Sample.hash2 2) as (Hdone & Hstore & _).
  - reflexivity.
  - intros a. reflexivity.
  - split; [exact Hdone|exact Hstore].
Defined.

(** ** Queries after [connect] *)

Lemma connect_succeeded env db blockId height blk :
  rpc_block env blockId = inr blk →
  completion (connect env db blockId height) = callback None None →
  let db1 := Db.commit db (batch_of (connect_effects env blockId blk)) in
  ∃ feeRates,
    parallel (txTask env db1 <$> Block.transactions blk) = inr feeRates
    ∧ db_after (connect env db blockId height)
      = Db.apply db1 (put (rows.feeIndex (Block.height blk)
                             (Fee.mk (feeSummary feeRates) (Block.size blk)))).
Proof.
  intros Hblk Hdone db1.
  destruct (db_fault env (Access.write (batch_of (connect_effects env blockId blk))))
    as [err|] eqn:Hw.
  { by rewrite (connect_write_failed env db blockId height blk err) in Hdone. }
  rewrite (connect_first_phase env db blockId height blk) in Hdone |- * by done.
  fold db1 in Hdone |- *. simpl in *.
  destruct (connect2ndOrder_cases env db1 blockId blk)
    as [(err & Hrun)|(feeRates & Hpar & Hrun)]; rewrite Hrun in Hdone |- *; [done|].
  by exists feeRates.
Qed.

Lemma fees_reliable env db n result :
  reliable env →
  Db.tip db = Some result →
  ∃ fresult,
    fees env db n = callback None (Some fresult)
    ∧ ∀ height row,
        Db.feeIndex db !! height = Some row → Tip.height result - n ≤ height →
        FeeEntry.mk height (Fee.fees row) (Fee.size row) ∈ fresult.
Proof.
  intros Hrel Htip. unfold fees, get_tip. rewrite db_get_reliable, Htip by done.
  unfold iterator_feeIndex. rewrite db_iterator_reliable by done.
  eexists. split; [done|]. intros h row Hrow Hge.
  apply list_elem_of_fmap. exists (h, row). split; [done|].
  apply elem_of_fee_rows. split; [|done].
  apply elem_of_scan. rewrite elem_of_elements, elem_of_dom. by eauto.
Qed.

(** X14: after a [connect] that succeeded on a reliable store,
    [fees] with a count that is not negative reports the connected block:
    its height, its size and the summary of the fee rates of its
    transactions; and it still reports that entry after [disconnect] of the
    block. *)
Theorem fees_reports_connected_block env db blockId height blk n :
  reliable env →
  rpc_block env blockId = inr blk →
  completion (connect env db blockId height) = callback None None →
  0 ≤ n →
  let db' := db_after (connect env db blockId height) in
  ∃ feeRates,
    Forall2 (λ tx feeRate, txTask env db' tx = inr feeRate)
            (Block.transactions blk) feeRates
    ∧ let entry :=
        FeeEntry.mk (Block.height blk) (feeSummary feeRates) (Block.size blk) in
      (∃ fresult, fees env db' n = callback None (Some fresult) ∧ entry ∈ fresult)
      ∧ (∃ fresult, fees env (db_after (disconnect env db' blockId)) n
                    = callback None (Some fresult)
                    ∧ entry ∈ fresult).
Proof.
  intros Hrel Hblk Hdone Hn db'.
  destruct (connect_succeeded env db blockId height blk Hblk Hdone)
    as (feeRates & Hpar & Hstore).
  set (row := Fee.mk (feeSummary feeRates) (Block.size blk)).
  assert (Db.feeIndex db' !! Block.height blk = Some row) as Hrow.
  { unfold db'. rewrite Hstore. apply lookup_insert_eq. }
  assert (Db.tip db' = Some (Tip.mk blockId (Block.height blk))) as Htip.
  { unfold db'. rewrite Hstore. simpl. by rewrite connect_batch, commit_tip_last. }
  exists feeRates. split; [|cbv zeta; split].
  - apply parallel_fmap_inr. rewrite <-Hpar. f_equal. apply tasks_txoIndex.
    unfold db'. by rewrite Hstore.
  - destruct (fees_reliable env db' n _ Hrel Htip) as (fresult & Hfees & Hin).
    exists fresult. split; [done|]. apply (Hin _ row Hrow). simpl. lia.
  - destruct (disconnect_tip env db' blockId blk Hblk (Hrel _)) as [_ Htip'].
    destruct (fees_reliable env _ n _ Hrel Htip') as (fresult & Hfees & Hin).
    exists fresult. split; [done|]. apply (Hin _ row); [|simpl; lia].
    by rewrite disconnect_feeIndex.
Qed.

Lemma fees_reports_connected_block_witness :
  ∃ fresult,
    fees Sample.chain (db_after (disconnect Sample.chain Sample.db2 Sample.hash2)) 0
    = callback None (Some fresult)
    ∧ FeeEntry.mk 2 (Box.mk (Some 0) (Some 2) (Some 2)) 400 ∈ fresult.
Proof.
  destruct (fees_reports_connected_block Sample.chain Sample.db1 Sample.hash2 2
              Sample.block2 0) as (feeRates & Hrates & _ & fresult & Hfees & Hin).
  - apply sample_node_reliable.
  - reflexivity.
  - reflexivity.
  - done.
  - assert (feeRates = [0; 2]) as ->.
    { apply parallel_fmap_inr in Hrates. vm_compute in Hrates. by injection Hrates. }
    by exists fresult.
Defined.

(** X15: after [connect] on a reliable store has written its
    first batch, [txosByScriptId] for the script of an output of the block,
    from a height up to the height of the block, returns an object with the
    key [txId:vout] of that output, provided the ScriptIndex keys are well
    typed and the height of the block is below [0xffffffff]. *)
Theorem txosByScriptId_after_connect env db blockId height blk tx out minHeight :
  reliable env →
  rpc_block env blockId = inr blk →
  tx ∈ Block.transactions blk →
  out ∈ Tx.outs tx →
  let db' := db_after (connect env db blockId height) in
  scIndex_typed db' →
  minHeight ≤ Block.height blk < 0xffffffff →
  ∃ resultMap,
    txosByScriptId env db' (Output.scId out) minHeight = callback None (Some resultMap)
    ∧ txoKey (Tx.txId tx) (Output.vout out) ∈ resultMap.*1.
Proof.
  intros Hrel Hblk Htx Hout db' Htyped Hheight.
  pose proof (connect_sc_entry env db blockId height blk tx out Hrel Hblk Htx Hout) as Hk.
  eexists. split; [by apply txosByScriptId_reliable|].
  apply assign_keys. left. rewrite <-list_fmap_compose.
  apply (list_elem_of_fmap_2' _ _
           (Output.scId out, Block.height blk, Tx.txId tx, Output.vout out)); [|done].
  apply elem_of_visited; [done|]. by destruct Hheight.
Qed.

Lemma txosByScriptId_after_connect_witness :
  ∃ resultMap,
    txosByScriptId Sample.chain Sample.db2 Sample.sc1 0 = callback None (Some resultMap)
    ∧ txoKey Sample.idC 0 ∈ resultMap.*1.
Proof.
  destruct (txosByScriptId_after_connect Sample.chain Sample.db1 Sample.hash2 2
              Sample.block2 Sample.txC (Output.mk Sample.sc1 30 0) 0)
    as (resultMap & Hdone & Hkey).
  - apply sample_node_reliable.
  - reflexivity.
  - by right; left.
  - by left.
  - generalize sample_scIndex_typed. unfold Sample.db2. exact id.
  - split; [done|reflexivity].
  - exists resultMap. unfold Sample.db2. split; [exact Hdone|exact Hkey].
Defined.

(** ** Scans that fail *)






(** ** The second phase reads what the first wrote *)

(** A task whose inputs all spend outputs of the block, run on the store
    that holds the first batch. *)
Lemma txTask_in_block env db blockId blk tx values :
  reliable env →
  (∀ tx1 out1 tx2 out2,
     tx1 ∈ Block.transactions blk → out1 ∈ Tx.outs tx1 →
     tx2 ∈ Block.transactions blk → out2 ∈ Tx.outs tx2 →
     Tx.txId tx1 = Tx.txId tx2 → Output.vout out1 = Output.vout out2 →
     Output.value out1 = Output.value out2) →
  Forall2 (λ input value,
             Input.coinbase input = false
             ∧ ∃ tx' out, tx' ∈ Block.transactions blk ∧ out ∈ Tx.outs tx'
                 ∧ Tx.txId tx' = Input.prevTxId input
                 ∧ Output.vout out = Input.vout input
                 ∧ Output.value out = value)
          (Tx.ins tx) values →
  let db1 := Db.commit db (batch_of (connect_effects env blockId blk)) in
  txTask env db1 tx
  = inr ((sum_values values - sum_values (Output.value <$> Tx.outs tx)) / Tx.vsize tx).
Proof.
  intros Hrel Huniq Hvalues db1.
  assert (Forall (λ input, Input.coinbase input = false) (Tx.ins tx)) as Hall.
  { clear -Hvalues. induction Hvalues as [|???? [? _] _ IH]; by constructor. }
  unfold txTask. rewrite coinbase_flag_false, filter_all by done.
  assert (parallel (subTask env db1 <$> Tx.ins tx) = inr values) as ->; [|done].
  apply parallel_fmap_inr. eapply Forall2_impl; [exact Hvalues|].
  intros input value (_ & tx' & out & Htx' & Hout & Hid & Hvout & <-).
  unfold subTask, get_txoIndex. rewrite db_get_reliable by done.
  assert (row_at db1 (types.txoIndex (Input.prevTxId input) (Input.vout input))
          = Some (rows.txoIndex (Input.prevTxId input) (Input.vout input) (Output.value out)))
    as Hrow.
  { unfold db1. rewrite row_at_commit.
    apply (effect_on_written _ (rows.txoIndex _ _ _)).
    - apply elem_of_connect_batch. left. apply elem_of_connect_rows.
      exists tx'. split; [done|]. right; left. exists out. split; [done|].
      right. by rewrite Hid, Hvout.
    - intros o Ho Hkey. apply elem_of_connect_batch in Ho as [Ho| ->]; [|done].
      apply elem_of_connect_rows in Ho as (tx2 & Htx2 & Ho).
      destruct Ho as [(? & ? & _ & _ & ->)|[(out2 & Hout2 & [-> | ->])| ->]]; try done.
      simpl in Hkey. injection Hkey as Hid2 Hvout2.
      rewrite Hid2, Hvout2. do 2 f_equal.
      apply (Huniq tx2 out2 tx' out); congruence. }
  simpl in Hrow. apply fmap_Some in Hrow as (value & -> & Heq). by injection Heq as ->.
Qed.

(** X17: [connect] on a reliable store succeeds, whatever the
    store held, for a block in which every transaction has a coinbase input
    or spends only outputs of the block itself, wherever in the block those
    outputs are created (the first batch is written before the second phase
    looks them up), provided the outputs of the block under the same
    transaction id and [vout] carry the same value: the row put under
    FeeIndex is the summary of one rate per transaction, 0 for a transaction
    with a coinbase input and floor((sum of the spent values - sum of its
    output values) / vsize) for any other. *)
Theorem in_block_spends_resolve env db blockId height blk feeRates :
  reliable env →
  rpc_block env blockId = inr blk →
  (∀ tx1 out1 tx2 out2,
     tx1 ∈ Block.transactions blk → out1 ∈ Tx.outs tx1 →
     tx2 ∈ Block.transactions blk → out2 ∈ Tx.outs tx2 →
     Tx.txId tx1 = Tx.txId tx2 → Output.vout out1 = Output.vout out2 →
     Output.value out1 = Output.value out2) →
  Forall2 (λ tx feeRate,
      (Exists (λ input, Input.coinbase input = true) (Tx.ins tx) ∧ feeRate = 0)
      ∨ (0 < Tx.vsize tx
         ∧ ∃ values,
             Forall2 (λ input value,
                        Input.coinbase input = false
                        ∧ ∃ tx' out, tx' ∈ Block.transactions blk ∧ out ∈ Tx.outs tx'
                            ∧ Tx.txId tx' = Input.prevTxId input
                            ∧ Output.vout out = Input.vout input
                            ∧ Output.value out = value)
                     (Tx.ins tx) values
             ∧ let fee := sum_values values - sum_values (Output.value <$> Tx.outs tx) in
               feeRate * Tx.vsize tx ≤ fee < (feeRate + 1) * Tx.vsize tx))
    (Block.transactions blk) feeRates →
  let db1 := Db.commit db (batch_of (connect_effects env blockId blk)) in
  completion (connect env db blockId height) = callback None None
  ∧ db_after (connect env db blockId height)
    = Db.apply db1 (put (rows.feeIndex (Block.height blk)
                           (Fee.mk (feeSummary feeRates) (Block.size blk))))
  ∧ Db.feeIndex (db_after (connect env db blockId height)) !! Block.height blk
    = Some (Fee.mk (feeSummary feeRates) (Block.size blk)).
Proof.
  intros Hrel Hblk Huniq Hrates db1.
  assert (parallel (txTask env db1 <$> Block.transactions blk) = inr feeRates) as Hpar.
  { apply parallel_fmap_inr. eapply Forall2_impl; [exact Hrates|].
    intros tx feeRate [[Hcb ->]|(Hvsize & values & Hvalues & Hfloor)].
    - unfold txTask. by rewrite bool_decide_eq_true_2.
    - unfold db1. rewrite (txTask_in_block env db blockId blk tx values) by done.
      cbv zeta in Hfloor. by rewrite (floor_quotient _ _ feeRate). }
  rewrite (connect_first_phase env db blockId height blk) by done. fold db1.
  rewrite (connect2ndOrder_writes_summary env db1 blockId blk feeRates) by done.
  split_and!; [done..|]. apply lookup_insert_eq.
Qed.

Lemma sample_in_block_values tx1 out1 tx2 out2 :
  tx1 ∈ Block.transactions InBlock.block3 → out1 ∈ Tx.outs tx1 →
  tx2 ∈ Block.transactions InBlock.block3 → out2 ∈ Tx.outs tx2 →
  Tx.txId tx1 = Tx.txId tx2 → Output.vout out1 = Output.vout out2 →
  Output.value out1 = Output.value out2.
Proof.
  intros Htx1 Hout1 Htx2 Hout2.
  assert (Forall (λ tx1, Forall (λ out1, Forall (λ tx2, Forall (λ out2,
            Tx.txId tx1 = Tx.txId tx2 → Output.vout out1 = Output.vout out2 →
            Output.value out1 = Output.value out2) (Tx.outs tx2))
            (Block.transactions InBlock.block3)) (Tx.outs tx1))
            (Block.transactions InBlock.block3)) as Hall.
  { apply (bool_decide_unpack _). by vm_compute. }
  rewrite Forall_forall in Hall. specialize (Hall tx1 Htx1).
  rewrite Forall_forall in Hall. specialize (Hall out1 Hout1).
  rewrite Forall_forall in Hall. specialize (Hall tx2 Htx2).
  rewrite Forall_forall in Hall. by apply (Hall out2 Hout2).
Qed.

Lemma in_block_spends_resolve_witness :
  completion (connect InBlock.chain Db.empty InBlock.hash3 3) = callback None None
  ∧ Db.feeIndex (db_after (connect InBlock.chain Db.empty InBlock.hash3 3)) !! 3
    = Some (Fee.mk (feeSummary [0; 2; 11]) 500).
Proof.
  destruct (in_block_spends_resolve InBlock.chain Db.empty InBlock.hash3 3 InBlock.block3
              [0; 2; 11]) as (Hdone & _ & Hrow).
  - apply sample_node_reliable.
  - reflexivity.
  - apply sample_in_block_values.
  - apply Forall2_cons_2; [|apply Forall2_cons_2; [|apply Forall2_cons_2;
      [|apply Forall2_nil_2]]].
    + left. split; [|done]. apply Exists_cons_hd. reflexivity.
    + right. split; [reflexivity|]. exists [28]. split; [|by vm_compute].
      apply Forall2_cons_2; [|apply Forall2_nil_2]. split; [reflexivity|].
      exists InBlock.txF, (Output.mk Sample.sc2 28 0).
      split_and!; [by right; right; left|by left|reflexivity..].
    + right. split; [reflexivity|]. exists [50]. split; [|by vm_compute].
      apply Forall2_cons_2; [|apply Forall2_nil_2]. split; [reflexivity|].
      exists InBlock.txD, (Output.mk Sample.sc2 50 0).
      split_and!; [by left|by left|reflexivity..].
  - split; [exact Hdone|exact Hrow].
Defined.

(** ** What [disconnect] leaves *)

Lemma effect_on_dels batch k before r :
  (∀ r', put r' ∈ batch → row_key r' ≠ k) →
  effect_on batch k before = Some r → before = Some r.
Proof.
  revert before. induction batch as [|o batch IH]; intros before Hputs Hafter; [done|].
  unfold effect_on in *. simpl in Hafter.
  assert (∀ r', put r' ∈ batch → row_key r' ≠ k) as Hrest.
  { intros r' Hr'. apply Hputs. by right. }
  apply IH in Hafter; [|done]. case_decide as Hk; [|done].
  destruct o as [r'|k']; [|done]. edestruct Hputs; [by left|done].
Qed.

(** X18: [disconnect] adds nothing but the tip: a row found
    under any other key after the call was there, the same, before it. *)
Theorem disconnect_adds_no_row env db blockId k r :
  k ≠ types.tip →
  row_at (db_after (disconnect env db blockId)) k = Some r →
  row_at db k = Some r.
Proof.
  intros Hk Hafter. destruct (rpc_block env blockId) as [err|blk] eqn:Hblk.
  { by rewrite (disconnect_fetch_failed env db blockId err) in Hafter. }
  destruct (db_fault env (Access.write (batch_of (disconnect_effects blk))))
    as [err|] eqn:Hw.
  { by rewrite (disconnect_write_failed env db blockId blk err) in Hafter. }
  rewrite (disconnect_row_written env db blockId blk) in Hafter by done.
  apply effect_on_dels in Hafter; [done|].
  intros r' Hr'. by apply (disconnect_batch_puts blk).
Qed.

Lemma disconnect_adds_no_row_witness :
  row_at Sample.db2 (types.txoIndex Sample.idA 0)
  = Some (rows.txoIndex Sample.idA 0 50).
Proof.
  apply (disconnect_adds_no_row Sample.chain Sample.db2 Sample.hash2
           (types.txoIndex Sample.idA 0) (rows.txoIndex Sample.idA 0 50)); [done|].
  by vm_compute.
Defined.

(** ** The order of the transactions *)

Lemma parallel_Permutation {A} (tasks tasks' : list (Error + A)) results :
  tasks ≡ₚ tasks' →
  parallel tasks = inr results →
  ∃ results', parallel tasks' = inr results' ∧ results ≡ₚ results'.
Proof.
  intros Hperm. revert results.
  induction Hperm as [|t l l' _ IH|t1 t2 l|l1 l2 l3 _ IH1 _ IH2]; intros results Hpar.
  - exists []. by injection Hpar as <-.
  - destruct t as [err|a]; [done|]. simpl in Hpar |- *.
    destruct (parallel l) as [err|rs]; [done|]. injection Hpar as <-.
    destruct (IH rs eq_refl) as (rs' & -> & Hrs). exists (a :: rs'). by rewrite Hrs.
  - destruct t1 as [err|a], t2 as [err'|b]; simpl in Hpar |- *; try done.
    destruct (parallel l) as [err|rs]; [done|]. injection Hpar as <-.
    exists (a :: b :: rs). split; [done|]. apply perm_swap.
  - destruct (IH1 results Hpar) as (rs2 & Hpar2 & Hrs2).
    destruct (IH2 rs2 Hpar2) as (rs3 & Hpar3 & Hrs3).
    exists rs3. split; [done|]. by rewrite Hrs2.
Qed.

(** X19: the row of FeeIndex does not depend on the order of
    the transactions: when the second phase succeeds for a block, it ends the
    same way and leaves the same store for a block of the same height and
    size with the same transactions in another order. *)
Theorem fee_row_ignores_transaction_order env db blockId blockId' blk blk' :
  Block.transactions blk ≡ₚ Block.transactions blk' →
  Block.height blk' = Block.height blk →
  Block.size blk' = Block.size blk →
  (connect2ndOrder env db blockId blk).1 = callback None None →
  connect2ndOrder env db blockId' blk' = connect2ndOrder env db blockId blk.
Proof.
  intros Hperm Hheight Hsize Hdone. unfold connect2ndOrder in *.
  destruct (parallel (txTask env db <$> Block.transactions blk)) as [err|feeRates] eqn:Hpar;
    [done|].
  destruct (parallel_Permutation _ (txTask env db <$> Block.transactions blk')
              feeRates (fmap_Permutation _ _ _ Hperm) Hpar) as (feeRates' & -> & Hrates).
  by rewrite Hheight, Hsize, (feeSummary_Permutation feeRates' feeRates).
Qed.

Lemma fee_row_ignores_transaction_order_witness :
  connect2ndOrder Sample.chain Sample.db2 Sample.hash2
    (Block.mk 2 [Sample.txC; Sample.txB] 400 Sample.hash1)
  = connect2ndOrder Sample.chain Sample.db2 Sample.hash2 Sample.block2.
Proof.
  apply (fee_row_ignores_transaction_order Sample.chain Sample.db2 Sample.hash2 Sample.hash2
           Sample.block2 (Block.mk 2 [Sample.txC; Sample.txB] 400 Sample.hash1)).
  - apply perm_swap.
  - reflexivity.
  - reflexivity.
  - by vm_compute.
Defined.

(** ** The history of a script *)

Lemma transactionIds_reliable env db scId height txosMap :
  reliable env →
  txosByScriptId env db scId height = callback None (Some txosMap) →
  ∃ txIds : gmap string bool,
    transactionIdsByScriptId env db scId height = callback None (Some txIds)
    ∧ (∀ key txo, (key, txo) ∈ txosMap → txIds !! Txo.txId txo = Some true)
    ∧ (∀ key txo spent,
         (key, txo) ∈ txosMap →
         Db.spentIndex db !! (Txo.txId txo, Txo.vout txo) = Some spent →
         txIds !! Spent.txId spent = Some true).
Proof.
  intros Hrel Htxos. unfold transactionIdsByScriptId. rewrite Htxos.
  cbv zeta. cbn [from_option]. unfold id.
  set (taskMap := (λ '(txoKey, txo), (txoKey, spentFromTxo env db txo)) <$> txosMap).
  assert (∀ txo, spentFromTxo env db txo
                 = inr (Db.spentIndex db !! (Txo.txId txo, Txo.vout txo))) as Hget.
  { intros txo. unfold spentFromTxo, get_spentIndex. by rewrite db_get_reliable. }
  assert (∀ key task, (key, task) ∈ taskMap ↔
            ∃ txo, (key, txo) ∈ txosMap ∧ task = spentFromTxo env db txo) as Htask.
  { intros key task. unfold taskMap. rewrite list_elem_of_fmap. split.
    - intros ([k txo] & [= -> ->] & Hin). eauto.
    - intros (txo & Hin & ->). by exists (key, txo). }
  destruct (parallel_obj taskMap) as [err|spentMap] eqn:Hp.
  { apply parallel_obj_inl in Hp as [key Hin].
    apply Htask in Hin as (txo & Hin & Herr). by rewrite Hget in Herr. }
  apply parallel_obj_inr in Hp as [_ Hrows].
  eexists. split; [done|]. rewrite mark_spenders, mark_creators.
  set (spenders := Spent.txId <$> omap (λ row, row) spentMap.*2).
  set (creators := Txo.txId <$> txosMap.*2).
  set (marked := foldl (λ (txIds : gmap string bool) k, <[k := true]> txIds) ∅ spenders).
  split.
  - intros key txo Hin. apply (mark_lookup creators marked).
    apply list_elem_of_fmap_2, list_elem_of_fmap. by exists (key, txo).
  - intros key txo spent Hin Hspent.
    destruct (decide (Spent.txId spent ∈ creators)) as [Hc|Hc].
    { by apply (mark_lookup creators marked). }
    destruct (mark_lookup creators marked (Spent.txId spent)) as [_ ->]; [|done].
    apply (mark_lookup spenders ∅). apply list_elem_of_fmap_2.
    apply list_elem_of_omap. exists (Some spent). split; [|done].
    assert (inr (Some spent) ∈ taskMap.*2) as Htaskin.
    { apply list_elem_of_fmap. exists (key, inr (Some spent)). split; [done|].
      apply Htask. exists txo. by rewrite Hget, Hspent. }
    rewrite Hrows in Htaskin.
    by apply list_elem_of_fmap in Htaskin as (row & [= <-] & ?).
Qed.

(** X20: after [connect] on a reliable store whose ScriptIndex
    keys are well typed, the history [transactionIdsByScriptId] gives for a
    script holds every transaction of the block that pays to the script, if
    the height of the block is in the range asked for, and every
    transaction of the block that spends an output of the script indexed at
    a height in that range, if it is the only one in the block to spend
    it. *)
Theorem history_includes_connected_block env db blockId height blk scId minHeight :
  reliable env →
  rpc_block env blockId = inr blk →
  let db' := db_after (connect env db blockId height) in
  scIndex_typed db' →
  ∃ txIds : gmap string bool,
    transactionIdsByScriptId env db' scId minHeight = callback None (Some txIds)
    ∧ (∀ tx out,
         tx ∈ Block.transactions blk → out ∈ Tx.outs tx → Output.scId out = scId →
         minHeight ≤ Block.height blk < 0xffffffff →
         txIds !! Tx.txId tx = Some true)
    ∧ (∀ tx vin input h,
         tx ∈ Block.transactions blk → Tx.ins tx !! vin = Some input →
         Input.coinbase input = false →
         (scId, h, Input.prevTxId input, Input.vout input) ∈ Db.scIndex db' →
         minHeight ≤ h < 0xffffffff →
         (∀ tx' vin' input',
            tx' ∈ Block.transactions blk → Tx.ins tx' !! vin' = Some input' →
            Input.coinbase input' = false →
            Input.prevTxId input' = Input.prevTxId input →
            Input.vout input' = Input.vout input →
            Tx.txId tx' = Tx.txId tx ∧ vin' = vin) →
         txIds !! Tx.txId tx = Some true).
Proof.
  intros Hrel Hblk db' Htyped.
  pose proof (txosByScriptId_reliable env db' scId minHeight Hrel) as Htxos.
  destruct (transactionIds_reliable env db' scId minHeight _ Hrel Htxos)
    as (txIds & Hids & Hcreators & Hspenders).
  assert (∀ h txId vout,
            (scId, h, txId, vout) ∈ Db.scIndex db' → minHeight ≤ h < 0xffffffff →
            ∃ key txo,
              (key, txo) ∈ assign [] (sc_entry scId <$>
                 scan sc_le (elements (Db.scIndex db')) (scId, minHeight, ZERO64, 0)
                      (Some (scId, 0xffffffff, ZERO64, 0)) None)
              ∧ Txo.txId txo = txId ∧ Txo.vout txo = vout) as Hentry.
  { intros h txId vout Hk Hh.
    assert (txoKey txId vout ∈ (assign [] (sc_entry scId <$>
              scan sc_le (elements (Db.scIndex db')) (scId, minHeight, ZERO64, 0)
                   (Some (scId, 0xffffffff, ZERO64, 0)) None)).*1) as Hkey.
    { apply assign_keys. left. rewrite <-list_fmap_compose.
      apply (list_elem_of_fmap_2' _ _ (scId, h, txId, vout)); [|done].
      apply elem_of_visited; [done|]. by destruct Hh. }
    apply list_elem_of_fmap in Hkey as ([key txo] & Hkey & Hin). simpl in Hkey.
    exists key, txo. split; [done|].
    pose proof Hin as Hin'.
    apply elem_of_assign in Hin' as [Hin'|Hin']; [|by apply elem_of_nil in Hin'].
    apply list_elem_of_fmap in Hin' as ([[[s' h'] t'] v'] & [= -> ->] & Hk').
    apply elem_of_visited in Hk' as (Hk' & _); [|done].
    destruct (Htyped _ Hk) as (_ & _ & Ht & _).
    destruct (Htyped _ Hk') as (_ & _ & Ht' & _).
    simpl. apply txoKey_inj in Hkey as [-> ->]; [done|].
    by rewrite (Hex64_length _ Ht), (Hex64_length _ Ht'). }
  exists txIds. split_and!; [done|..].
  - intros tx out Htx Hout <- Hheight.
    destruct (Hentry (Block.height blk) (Tx.txId tx) (Output.vout out))
      as (key & txo & Hin & <- & _); [|done|by apply (Hcreators key)].
    by apply connect_sc_entry.
  - intros tx vin input h Htx Hin Hcb Hk Hh Huniq.
    destruct (Hentry h (Input.prevTxId input) (Input.vout input) Hk Hh)
      as (key & txo & Htxo & Hid & Hvout).
    apply (Hspenders key txo (Spent.mk (Tx.txId tx) (Z.of_nat vin)) Htxo).
    rewrite Hid, Hvout.
    by apply (connect_spent_row env db blockId height blk tx vin input).
Qed.

Lemma sample_block2_spender tx vin input :
  tx ∈ Block.transactions Sample.block2 →
  Tx.ins tx !! vin = Some input →
  Input.coinbase input = false →
  Tx.txId tx = Sample.idC ∧ vin = 0%nat.
Proof.
  intros Htx.
  assert (Forall (λ tx', ∀ vin' input', Tx.ins tx' !! vin' = Some input' →
            Input.coinbase input' = false → Tx.txId tx' = Sample.idC ∧ vin' = 0%nat)
            (Block.transactions Sample.block2)) as Hall.
  { apply Forall_cons_2; [|apply Forall_cons_2; [|apply Forall_nil_2]];
      intros [|[|?]] ? Hl Hc; by simplify_eq/=. }
  rewrite Forall_forall in Hall. by apply (Hall tx Htx vin input).
Qed.

Lemma history_includes_connected_block_witness :
  ∃ txIds : gmap string bool,
    transactionIdsByScriptId Sample.chain Sample.db2 Sample.sc1 0
    = callback None (Some txIds)
    ∧ txIds !! Sample.idC = Some true.
Proof.
  destruct (history_includes_connected_block Sample.chain Sample.db1 Sample.hash2 2
              Sample.block2 Sample.sc1 0) as (txIds & Hids & _ & Hspender).
  - apply sample_node_reliable.
  - reflexivity.
  - generalize sample_scIndex_typed. unfold Sample.db2. exact id.
  - exists txIds. unfold Sample.db2. split; [exact Hids|].
    apply (Hspender Sample.txC 0%nat (Input.mk false Sample.idA 0) 1).
    + by right; left.
    + reflexivity.
    + reflexivity.
    + assert ((Sample.sc1, 1, Sample.idA, 0) ∈ Db.scIndex Sample.db2) as Hk.
      { apply elem_of_elements. rewrite sample_scIndex_elements. by right; left. }
      revert Hk. unfold Sample.db2. exact id.
    + split; [done|reflexivity].
    + intros tx' vin' input' Htx' Hin' Hcb' _ _.
      exact (sample_block2_spender tx' vin' input' Htx' Hin' Hcb').
Defined.
